(** * KeyStone-Game (Aethelgard): the rules engine and its store

    A shallow embedding of [src/utils/gameLogic.ts], [src/utils/notationUtils.ts]
    and [src/stores/gameStore.ts], followed by the properties of the engine.

    Conventions of the embedding:
    - a JavaScript [number] that holds a row, a column, an index or a turn
      number is a [Z];
    - an array is a [list]; reading it outside its range gives [undefined]
      in JavaScript and the program dereferences what it read at once, so
      such a read is the uncaught [TypeError] it leads to: [None] in the
      [option] monad below;
    - the string tags of [gameTypes.ts] are closed unions and become
      inductive types;
    - [JSON.parse(JSON.stringify(b))] is the identity on the values of the
      model (boards are immutable values here, so the clone is implicit). *)

From Stdlib Require Import ZArith List Bool Lia.
Import ListNotations.
Local Open Scope Z_scope.

(** ** The error monad: [None] is an uncaught exception *)

Definition bind {A B : Type} (m : option A) (k : A -> option B) : option B :=
  match m with
  | Some a => k a
  | None => None
  end.

Notation "x <- m ;; k" := (bind m (fun x => k))
  (at level 61, m at next level, right associativity).
Notation "' pat <- m ;; k" := (bind m (fun x => match x with pat => k end))
  (at level 61, pat pattern, m at next level, right associativity).

(** [array[i]] followed by a property access. *)
Definition arrGet {A : Type} (l : list A) (i : Z) : option A :=
  if i <? 0 then None else nth_error l (Z.to_nat i).

(** [for (x of l) if (f x) out.push(x)] where [f] may throw. *)
Fixpoint filterM {A : Type} (f : A -> option bool) (l : list A) : option (list A) :=
  match l with
  | [] => Some []
  | x :: xs =>
      b <- f x ;;
      rest <- filterM f xs ;;
      Some (if b then x :: rest else rest)
  end.

(** [for (x of l) { const r = f x; if (r) out.push(r) }] where [f] may throw. *)
Fixpoint collectM {A B : Type} (f : A -> option (option B)) (l : list A) : option (list B) :=
  match l with
  | [] => Some []
  | x :: xs =>
      r <- f x ;;
      rest <- collectM f xs ;;
      Some (match r with Some y => y :: rest | None => rest end)
  end.

(** [l.some(f)]: stops at the first element that satisfies [f]. *)
Fixpoint someM {A : Type} (f : A -> option bool) (l : list A) : option bool :=
  match l with
  | [] => Some false
  | x :: xs =>
      b <- f x ;;
      if b then Some true else someM f xs
  end.

(** [l.forEach(x => acc = f acc x)] where [f] may throw. *)
Fixpoint foldM {A S : Type} (f : S -> A -> option S) (l : list A) (s : S) : option S :=
  match l with
  | [] => Some s
  | x :: xs => s' <- f s x ;; foldM f xs s'
  end.

(** [0, 1, ..., n-1] as the values of a loop counter. *)
Definition range (n : nat) : list Z := map Z.of_nat (seq 0 n).

(** ** gameTypes.ts *)

Inductive Player := black | white.

Inductive StoneType :=
  empty | blackConduit | whiteConduit | blackKeystone | whiteKeystone.

Inductive GamePhase := placing | converting | resonating | selectingFocus.

Inductive GameStatus := playing | blackWin | whiteWin | draw.

Inductive Direction := up | down | left | right.

Inductive NotationType := normal | focus | resonance | conversion.

Record Position := mkPos { row : Z; col : Z }.

Record SecondaryNotation := {
  sec_moveNumber : Z;
  sec_notationType : NotationType
}.

Record NotationInfo := {
  n_moveNumber : Z;
  notationType : NotationType;
  direction : option Direction;
  secondaryNotation : option SecondaryNotation
}.

Record BoardCell := {
  position : Position;
  stoneType : StoneType;
  isHighlighted : bool;
  isConvertible : bool;
  isResonating : bool;
  notation : option NotationInfo
}.

Definition Board := list (list BoardCell).

Inductive LShapeType := L | reverseL.

Record LShape := {
  stones : list Position;
  type : LShapeType
}.

Record Core := {
  positions : list Position;
  core_stones : list BoardCell
}.

Inductive MoveType := place | convert | resonate.

Record ResonanceInfo := {
  r_core : Core;
  focusPosition : Position;
  resonancePaths : list (list Position)
}.

Record LShapeInfo := {
  lShape : LShape;
  convertedStoneIndex : Z
}.

Record GameMove := {
  moveNumber : Z;
  player : Player;
  moveType : MoveType;
  m_position : Position;
  previousBoard : Board;
  currentBoard : Board;
  resonanceInfo : option ResonanceInfo;
  lShapeInfo : option LShapeInfo
}.

Inductive GameEventType :=
  stone_placed | core_formed | resonance_activated | stone_converted
| lshape_detected | turn_started.

Record EventDetails := {
  d_position : option Position;
  d_core : option Core;
  d_resonancePaths : option (list (list Position));
  d_convertedStones : option (list Position);
  d_lShape : option LShape
}.

(** An entry of the event log.  [id] (from [Math.random]) and [timestamp]
    (from [Date.now]) are not functions of the state and [message] is display
    text computed from the other fields; the three are left out. *)
Record GameEvent := {
  eventType : GameEventType;
  e_player : Player;
  details : option EventDetails
}.

Record GameState := {
  board : Board;
  currentPlayer : Player;
  gamePhase : GamePhase;
  gameStatus : GameStatus;
  selectedLShape : option LShape;
  selectedCores : list Core;
  selectedCore : option Core;
  corePlayer : option Player;
  hoveredPosition : option Position;
  moveHistory : list GameMove;
  currentMoveIndex : Z;
  isNotationMode : bool;
  eventLog : list GameEvent;
  isHistoryMode : bool;
  historyIndex : Z;
  availableMoves : list Position;
  convertibleStones : list Position;
  isAnimating : bool
}.

(** *** Equality tests ([===] on tags) and the template strings *)

Definition Player_eqb (a b : Player) : bool :=
  match a, b with
  | black, black | white, white => true
  | _, _ => false
  end.

Definition StoneType_eqb (a b : StoneType) : bool :=
  match a, b with
  | empty, empty | blackConduit, blackConduit | whiteConduit, whiteConduit
  | blackKeystone, blackKeystone | whiteKeystone, whiteKeystone => true
  | _, _ => false
  end.

(** [`${player}Conduit`] *)
Definition conduitOf (p : Player) : StoneType :=
  match p with black => blackConduit | white => whiteConduit end.

(** [`${player}Keystone`] *)
Definition keystoneOf (p : Player) : StoneType :=
  match p with black => blackKeystone | white => whiteKeystone end.

(** [`${player}Win`] *)
Definition winOf (p : Player) : GameStatus :=
  match p with black => blackWin | white => whiteWin end.

(** [p === 'black' ? 'white' : 'black'] *)
Definition otherPlayer (p : Player) : Player :=
  match p with black => white | white => black end.

(** [stoneType.includes('black')] *)
Definition includesBlack (t : StoneType) : bool :=
  match t with blackConduit | blackKeystone => true | _ => false end.

(** [stoneType.includes('Keystone')] *)
Definition includesKeystone (t : StoneType) : bool :=
  match t with blackKeystone | whiteKeystone => true | _ => false end.

(** [stoneType.includes('Conduit')] *)
Definition includesConduit (t : StoneType) : bool :=
  match t with blackConduit | whiteConduit => true | _ => false end.

(** ** gameLogic.ts *)

Definition BOARD_SIZE : Z := 17.

Definition emptyCell (r c : Z) : BoardCell :=
  {| position := mkPos r c; stoneType := empty; isHighlighted := false;
     isConvertible := false; isResonating := false; notation := None |}.

Definition createEmptyBoard : Board :=
  map (fun r => map (fun c => emptyCell r c) (range 17)) (range 17).

Definition isValidPosition (p : Position) : bool :=
  (0 <=? row p) && (row p <? BOARD_SIZE) && (0 <=? col p) && (col p <? BOARD_SIZE).

Definition isSamePosition (pos1 pos2 : Position) : bool :=
  (row pos1 =? row pos2) && (col pos1 =? col pos2).

Definition isPositionInArray (p : Position) (ps : list Position) : bool :=
  existsb (fun pos => isSamePosition pos p) ps.

(** [board[row][col]] *)
Definition cellAt (b : Board) (r c : Z) : option BoardCell :=
  line <- arrGet b r ;; arrGet line c.

(** The positions in the order of the double loop
    [for row in 0..16, for col in 0..16]. *)
Definition allPositions : list Position :=
  flat_map (fun r => map (fun c => mkPos r c) (range 17)) (range 17).

(** The body shared by [getEmptyPositions], [getConduitStones] and
    [getKeystoneStones]: collect the positions whose stone is [t]. *)
Definition scanBoard (b : Board) (t : StoneType) : option (list Position) :=
  filterM (fun p => c <- cellAt b (row p) (col p) ;;
                    Some (StoneType_eqb (stoneType c) t)) allPositions.

Definition getEmptyPositions (b : Board) : option (list Position) :=
  scanBoard b empty.

Definition getConduitStones (b : Board) (p : Player) : option (list Position) :=
  scanBoard b (conduitOf p).

Definition getKeystoneStones (b : Board) (p : Player) : option (list Position) :=
  scanBoard b (keystoneOf p).

Definition areAdjacent (pos1 pos2 : Position) : bool :=
  let rowDiff := Z.abs (row pos1 - row pos2) in
  let colDiff := Z.abs (col pos1 - col pos2) in
  ((rowDiff =? 1) && (colDiff =? 0)) || ((rowDiff =? 0) && (colDiff =? 1)).

Definition isLShape (ss : list Position) : bool :=
  match ss with
  | [stone1; stone2; stone3] =>
      let adjacentPairs :=
        [areAdjacent stone1 stone2; areAdjacent stone2 stone3; areAdjacent stone1 stone3] in
      let adjacentCount := length (filter (fun b => b) adjacentPairs) in
      Nat.eqb adjacentCount 2
  | _ => false
  end.

Definition getLShapeType (ss : list Position) : LShapeType := L.

(** The three nested index loops of [detectLShapes].  The indices stay below
    the length of [conduitStones], so the default of [nth] is never read. *)
Definition lShapesOf (conduitStones : list Position) : list LShape :=
  let n := length conduitStones in
  let at_ i := nth i conduitStones (mkPos 0 0) in
  flat_map (fun i =>
    flat_map (fun j =>
      flat_map (fun k =>
        let threeStones := [at_ i; at_ j; at_ k] in
        if isLShape threeStones
        then [{| stones := threeStones; type := getLShapeType threeStones |}]
        else [])
      (seq (j + 1) (n - (j + 1))))
    (seq (i + 1) (n - 1 - (i + 1))))
  (seq 0 (n - 2)).

Definition detectLShapes (b : Board) (p : Player) : option (list LShape) :=
  conduitStones <- getConduitStones b p ;;
  Some (lShapesOf conduitStones).

Definition isValidCore (cells : list BoardCell) (p : Player) : bool :=
  forallb (fun cell => StoneType_eqb (stoneType cell) (conduitOf p)
                       || StoneType_eqb (stoneType cell) (keystoneOf p)) cells.

(** The body that [detectCores] and [detectCoresWithNewStone] both run at an
    anchor [(r, c)]: read the four cells and, when they are a core, build it.
    A cell that is not there is the [TypeError] of [cell.stoneType] in
    [isValidCore]; on a 17 x 17 board every cell of an anchor in range is
    there. *)
Definition coreAtAnchor (b : Board) (p : Player) (r c : Z) : option (option Core) :=
  c1 <- cellAt b r c ;;
  c2 <- cellAt b r (c + 1) ;;
  c3 <- cellAt b (r + 1) c ;;
  c4 <- cellAt b (r + 1) (c + 1) ;;
  let fourCells := [c1; c2; c3; c4] in
  if isValidCore fourCells p
  then Some (Some {| positions := [mkPos r c; mkPos r (c + 1);
                                   mkPos (r + 1) c; mkPos (r + 1) (c + 1)];
                     core_stones := fourCells |})
  else Some None.

(** The anchors in the order of [for row in 0..15, for col in 0..15]. *)
Definition allAnchors : list (Z * Z) :=
  flat_map (fun r => map (fun c => (r, c)) (range 16)) (range 16).

Definition detectCores (b : Board) (p : Player) : option (list Core) :=
  collectM (fun a => coreAtAnchor b p (fst a) (snd a)) allAnchors.

Definition detectCoresWithNewStone (b : Board) (p : Player) (newPosition : Position)
  : option (list Core) :=
  let possibleCores :=
    [ (row newPosition, col newPosition);
      (row newPosition, col newPosition - 1);
      (row newPosition - 1, col newPosition);
      (row newPosition - 1, col newPosition - 1) ] in
  collectM (fun a =>
    let startRow := fst a in
    let startCol := snd a in
    if (0 <=? startRow) && (startRow <? BOARD_SIZE - 1)
       && (0 <=? startCol) && (startCol <? BOARD_SIZE - 1)
    then coreAtAnchor b p startRow startCol
    else Some None) possibleCores.

(** *** Writing a cell: [board[r][c] = f(board[r][c])] *)

Fixpoint updNth {A : Type} (n : nat) (f : A -> A) (l : list A) : list A :=
  match l, n with
  | [], _ => []
  | x :: xs, O => f x :: xs
  | x :: xs, S n' => x :: updNth n' f xs
  end.

Definition updCell (b : Board) (p : Position) (f : BoardCell -> BoardCell) : Board :=
  updNth (Z.to_nat (row p)) (updNth (Z.to_nat (col p)) f) b.

Definition withStone (t : StoneType) (c : BoardCell) : BoardCell :=
  {| position := position c; stoneType := t; isHighlighted := isHighlighted c;
     isConvertible := isConvertible c; isResonating := isResonating c;
     notation := notation c |}.

Definition withNotation (n : option NotationInfo) (c : BoardCell) : BoardCell :=
  {| position := position c; stoneType := stoneType c; isHighlighted := isHighlighted c;
     isConvertible := isConvertible c; isResonating := isResonating c;
     notation := n |}.

(** [board[pos.row][pos.col].stoneType = t]; a [TypeError] when the cell is
    not there. *)
Definition writeStone (b : Board) (p : Position) (t : StoneType) : option Board :=
  _ <- cellAt b (row p) (col p) ;;
  Some (updCell b p (withStone t)).

(** *** Resonance *)

Definition directionVectors (d : Direction) : Position :=
  match d with
  | up => mkPos (-1) 0
  | down => mkPos 1 0
  | left => mkPos 0 (-1)
  | right => mkPos 0 1
  end.

Definition stepFrom (current vector : Position) : Position :=
  mkPos (row current + row vector) (col current + col vector).

(** The loop [for (let i = 0; i < 5; i++)] of [propagateResonance] with [n]
    iterations left; [current] and [path] are its two variables. *)
Fixpoint propagateLoop (n : nat) (b : Board) (vector : Position) (core : Core)
  (owner : Player) (current : Position) (path : list Position)
  : option (list Position) :=
  match n with
  | O => Some path
  | S n' =>
      let current := stepFrom current vector in
      if negb (isValidPosition current) then Some path
      else
        cell <- cellAt b (row current) (col current) ;;
        if negb (isPositionInArray current (positions core)) then
          if StoneType_eqb (stoneType cell) (conduitOf owner)
          then Some (path ++ [current])
          else if negb (StoneType_eqb (stoneType cell) empty)
          then Some path
          else propagateLoop n' b vector core owner current (path ++ [current])
        else propagateLoop n' b vector core owner current path
  end.

Definition propagateResonance (b : Board) (start : Position) (d : Direction)
  (core : Core) (owner : Player) : option (list Position) :=
  propagateLoop 5 b (directionVectors d) core owner start [].

(** The body of [path.forEach] in [activateResonance]. *)
Definition convertOnPath (owner : Player) (b : Board) (pos : Position) : option Board :=
  cell <- cellAt b (row pos) (col pos) ;;
  if StoneType_eqb (stoneType cell) (conduitOf owner)
  then Some (updCell b pos (withStone (keystoneOf owner)))
  else Some b.

(** The owner read off the first stone of the core. *)
Definition corePlayerOf (core : Core) : option Player :=
  stone0 <- arrGet (core_stones core) 0 ;;
  Some (if includesBlack (stoneType stone0) then black else white).

(** One round of [directions.forEach]: the board is the one the earlier
    directions have already converted stones on. *)
Definition resonateDirection (core : Core) (focus : Position) (owner : Player)
  (acc : Board * list (list Position)) (d : Direction)
  : option (Board * list (list Position)) :=
  let '(newBoard, paths) := acc in
  path <- propagateResonance newBoard focus d core owner ;;
  newBoard' <- foldM (convertOnPath owner) path newBoard ;;
  Some (newBoard', paths ++ [path]).

Definition activateResonance (b : Board) (core : Core) (focus : Position)
  : option (Board * list (list Position)) :=
  owner <- corePlayerOf core ;;
  foldM (resonateDirection core focus owner) [up; down; left; right] (b, []).

(** *** The win check *)

Fixpoint concatMapM {A B : Type} (f : A -> option (list B)) (l : list A) : option (list B) :=
  match l with
  | [] => Some []
  | x :: xs =>
      ys <- f x ;;
      rest <- concatMapM f xs ;;
      Some (ys ++ rest)
  end.

(** [getCombinations(array, r)].  The recursion is on [r]; with [r = 0] and a
    non-empty array the source recurses with [r = -1, -2, ...] without end
    (a [RangeError]), which is [None]. *)
Fixpoint getCombinations {T : Type} (array : list T) (r : nat) {struct r}
  : option (list (list T)) :=
  match r with
  | O => match array with [] => Some [[]] | _ :: _ => None end
  | S r' =>
      if Nat.eqb r 1 then Some (map (fun item => [item]) array)
      else if Nat.eqb r (length array) then Some [array]
      else
        concatMapM (fun i =>
          head <- nth_error array i ;;
          tailCombinations <- getCombinations (skipn (i + 1) array) r' ;;
          Some (map (fun combination => head :: combination) tailCombinations))
        (seq 0 (length array + 1 - r))
  end.

(** [Array.prototype.sort] with the comparator [(a, b) => key a - key b]:
    a stable sort, here by insertion. *)
Fixpoint insertBy {A : Type} (key : A -> Z) (x : A) (l : list A) : list A :=
  match l with
  | [] => [x]
  | y :: ys => if key x <=? key y then x :: l else y :: insertBy key x ys
  end.

Definition sortBy {A : Type} (key : A -> Z) (l : list A) : list A :=
  fold_right (insertBy key) [] l.

Fixpoint consecutiveFrom (prev : Z) (l : list Z) : bool :=
  match l with
  | [] => true
  | x :: xs => if x =? prev + 1 then consecutiveFrom x xs else false
  end.

Definition isConsecutive (numbers : list Z) : bool :=
  match sortBy (fun n => n) numbers with
  | [] => true
  | x :: xs => consecutiveFrom x xs
  end.

Definition isHorizontal (ps : list Position) : option bool :=
  p0 <- arrGet ps 0 ;;
  Some (forallb (fun pos => row pos =? row p0) ps && isConsecutive (map col ps)).

Definition isVertical (ps : list Position) : option bool :=
  p0 <- arrGet ps 0 ;;
  Some (forallb (fun pos => col pos =? col p0) ps && isConsecutive (map row ps)).

(** [l.every((x, index) => f x index)] from index [i] on. *)
Fixpoint everyIdx {A : Type} (f : A -> Z -> bool) (i : Z) (l : list A) : bool :=
  match l with
  | [] => true
  | x :: xs => if f x i then everyIdx f (i + 1) xs else false
  end.

(** [isMainDiagonal] and [isAntiDiagonal] sort their argument in place; the
    second component is the argument array after the call. *)
Definition isMainDiagonal (ps : list Position) : bool * list Position :=
  let sorted := sortBy row ps in
  (match sorted with
   | [] => true
   | first :: _ =>
       everyIdx (fun pos index => (row pos =? row first + index)
                                  && (col pos =? col first + index)) 0 sorted
   end, sorted).

Definition isAntiDiagonal (ps : list Position) : bool * list Position :=
  let sorted := sortBy row ps in
  (match sorted with
   | [] => true
   | first :: _ =>
       everyIdx (fun pos index => (row pos =? row first + index)
                                  && (col pos =? col first - index)) 0 sorted
   end, sorted).

Definition isDiagonal (ps : list Position) : bool :=
  let '(main, ps') := isMainDiagonal ps in
  if main then true else fst (isAntiDiagonal ps').

Definition isInLine (ps : list Position) : option bool :=
  h <- isHorizontal ps ;;
  if h then Some true
  else
    v <- isVertical ps ;;
    if v then Some true else Some (isDiagonal ps).

Definition checkWinCondition (b : Board) (p : Player) : option bool :=
  keystonePositions <- getKeystoneStones b p ;;
  if (length keystonePositions <? 5)%nat then Some false
  else
    combinations <- getCombinations keystonePositions 5 ;;
    someM isInLine combinations.

(** ** notationUtils.ts *)

(** The loop of [getResonanceDirection] over [directions[i]], [resonancePaths[i]]. *)
Fixpoint resonanceDirectionFrom (ds : list Direction) (i : nat) (target : Position)
  (paths : list (list Position)) : option Direction :=
  match ds with
  | [] => None
  | d :: ds' =>
      match nth_error paths i with
      | Some path =>
          if existsb (fun pos => (row pos =? row target) && (col pos =? col target)) path
          then Some d
          else resonanceDirectionFrom ds' (S i) target paths
      | None => resonanceDirectionFrom ds' (S i) target paths
      end
  end.

Definition getResonanceDirection (focusPos target : Position)
  (paths : list (list Position)) : option Direction :=
  resonanceDirectionFrom [up; down; left; right] 0 target paths.

Definition createNotation (move : GameMove) (pos : Position) (b : Board)
  : option NotationInfo :=
  match moveType move with
  | place =>
      Some {| n_moveNumber := moveNumber move; notationType := normal;
              direction := None; secondaryNotation := None |}
  | convert =>
      Some {| n_moveNumber := moveNumber move; notationType := conversion;
              direction := None; secondaryNotation := None |}
  | resonate =>
      match resonanceInfo move with
      | Some info =>
          if (row pos =? row (focusPosition info)) && (col pos =? col (focusPosition info))
          then Some {| n_moveNumber := moveNumber move; notationType := focus;
                       direction := None; secondaryNotation := None |}
          else
            match getResonanceDirection (focusPosition info) pos (resonancePaths info) with
            | Some d =>
                Some {| n_moveNumber := moveNumber move; notationType := resonance;
                        direction := Some d; secondaryNotation := None |}
            | None => None
            end
      | None => None
      end
  end.

(** ** gameStore.ts *)

(** *** [updateNotation] *)

Definition pushIfAbsent (acc : list Position) (pos : Position) : list Position :=
  if existsb (fun p => (row p =? row pos) && (col p =? col pos)) acc
  then acc else acc ++ [pos].

Definition affectedPositions (move : GameMove) : list Position :=
  let a1 := [m_position move] in
  let a2 := match lShapeInfo move with
            | Some info => a1 ++ stones (lShape info)
            | None => a1
            end in
  match resonanceInfo move with
  | Some info =>
      fold_left (fun acc path => fold_left pushIfAbsent path acc)
                (resonancePaths info) (a2 ++ [focusPosition info])
  | None => a2
  end.

(** The notation a cell gets when it already carries one and the move is a
    conversion or a resonance: the old one with a secondary notation. *)
Definition withSecondary (old new : NotationInfo) : NotationInfo :=
  {| n_moveNumber := n_moveNumber old;
     notationType := notationType old;
     direction := match direction new with
                  | Some d => Some d
                  | None => direction old
                  end;
     secondaryNotation := Some {| sec_moveNumber := n_moveNumber new;
                                  sec_notationType := notationType new |} |}.

Definition annotateCell (move : GameMove) (newBoard : Board) (pos : Position)
  : option Board :=
  cell <- cellAt newBoard (row pos) (col pos) ;;
  if negb (StoneType_eqb (stoneType cell) empty) then
    match createNotation move pos newBoard with
    | Some n =>
        match notation cell, moveType move with
        | Some old, convert | Some old, resonate =>
            Some (updCell newBoard pos (withNotation (Some (withSecondary old n))))
        | _, _ => Some (updCell newBoard pos (withNotation (Some n)))
        end
    | None => Some newBoard
    end
  else Some newBoard.

Definition updateNotation (move : GameMove) : option Board :=
  foldM (annotateCell move) (affectedPositions move) (currentBoard move).

(** *** Setters: [set({ field: v })] *)

Definition addEvent (ev : GameEvent) (s : GameState) : GameState :=
  {| board := board s; currentPlayer := currentPlayer s; gamePhase := gamePhase s;
     gameStatus := gameStatus s; selectedLShape := selectedLShape s;
     selectedCores := selectedCores s; selectedCore := selectedCore s;
     corePlayer := corePlayer s; hoveredPosition := hoveredPosition s;
     moveHistory := moveHistory s; currentMoveIndex := currentMoveIndex s;
     isNotationMode := isNotationMode s; eventLog := eventLog s ++ [ev];
     isHistoryMode := isHistoryMode s; historyIndex := historyIndex s;
     availableMoves := availableMoves s; convertibleStones := convertibleStones s;
     isAnimating := isAnimating s |}.

Definition setAvailableMoves (v : list Position) (s : GameState) : GameState :=
  {| board := board s; currentPlayer := currentPlayer s; gamePhase := gamePhase s;
     gameStatus := gameStatus s; selectedLShape := selectedLShape s;
     selectedCores := selectedCores s; selectedCore := selectedCore s;
     corePlayer := corePlayer s; hoveredPosition := hoveredPosition s;
     moveHistory := moveHistory s; currentMoveIndex := currentMoveIndex s;
     isNotationMode := isNotationMode s; eventLog := eventLog s;
     isHistoryMode := isHistoryMode s; historyIndex := historyIndex s;
     availableMoves := v; convertibleStones := convertibleStones s;
     isAnimating := isAnimating s |}.

Definition setConvertibleStones (v : list Position) (s : GameState) : GameState :=
  {| board := board s; currentPlayer := currentPlayer s; gamePhase := gamePhase s;
     gameStatus := gameStatus s; selectedLShape := selectedLShape s;
     selectedCores := selectedCores s; selectedCore := selectedCore s;
     corePlayer := corePlayer s; hoveredPosition := hoveredPosition s;
     moveHistory := moveHistory s; currentMoveIndex := currentMoveIndex s;
     isNotationMode := isNotationMode s; eventLog := eventLog s;
     isHistoryMode := isHistoryMode s; historyIndex := historyIndex s;
     availableMoves := availableMoves s; convertibleStones := v;
     isAnimating := isAnimating s |}.

Definition simpleEvent (t : GameEventType) (p : Player) : GameEvent :=
  {| eventType := t; e_player := p; details := None |}.

Definition noDetails : EventDetails :=
  {| d_position := None; d_core := None; d_resonancePaths := None;
     d_convertedStones := None; d_lShape := None |}.

(** *** UI bookkeeping *)

(** [updateAvailableMoves] runs the double loop of [getEmptyPositions]
    itself. *)
Definition updateAvailableMoves (s : GameState) : option GameState :=
  emptyPositions <- scanBoard (board s) empty ;;
  Some (setAvailableMoves emptyPositions s).

Definition updateConvertibleStones (s : GameState) : option GameState :=
  lShapes <- detectLShapes (board s) (currentPlayer s) ;;
  let convertible :=
    fold_left (fun acc l => fold_left pushIfAbsent (stones l) acc) lShapes [] in
  Some (setConvertibleStones convertible s).

(** *** [completeTurn] *)

Definition completeTurn (move : GameMove) (s : GameState) : option GameState :=
  let current := currentPlayer s in
  updatedBoard <- updateNotation move ;;
  hasWon <- checkWinCondition updatedBoard current ;;
  let nextPlayer := otherPlayer current in
  let s1 :=
    {| board := updatedBoard; currentPlayer := nextPlayer; gamePhase := placing;
       gameStatus := if hasWon then winOf current else playing;
       selectedLShape := None; selectedCores := []; selectedCore := None;
       corePlayer := None; hoveredPosition := hoveredPosition s;
       moveHistory := moveHistory s ++ [move];
       currentMoveIndex := currentMoveIndex s + 1;
       isNotationMode := isNotationMode s; eventLog := eventLog s;
       isHistoryMode := isHistoryMode s; historyIndex := historyIndex s;
       availableMoves := availableMoves s; convertibleStones := convertibleStones s;
       isAnimating := isAnimating s |} in
  s2 <- updateAvailableMoves s1 ;;
  s3 <- updateConvertibleStones s2 ;;
  if negb hasWon then Some (addEvent (simpleEvent turn_started nextPlayer) s3)
  else Some s3.

(** *** The initial state of the store *)

Definition initialState : GameState :=
  {| board := createEmptyBoard; currentPlayer := black; gamePhase := placing;
     gameStatus := playing; selectedLShape := None; selectedCores := [];
     selectedCore := None; corePlayer := None; hoveredPosition := None;
     moveHistory := []; currentMoveIndex := 0; isNotationMode := false;
     eventLog := []; isHistoryMode := false; historyIndex := 0;
     availableMoves := []; convertibleStones := []; isAnimating := false |}.

(** *** The actions of the store

    An action is a function from the state before to [Some] state after;
    [None] is an exception that escapes the action (the events an action has
    logged before it throws are then lost from the model). *)

Definition placeStone (pos : Position) (s : GameState) : option GameState :=
  let b := board s in
  let current := currentPlayer s in
  if negb (match gameStatus s with playing => true | _ => false end) || isHistoryMode s
  then Some s
  else
    newBoard <- writeStone b pos (conduitOf current) ;;
    let s1 := addEvent {| eventType := stone_placed; e_player := current;
                          details := Some {| d_position := Some pos; d_core := None;
                                             d_resonancePaths := None;
                                             d_convertedStones := None;
                                             d_lShape := None |} |} s in
    let move := {| moveNumber := currentMoveIndex s1 + 1; player := current;
                   moveType := place; m_position := pos;
                   previousBoard := b; currentBoard := newBoard;
                   resonanceInfo := None; lShapeInfo := None |} in
    cores <- detectCoresWithNewStone newBoard current pos ;;
    match cores with
    | core0 :: _ =>
        let s2 := addEvent {| eventType := core_formed; e_player := current;
                              details := Some {| d_position := None; d_core := Some core0;
                                                 d_resonancePaths := None;
                                                 d_convertedStones := None;
                                                 d_lShape := None |} |} s1 in
        updatedBoard <- updateNotation move ;;
        Some {| board := updatedBoard; currentPlayer := currentPlayer s2;
                gamePhase := resonating; gameStatus := gameStatus s2;
                selectedLShape := selectedLShape s2; selectedCores := cores;
                selectedCore := None; corePlayer := Some current;
                hoveredPosition := hoveredPosition s2;
                moveHistory := moveHistory s2 ++ [move];
                currentMoveIndex := currentMoveIndex s2 + 1;
                isNotationMode := isNotationMode s2; eventLog := eventLog s2;
                isHistoryMode := isHistoryMode s2; historyIndex := historyIndex s2;
                availableMoves := availableMoves s2;
                convertibleStones := convertibleStones s2;
                isAnimating := isAnimating s2 |}
    | [] => completeTurn move s1
    end.

Definition convertLShape (l : LShape) (stoneIndex : Z) (s : GameState)
  : option GameState :=
  let b := board s in
  let current := currentPlayer s in
  if negb (match gameStatus s with playing => true | _ => false end) || isHistoryMode s
  then Some s
  else
    stonePosition <- arrGet (stones l) stoneIndex ;;
    newBoard <- writeStone b stonePosition (keystoneOf current) ;;
    let move := {| moveNumber := currentMoveIndex s + 1; player := current;
                   moveType := convert; m_position := stonePosition;
                   previousBoard := b; currentBoard := newBoard;
                   resonanceInfo := None;
                   lShapeInfo := Some {| lShape := l;
                                         convertedStoneIndex := stoneIndex |} |} in
    completeTurn move s.

Definition selectCore (core : Core) (s : GameState) : option GameState :=
  Some {| board := board s; currentPlayer := currentPlayer s;
          gamePhase := selectingFocus; gameStatus := gameStatus s;
          selectedLShape := selectedLShape s; selectedCores := selectedCores s;
          selectedCore := Some core; corePlayer := corePlayer s;
          hoveredPosition := hoveredPosition s; moveHistory := moveHistory s;
          currentMoveIndex := currentMoveIndex s;
          isNotationMode := isNotationMode s; eventLog := eventLog s;
          isHistoryMode := isHistoryMode s; historyIndex := historyIndex s;
          availableMoves := availableMoves s;
          convertibleStones := convertibleStones s; isAnimating := isAnimating s |}.

(** The stones a resonance turned from conductor into keystone, as
    [selectFocusPosition] collects them along the paths. *)
Definition convertedOnPaths (before after : Board) (paths : list (list Position))
  (acc : list Position) : option (list Position) :=
  foldM (fun acc path =>
    foldM (fun acc pos =>
      cn <- cellAt after (row pos) (col pos) ;;
      if includesKeystone (stoneType cn) then
        co <- cellAt before (row pos) (col pos) ;;
        Some (if includesConduit (stoneType co) then acc ++ [pos] else acc)
      else Some acc) path acc) paths acc.

Definition selectFocusPosition (pos : Position) (s : GameState) : option GameState :=
  match selectedCore s, corePlayer s with
  | Some core, Some owner =>
      let b := board s in
      cell <- cellAt b (row pos) (col pos) ;;
      let playerConduit := conduitOf owner in
      let newBoard :=
        if StoneType_eqb (stoneType cell) playerConduit
        then updCell b pos (withStone (keystoneOf owner)) else b in
      '(newBoard, paths) <- activateResonance newBoard core pos ;;
      let s1 := addEvent {| eventType := resonance_activated; e_player := owner;
                            details := Some {| d_position := Some pos;
                                               d_core := Some core;
                                               d_resonancePaths := Some paths;
                                               d_convertedStones := None;
                                               d_lShape := None |} |} s in
      let converted0 :=
        if StoneType_eqb (stoneType cell) playerConduit then [pos] else [] in
      convertedStones <- convertedOnPaths b newBoard paths converted0 ;;
      let s2 :=
        match convertedStones with
        | _ :: _ =>
            addEvent {| eventType := stone_converted; e_player := owner;
                        details := Some {| d_position := None; d_core := None;
                                           d_resonancePaths := None;
                                           d_convertedStones := Some convertedStones;
                                           d_lShape := None |} |} s1
        | [] => s1
        end in
      let move := {| moveNumber := currentMoveIndex s2 + 1; player := owner;
                     moveType := resonate; m_position := pos;
                     previousBoard := b; currentBoard := newBoard;
                     resonanceInfo := Some {| r_core := core; focusPosition := pos;
                                              resonancePaths := paths |};
                     lShapeInfo := None |} in
      completeTurn move s2
  | _, _ => Some s
  end.

(** The store's own [activateResonance] action (the direct call). *)
Definition activateResonanceAction (core : Core) (focus : Position) (s : GameState)
  : option GameState :=
  let b := board s in
  '(newBoard, paths) <- activateResonance b core focus ;;
  let move := {| moveNumber := currentMoveIndex s + 1; player := currentPlayer s;
                 moveType := resonate; m_position := focus;
                 previousBoard := b; currentBoard := newBoard;
                 resonanceInfo := Some {| r_core := core; focusPosition := focus;
                                          resonancePaths := paths |};
                 lShapeInfo := None |} in
  completeTurn move s.

(** The [set] shared by [undo] and [redo]: show board [b] at cursor [idx]. *)
Definition showHistory (historyMode : bool) (idx : Z) (b : Board) (mover : Player)
  (s : GameState) : GameState :=
  {| board := b; currentPlayer := otherPlayer mover; gamePhase := placing;
     gameStatus := gameStatus s; selectedLShape := None; selectedCores := [];
     selectedCore := None; corePlayer := None;
     hoveredPosition := hoveredPosition s; moveHistory := moveHistory s;
     currentMoveIndex := currentMoveIndex s; isNotationMode := isNotationMode s;
     eventLog := eventLog s; isHistoryMode := historyMode; historyIndex := idx;
     availableMoves := availableMoves s; convertibleStones := convertibleStones s;
     isAnimating := isAnimating s |}.

Definition undo (s : GameState) : option GameState :=
  let idx := historyIndex s in
  let history := moveHistory s in
  if isHistoryMode s then
    if idx >? 0 then
      targetMove <- arrGet history (idx - 1) ;;
      Some (showHistory (isHistoryMode s) (idx - 1) (previousBoard targetMove)
                        (player targetMove) s)
    else Some s
  else
    if Z.of_nat (length history) >? 0 then
      targetMove <- arrGet history (Z.of_nat (length history) - 1) ;;
      Some (showHistory true (Z.of_nat (length history) - 1)
                        (previousBoard targetMove) (player targetMove) s)
    else Some s.

Definition redo (s : GameState) : option GameState :=
  let idx := historyIndex s in
  let history := moveHistory s in
  if isHistoryMode s && (idx <? Z.of_nat (length history) - 1) then
    targetMove <- arrGet history (idx + 1) ;;
    Some (showHistory (isHistoryMode s) (idx + 1) (currentBoard targetMove)
                      (player targetMove) s)
  else Some s.

(** [array.slice(0, e)] *)
Definition slice0 {A : Type} (l : list A) (e : Z) : list A :=
  if e <? 0 then firstn (Z.to_nat (Z.of_nat (length l) + e)) l
  else firstn (Z.to_nat e) l.

Definition confirmUndo (s : GameState) : option GameState :=
  let idx := historyIndex s in
  let history := moveHistory s in
  if isHistoryMode s then
    targetMove <- arrGet history idx ;;
    let newHistory := slice0 history (idx + 1) in
    let nextPlayer := otherPlayer (player targetMove) in
    let s1 :=
      {| board := board s; currentPlayer := nextPlayer; gamePhase := placing;
         gameStatus := playing; selectedLShape := None; selectedCores := [];
         selectedCore := None; corePlayer := None;
         hoveredPosition := hoveredPosition s; moveHistory := newHistory;
         currentMoveIndex := idx; isNotationMode := isNotationMode s;
         eventLog := eventLog s; isHistoryMode := false; historyIndex := 0;
         availableMoves := availableMoves s;
         convertibleStones := convertibleStones s;
         isAnimating := isAnimating s |} in
    s2 <- updateAvailableMoves s1 ;;
    s3 <- updateConvertibleStones s2 ;;
    Some (addEvent (simpleEvent turn_started nextPlayer) s3)
  else Some s.


Definition setHoveredPosition (pos : option Position) (s : GameState)
  : option GameState :=
  Some {| board := board s; currentPlayer := currentPlayer s;
          gamePhase := gamePhase s; gameStatus := gameStatus s;
          selectedLShape := selectedLShape s; selectedCores := selectedCores s;
          selectedCore := selectedCore s; corePlayer := corePlayer s;
          hoveredPosition := pos; moveHistory := moveHistory s;
          currentMoveIndex := currentMoveIndex s;
          isNotationMode := isNotationMode s; eventLog := eventLog s;
          isHistoryMode := isHistoryMode s; historyIndex := historyIndex s;
          availableMoves := availableMoves s;
          convertibleStones := convertibleStones s; isAnimating := isAnimating s |}.

Definition toggleNotationMode (s : GameState) : option GameState :=
  Some {| board := board s; currentPlayer := currentPlayer s;
          gamePhase := gamePhase s; gameStatus := gameStatus s;
          selectedLShape := selectedLShape s; selectedCores := selectedCores s;
          selectedCore := selectedCore s; corePlayer := corePlayer s;
          hoveredPosition := hoveredPosition s; moveHistory := moveHistory s;
          currentMoveIndex := currentMoveIndex s;
          isNotationMode := negb (isNotationMode s); eventLog := eventLog s;
          isHistoryMode := isHistoryMode s; historyIndex := historyIndex s;
          availableMoves := availableMoves s;
          convertibleStones := convertibleStones s; isAnimating := isAnimating s |}.

Definition clearEventLog (s : GameState) : option GameState :=
  Some {| board := board s; currentPlayer := currentPlayer s;
          gamePhase := gamePhase s; gameStatus := gameStatus s;
          selectedLShape := selectedLShape s; selectedCores := selectedCores s;
          selectedCore := selectedCore s; corePlayer := corePlayer s;
          hoveredPosition := hoveredPosition s; moveHistory := moveHistory s;
          currentMoveIndex := currentMoveIndex s;
          isNotationMode := isNotationMode s; eventLog := [];
          isHistoryMode := isHistoryMode s; historyIndex := historyIndex s;
          availableMoves := availableMoves s;
          convertibleStones := convertibleStones s; isAnimating := isAnimating s |}.

(** The [set] of [resetGame] writes the initial value of every field.  The
    callback that [resetGame] hands to [setTimeout] runs later, as the actions
    [updateAvailableMoves], [updateConvertibleStones] and [addEvent]. *)
Definition resetGame (s : GameState) : option GameState :=
  Some initialState.

(** The command surface of the store. *)
Inductive Action :=
| DoPlaceStone (pos : Position)
| DoConvertLShape (l : LShape) (stoneIndex : Z)
| DoSelectCore (core : Core)
| DoSelectFocusPosition (pos : Position)
| DoActivateResonance (core : Core) (focusPos : Position)
| DoSetHoveredPosition (pos : option Position)
| DoToggleNotationMode
| DoUndo
| DoRedo
| DoConfirmUndo
| DoResetGame
| DoUpdateAvailableMoves
| DoUpdateConvertibleStones
| DoAddEvent (ev : GameEvent)
| DoClearEventLog.

Definition perform (a : Action) (s : GameState) : option GameState :=
  match a with
  | DoPlaceStone pos => placeStone pos s
  | DoConvertLShape l i => convertLShape l i s
  | DoSelectCore core => selectCore core s
  | DoSelectFocusPosition pos => selectFocusPosition pos s
  | DoActivateResonance core focusPos => activateResonanceAction core focusPos s
  | DoSetHoveredPosition pos => setHoveredPosition pos s
  | DoToggleNotationMode => toggleNotationMode s
  | DoUndo => undo s
  | DoRedo => redo s
  | DoConfirmUndo => confirmUndo s
  | DoResetGame => resetGame s
  | DoUpdateAvailableMoves => updateAvailableMoves s
  | DoUpdateConvertibleStones => updateConvertibleStones s
  | DoAddEvent ev => Some (addEvent ev s)
  | DoClearEventLog => clearEventLog s
  end.

(** ** components/GameBoard/BoardCell.tsx: the click on a cell

    [GameBoard] renders one [BoardCell] for every [board[rowIndex][colIndex]],
    with [cell] the cell and [position] its indices; the handlers read the
    store as it is when the cell is clicked. *)

Definition GamePhase_eqb (a b : GamePhase) : bool :=
  match a, b with
  | placing, placing | converting, converting | resonating, resonating
  | selectingFocus, selectingFocus => true
  | _, _ => false
  end.

(** [positions.some(pos => pos.row === position.row && pos.col === position.col)] *)
Definition somePosition (pos : Position) (ps : list Position) : bool :=
  existsb (fun p => (row p =? row pos) && (col p =? col pos)) ps.

Definition isAvailable (pos : Position) (s : GameState) : bool :=
  somePosition pos (availableMoves s).

Definition handleClick (cell : BoardCell) (pos : Position) (s : GameState)
  : option GameState :=
  if GamePhase_eqb (gamePhase s) placing
     && StoneType_eqb (stoneType cell) empty && isAvailable pos s
  then placeStone pos s
  else if GamePhase_eqb (gamePhase s) resonating
          && negb (StoneType_eqb (stoneType cell) empty)
  then
    match find (fun core => somePosition pos (positions core)) (selectedCores s) with
    | Some core => selectCore core s
    | None => Some s
    end
  else if GamePhase_eqb (gamePhase s) selectingFocus
          && negb (StoneType_eqb (stoneType cell) empty)
  then
    match selectedCore s with
    | Some core =>
        if somePosition pos (positions core) then selectFocusPosition pos s
        else Some s
    | None => Some s
    end
  else Some s.

Definition handleHover (cell : BoardCell) (pos : Position) (s : GameState)
  : option GameState :=
  if GamePhase_eqb (gamePhase s) placing
     && StoneType_eqb (stoneType cell) empty && isAvailable pos s
  then setHoveredPosition (Some pos) s
  else Some s.

Definition handleLeave (s : GameState) : option GameState :=
  setHoveredPosition None s.

(** ** components/UI/UndoPanel.tsx: the buttons of the history

    The undo button is [disabled={!canUndo}] and the redo button
    [disabled={!canRedo}]; the keyboard shortcuts of [useKeyboard] call
    [undo] and [redo] whatever these say. *)

Definition canUndo (s : GameState) : bool :=
  (Z.of_nat (length (moveHistory s)) >? 0) && (currentMoveIndex s >? 0).

Definition canRedo (s : GameState) : bool :=
  (Z.of_nat (length (moveHistory s)) >? 0)
  && (currentMoveIndex s <? Z.of_nat (length (moveHistory s))).
(** * Vocabulary of the properties *)

Definition wfBoardb (b : Board) : bool :=
  Nat.eqb (length b) 17 && forallb (fun line => Nat.eqb (length line) 17) b.

(** A board is well formed when it is a 17 x 17 grid, as [createEmptyBoard]
    builds it. *)
Definition wfBoard (b : Board) : Prop := wfBoardb b = true.

(** The stone at a position, when the position is on the board. *)
Definition stoneAt (b : Board) (p : Position) : option StoneType :=
  option_map stoneType (cellAt b (row p) (col p)).

(** The stone at a position, [empty] off the board. *)
Definition stoneOr (b : Board) (p : Position) : StoneType :=
  match cellAt b (row p) (col p) with
  | Some c => stoneType c
  | None => empty
  end.

(** The cursor of history mode points at a recorded move.  [undo] switches
    history mode on only with the cursor on the last move, [undo] and [redo]
    keep the cursor inside the history, and the history shrinks only in
    [confirmUndo], which leaves history mode. *)
Definition cursorInHistory (s : GameState) : Prop :=
  isHistoryMode s = true ->
  0 <= historyIndex s < Z.of_nat (length (moveHistory s)).

(** Two boards that carry the same stones (they may differ in notations). *)
Definition sameStones (b b' : Board) : Prop :=
  forall q, stoneAt b' q = stoneAt b q.

(** A move that [completeTurn] can record: its board after is a 17 x 17 grid
    and every position it names is on the board. *)
Definition wfMove (m : GameMove) : Prop :=
  wfBoard (currentBoard m)
  /\ Forall (fun p => isValidPosition p = true) (affectedPositions m).

(** The cell [k] steps from [start] in direction [d]. *)
Definition rayCell (start : Position) (d : Direction) (k : Z) : Position :=
  mkPos (row start + k * row (directionVectors d))
        (col start + k * col (directionVectors d)).

(** [q] lies on the ray that leaves [start] in direction [d]. *)
Definition onRay (start : Position) (d : Direction) (q : Position) : Prop :=
  exists k, 1 <= k <= 5 /\ q = rayCell start d k.

(** A stone of the opponent of [owner]. *)
Definition opponentStone (owner : Player) (t : StoneType) : Prop :=
  t = conduitOf (otherPlayer owner) \/ t = keystoneOf (otherPlayer owner).

(** The index of a direction in [up, down, left, right]. *)
Definition directionIndex (d : Direction) : nat :=
  match d with up => 0 | down => 1 | left => 2 | right => 3 end.

(** The ray from [focus] in direction [d0] is blocked at its first cell: the
    cell is on the board, outside the core, and holds a stone that is not a
    conductor of [owner]. *)
Definition blockedAt (b : Board) (core : Core) (owner : Player)
  (focus : Position) (d0 : Direction) : Prop :=
  let next := stepFrom focus (directionVectors d0) in
  isValidPosition next = true
  /\ ~ In next (positions core)
  /\ exists cell, cellAt b (row next) (col next) = Some cell
                  /\ stoneType cell <> conduitOf owner
                  /\ stoneType cell <> empty.

(** [core] is one of the cores that [detectCores] finds for [owner] on [b]. *)
Definition detectedCore (b : Board) (owner : Player) (core : Core) : Prop :=
  exists cores, detectCores b owner = Some cores /\ In core cores.

(** [core] is a valid core of [owner] on [b]: the owner read off its first
    stone is [owner] and the board holds a stone of [owner] on each of its
    positions.  Every core that [detectCores] returns on [b] is one
    ([detectedCore_valid]); so is the selected core of the store while the
    focal stone is awaited, whose [core_stones] were read before the
    notation of the closing stone was written. *)
Definition validCoreOn (b : Board) (owner : Player) (core : Core) : Prop :=
  corePlayerOf core = Some owner
  /\ forall q, In q (positions core) ->
       exists cell, cellAt b (row q) (col q) = Some cell
                    /\ (stoneType cell = conduitOf owner
                        \/ stoneType cell = keystoneOf owner).

(** [validCoreOn] as a test. *)
Definition validCoreOnb (b : Board) (owner : Player) (core : Core) : bool :=
  match corePlayerOf core with
  | Some p => Player_eqb p owner
  | None => false
  end
  && forallb (fun q =>
       match cellAt b (row q) (col q) with
       | Some cell => StoneType_eqb (stoneType cell) (conduitOf owner)
                      || StoneType_eqb (stoneType cell) (keystoneOf owner)
       | None => false
       end) (positions core).

(** The order in which the scans of the board visit the positions: row by
    row, and within a row by column. *)
Definition scanBefore (p q : Position) : Prop :=
  row p < row q \/ (row p = row q /\ col p < col q).

Definition scanBeforeb (p q : Position) : bool :=
  (row p <? row q) || ((row p =? row q) && (col p <? col q)).

Fixpoint scanSortedb (l : list Position) : bool :=
  match l with
  | [] => true
  | x :: xs => forallb (scanBeforeb x) xs && scanSortedb xs
  end.

Definition manhattan (p q : Position) : Z :=
  Z.abs (row p - row q) + Z.abs (col p - col q).

(** [p] is on the board and holds a conductor of [owner]. *)
Definition ownConductor (b : Board) (owner : Player) (p : Position) : Prop :=
  isValidPosition p = true /\ stoneAt b p = Some (conduitOf owner).

(** Exactly two of three propositions hold. *)
Definition exactlyTwo (A B C : Prop) : Prop :=
  (A /\ B /\ ~ C) \/ (A /\ ~ B /\ C) \/ (~ A /\ B /\ C).

(** [sortedBy R l]: every element is [R]-before all the later ones. *)
Inductive sortedBy {A : Type} (R : A -> A -> Prop) : list A -> Prop :=
| sortedBy_nil : sortedBy R []
| sortedBy_cons (x : A) (xs : list A) :
    Forall (R x) xs -> sortedBy R xs -> sortedBy R (x :: xs).

(** The states the store can be in: the state it is created with and every
    state an action returns from one of them. *)
Inductive reachable : GameState -> Prop :=
| reachable_initial : reachable initialState
| reachable_step (a : Action) (s s' : GameState) :
    reachable s -> perform a s = Some s' -> reachable s'.

(** The boards a state holds (the current one and the snapshots of the
    recorded moves) are 17 x 17 grids. *)
Definition boardsOk (s : GameState) : Prop :=
  wfBoard (board s)
  /\ Forall (fun m => wfBoard (previousBoard m) /\ wfBoard (currentBoard m))
            (moveHistory s).

(** [subseq c l]: [c] is [l] with some elements left out. *)
Inductive subseq {A : Type} : list A -> list A -> Prop :=
| subseq_nil (l : list A) : subseq [] l
| subseq_take (x : A) (c l : list A) : subseq c l -> subseq (x :: c) (x :: l)
| subseq_skip (x : A) (c l : list A) : subseq c l -> subseq c (x :: l).

(** The five cells from [start] in steps of [(dr, dc)]. *)
Definition lineOfFive (start : Position) (dr dc : Z) : list Position :=
  map (fun k => mkPos (row start + k * dr) (col start + k * dc)) [0; 1; 2; 3; 4].

(** The four orientations of a line: along a row, along a column, and the
    two diagonals. *)
Definition lineDirection (dr dc : Z) : Prop :=
  (dr = 0 /\ dc = 1) \/ (dr = 1 /\ dc = 0) \/ (dr = 1 /\ dc = 1) \/ (dr = 1 /\ dc = -1).

(** [q] is on the board and holds a keystone of [p]. *)
Definition ownKeystone (b : Board) (p : Player) (q : Position) : Prop :=
  isValidPosition q = true /\ stoneAt b q = Some (keystoneOf p).

(** Five keystones of [p] on consecutive cells of one line (the run they are
    part of may be longer). *)
Definition fiveInLine (b : Board) (p : Player) : Prop :=
  exists start dr dc,
    lineDirection dr dc /\ Forall (ownKeystone b p) (lineOfFive start dr dc).

(** Decide the comparisons of the goal by arithmetic. *)
Ltac decide_comparisons :=
  repeat match goal with
         | |- context [?a <=? ?b] =>
             first [ replace (a <=? b) with true by (symmetry; apply Z.leb_le; lia)
                   | replace (a <=? b) with false by (symmetry; apply Z.leb_gt; lia) ]
         | |- context [?a =? ?b] =>
             first [ replace (a =? b) with true by (symmetry; apply Z.eqb_eq; lia)
                   | replace (a =? b) with false by (symmetry; apply Z.eqb_neq; lia) ]
         end.

Ltac prove_ascending :=
  repeat first [ apply sortedBy_nil | apply sortedBy_cons
               | apply Forall_nil | apply Forall_cons ];
  cbn [row col]; lia.


(** The four cells of the square anchored at [(r, c)], in the order of
    [Core.positions]. *)
Definition squareAt (r c : Z) : list Position :=
  [mkPos r c; mkPos r (c + 1); mkPos (r + 1) c; mkPos (r + 1) (c + 1)].

(** [q] is on the board and holds a stone of [owner], conductor or keystone. *)
Definition ownStone (b : Board) (owner : Player) (q : Position) : Prop :=
  isValidPosition q = true
  /\ (stoneAt b q = Some (conduitOf owner) \/ stoneAt b q = Some (keystoneOf owner)).

(** Two positions side by side, in a row or in a column. *)
Definition adjacent (p q : Position) : Prop := manhattan p q = 1.

(** A cell that a resonance of [owner] has promoted: it held a conductor of
    [owner] and holds the same cell with the keystone of [owner]. *)
Definition promotedCell (owner : Player) (before after : option BoardCell) : Prop :=
  exists cell,
    before = Some cell
    /\ stoneType cell = conduitOf owner
    /\ after = Some (withStone (keystoneOf owner) cell).

(** The cells of a path are empty on the board, but for the last one, which
    may hold a conductor of [owner]. *)
Definition pathStones (b : Board) (owner : Player) (path : list Position) : Prop :=
  forall i q,
    nth_error path i = Some q ->
    stoneAt b q = Some empty
    \/ (stoneAt b q = Some (conduitOf owner) /\ S i = length path).

(** The state that [completeTurn] returns for [move]: [ub] is the board with
    the notation of the move, [hasWon] the outcome of the win check, [v1] and
    [v2] the lists that [updateAvailableMoves] and [updateConvertibleStones]
    have computed. *)
Definition turnState (move : GameMove) (ub : Board) (hasWon : bool)
  (v1 v2 : list Position) (s : GameState) : GameState :=
  let s3 :=
    setConvertibleStones v2 (setAvailableMoves v1
      {| board := ub; currentPlayer := otherPlayer (currentPlayer s);
         gamePhase := placing;
         gameStatus := if hasWon then winOf (currentPlayer s) else playing;
         selectedLShape := None; selectedCores := []; selectedCore := None;
         corePlayer := None; hoveredPosition := hoveredPosition s;
         moveHistory := moveHistory s ++ [move];
         currentMoveIndex := currentMoveIndex s + 1;
         isNotationMode := isNotationMode s; eventLog := eventLog s;
         isHistoryMode := isHistoryMode s; historyIndex := historyIndex s;
         availableMoves := availableMoves s;
         convertibleStones := convertibleStones s;
         isAnimating := isAnimating s |}) in
  if hasWon then s3
  else addEvent (simpleEvent turn_started (otherPlayer (currentPlayer s))) s3.

(** The selection of the store agrees with its phase: the phases and states
    that are never entered, what is selected in each phase, and whose core
    it is. *)
Definition selectionCoherent (s : GameState) : Prop :=
  gamePhase s <> converting
  /\ gameStatus s <> draw
  /\ selectedLShape s = None
  /\ isAnimating s = false
  /\ (gamePhase s = placing ->
        selectedCores s = [] /\ selectedCore s = None /\ corePlayer s = None)
  /\ (gamePhase s = resonating ->
        selectedCores s <> [] /\ selectedCore s = None
        /\ corePlayer s = Some (currentPlayer s)
        /\ Forall (validCoreOn (board s) (currentPlayer s)) (selectedCores s))
  /\ (gamePhase s = selectingFocus <-> selectedCore s <> None)
  /\ (forall p, corePlayer s = Some p -> p = currentPlayer s).

(** The turn counter is the number of recorded moves, or one less (after
    [confirmUndo], which keeps the move under the cursor and sets the
    counter to the cursor). *)
Definition movesCounted (s : GameState) : Prop :=
  Z.of_nat (length (moveHistory s)) - 1 <= currentMoveIndex s
  <= Z.of_nat (length (moveHistory s)).

(** The arguments of an action are usable in state [s]: the positions it
    names are on the board, the stone index of a conversion is one of the
    L-shape, and a core it resonates has a first stone (the owner of a core
    is read off it). *)
Definition validAction (s : GameState) (a : Action) : Prop :=
  match a with
  | DoPlaceStone pos => isValidPosition pos = true
  | DoConvertLShape l i =>
      (exists p, arrGet (stones l) i = Some p)
      /\ Forall (fun p => isValidPosition p = true) (stones l)
  | DoSelectFocusPosition pos =>
      isValidPosition pos = true
      /\ forall core, selectedCore s = Some core -> core_stones core <> []
  | DoActivateResonance core focusPos =>
      isValidPosition focusPos = true /\ core_stones core <> []
  | _ => True
  end.

(** Tactics for the case analysis of the actions. *)
Ltac status_gate H G :=
  match type of H with
  | (if ?c then _ else _) = Some _ => destruct c eqn:G
  end.

Ltac placing_coherent :=
  unfold selectionCoherent, turnState;
  repeat match goal with |- context [if ?w then _ else _] => destruct w end;
  cbn; repeat split; intros; try discriminate; try reflexivity; try congruence;
  try (destruct (currentPlayer _); discriminate).

(** The ray from [focal] in direction [d] is open up to its [k]-th cell,
    which holds a conductor of [owner] outside the core: the cells before it
    are on the board and are empty or cells of the core. *)
Definition rayOpen (b : Board) (core : Core) (owner : Player) (focal : Position)
  (d : Direction) (k : Z) : Prop :=
  1 <= k <= 5
  /\ (forall j, 1 <= j < k ->
        isValidPosition (rayCell focal d j) = true
        /\ (In (rayCell focal d j) (positions core)
            \/ stoneAt b (rayCell focal d j) = Some empty))
  /\ isValidPosition (rayCell focal d k) = true
  /\ ~ In (rayCell focal d k) (positions core)
  /\ stoneAt b (rayCell focal d k) = Some (conduitOf owner).

(** The notation of a stone that move number [k] has marked as converted:
    the notation [old] it had, with the conversion as secondary notation. *)
Definition conversionMark (old : NotationInfo) (k : Z) : NotationInfo :=
  {| n_moveNumber := n_moveNumber old;
     notationType := notationType old;
     direction := direction old;
     secondaryNotation := Some {| sec_moveNumber := k;
                                  sec_notationType := conversion |} |}.

(** The list that [updateConvertibleStones] builds from the L-shapes. *)
Definition convertibleOf (ls : list LShape) : list Position :=
  fold_left (fun acc l => fold_left pushIfAbsent (stones l) acc) ls [].

(** The two lists the board component reads are those of the board: the
    available moves are its empty cells and the convertible stones are the
    stones of the L-shapes of the player to move. *)
Definition listsOfBoard (s : GameState) : Prop :=
  getEmptyPositions (board s) = Some (availableMoves s)
  /\ exists ls,
       detectLShapes (board s) (currentPlayer s) = Some ls
       /\ convertibleStones s = convertibleOf ls.

(** Outside history mode, in the phase [placing], each of the two lists is
    either still empty (not computed yet, as in a new game before the first
    update) or the one of the board. *)
Definition listsInSync (s : GameState) : Prop :=
  isHistoryMode s = false -> gamePhase s = placing ->
  (availableMoves s = [] \/ getEmptyPositions (board s) = Some (availableMoves s))
  /\ (convertibleStones s = []
      \/ exists ls,
           detectLShapes (board s) (currentPlayer s) = Some ls
           /\ convertibleStones s = convertibleOf ls).
(** * Sample boards and states *)

(** A board with the stones [t] at the positions [ps] added. *)
Definition withStones (t : StoneType) (ps : list Position) (b : Board) : Board :=
  fold_left (fun acc p => updCell acc p (withStone t)) ps b.

(** Black conductors on the square (3,3)-(4,4) and at (4,6), a white
    conductor at (2,3), right above the corner (3,3). *)
Definition squareBoard : Board :=
  withStones blackConduit [mkPos 3 3; mkPos 3 4; mkPos 4 3; mkPos 4 4; mkPos 4 6]
    (withStones whiteConduit [mkPos 2 3] createEmptyBoard).

(** The core on the square of [squareBoard]. *)
Definition squareCore : Core :=
  {| positions := [mkPos 3 3; mkPos 3 4; mkPos 4 3; mkPos 4 4];
     core_stones :=
       map (fun p => withStone blackConduit (emptyCell (row p) (col p)))
           [mkPos 3 3; mkPos 3 4; mkPos 4 3; mkPos 4 4] |}.

(** Run a list of actions, one after the other. *)
Definition runActions (acts : list (GameState -> option GameState)) (s : GameState)
  : option GameState :=
  foldM (fun s act => act s) acts s.

Definition stateOr (s : GameState) (r : option GameState) : GameState :=
  match r with Some s' => s' | None => s end.

(** Three stones placed, then [undo] twice: history mode with the cursor on
    the second of three moves. *)
Definition browsingState : GameState :=
  stateOr initialState
    (runActions [placeStone (mkPos 8 8); placeStone (mkPos 8 9);
                 placeStone (mkPos 7 8); undo; undo] initialState).

(** Black has just closed the square (3,3)-(4,4): the store waits for the
    choice of a core. *)
Definition resonatingState : GameState :=
  stateOr initialState
    (runActions [placeStone (mkPos 3 3); placeStone (mkPos 10 10);
                 placeStone (mkPos 3 4); placeStone (mkPos 10 11);
                 placeStone (mkPos 4 3); placeStone (mkPos 12 12);
                 placeStone (mkPos 4 4)] initialState).

(** The same with the core chosen: the store waits for the focal stone. *)
Definition focusState : GameState :=
  stateOr resonatingState
    (match selectedCores resonatingState with
     | core :: _ => selectCore core resonatingState
     | [] => None
     end).

(** Black to move; row 3 holds black keystones at columns 1 and 4 and black
    conductors at columns 2, 3 and 5; black conductors at (4,3): the stone at
    (4,4) closes the square (3,3)-(4,4). *)
Definition beforeSquareState : GameState :=
  {| board := withStones blackKeystone [mkPos 3 1; mkPos 3 4]
                (withStones blackConduit [mkPos 3 2; mkPos 3 3; mkPos 3 5; mkPos 4 3]
                   (withStones whiteConduit
                      [mkPos 10 10; mkPos 10 11; mkPos 10 12; mkPos 12 10;
                       mkPos 12 11; mkPos 12 12; mkPos 14 10]
                      createEmptyBoard));
     currentPlayer := black; gamePhase := placing;
     gameStatus := playing; selectedLShape := None; selectedCores := [];
     selectedCore := None; corePlayer := None; hoveredPosition := None;
     moveHistory := []; currentMoveIndex := 0; isNotationMode := false;
     eventLog := []; isHistoryMode := false; historyIndex := 0;
     availableMoves := []; convertibleStones := []; isAnimating := false |}.

(** Black has closed that square and chosen the core: the store waits for
    the focal stone, and the focal stone (3,3) completes the row 1..5. *)
Definition winningFocusState : GameState :=
  stateOr beforeSquareState
    (s1 <- placeStone (mkPos 4 4) beforeSquareState ;;
     match selectedCores s1 with
     | core :: _ => selectCore core s1
     | [] => None
     end).

(** Black keystones on (0,0)..(0,3) and a bent triple of black conductors
    (0,4), (1,4), (1,5); black to move. *)
Definition conversionBoard : Board :=
  withStones blackKeystone [mkPos 0 0; mkPos 0 1; mkPos 0 2; mkPos 0 3]
    (withStones blackConduit [mkPos 0 4; mkPos 1 4; mkPos 1 5]
       (withStones whiteConduit
          [mkPos 10 10; mkPos 10 12; mkPos 12 10; mkPos 12 12;
           mkPos 14 10; mkPos 14 12; mkPos 16 10]
          createEmptyBoard)).

Definition conversionState : GameState :=
  {| board := conversionBoard;
     currentPlayer := black; gamePhase := placing;
     gameStatus := playing; selectedLShape := None; selectedCores := [];
     selectedCore := None; corePlayer := None; hoveredPosition := None;
     moveHistory := []; currentMoveIndex := 0; isNotationMode := false;
     eventLog := []; isHistoryMode := false; historyIndex := 0;
     availableMoves := []; convertibleStones := []; isAnimating := false |}.

Definition bentTriple : LShape :=
  {| stones := [mkPos 0 4; mkPos 1 4; mkPos 1 5]; type := L |}.

(** The move that [convertLShape bentTriple 0] hands to [completeTurn] in
    [conversionState]: the conductor (0,4) becomes the fifth keystone of
    row 0. *)
Definition winningMove : GameMove :=
  {| moveNumber := 1; player := black; moveType := convert;
     m_position := mkPos 0 4;
     previousBoard := conversionBoard;
     currentBoard := updCell conversionBoard (mkPos 0 4) (withStone blackKeystone);
     resonanceInfo := None;
     lShapeInfo := Some {| lShape := bentTriple; convertedStoneIndex := 0 |} |}.

(** The core that the store holds in [focusState]. *)
Definition focusCore : Core :=
  match selectedCore focusState with
  | Some core => core
  | None => squareCore
  end.

(** Six black keystones side by side on row 0, columns 0 to 5, and nothing
    else of black. *)
Definition sixRunBoard : Board :=
  withStones blackKeystone (map (fun c => mkPos 0 c) (range 6)) createEmptyBoard.


(** [squareBoard] with the notation of a first move on the stone (3,3). *)
Definition annotatedSquareBoard : Board :=
  updCell squareBoard (mkPos 3 3)
    (withNotation (Some {| n_moveNumber := 1; notationType := normal;
                           direction := None; secondaryNotation := None |})).

(** The resonance of [squareCore] on [squareBoard] with the focal stone
    (4,4), and the move that records it. *)
Definition squareResonance : Board * list (list Position) :=
  match activateResonance squareBoard squareCore (mkPos 4 4) with
  | Some r => r
  | None => (squareBoard, [])
  end.

Definition squareResonanceMove : GameMove :=
  {| moveNumber := 8; player := black; moveType := resonate;
     m_position := mkPos 4 4;
     previousBoard := squareBoard; currentBoard := fst squareResonance;
     resonanceInfo := Some {| r_core := squareCore; focusPosition := mkPos 4 4;
                              resonancePaths := snd squareResonance |};
     lShapeInfo := None |}.

(** The actions that lead the store to [resonatingState]. *)
Definition squareActions : list Action :=
  [DoPlaceStone (mkPos 3 3); DoPlaceStone (mkPos 10 10);
   DoPlaceStone (mkPos 3 4); DoPlaceStone (mkPos 10 11);
   DoPlaceStone (mkPos 4 3); DoPlaceStone (mkPos 12 12);
   DoPlaceStone (mkPos 4 4)].

(** The store after the first stone of a game, black on (8,8). *)
Definition firstStoneState : GameState :=
  stateOr initialState (placeStone (mkPos 8 8) initialState).

(** The move recorded in [firstStoneState]. *)
Definition firstMove : GameMove :=
  match moveHistory firstStoneState with
  | m :: _ => m
  | [] => winningMove
  end.

(** The move under the cursor of [browsingState]. *)
Definition browsedMove : GameMove :=
  match arrGet (moveHistory browsingState) (historyIndex browsingState) with
  | Some m => m
  | None => winningMove
  end.

(** The store of a new game once the callback of [resetGame] has listed the
    available moves. *)
Definition readyState : GameState :=
  stateOr initialState (updateAvailableMoves initialState).

(** Three positions that are no L-shape and hold no conductor of black: a
    conductor of white, an empty cell and a keystone of black. *)
Definition strayTriple : LShape :=
  {| stones := [mkPos 10 10; mkPos 5 5; mkPos 0 0]; type := L |}.

(** The actions that lead the store to [browsingState]. *)
Definition browsingActions : list Action :=
  [DoPlaceStone (mkPos 8 8); DoPlaceStone (mkPos 8 9); DoPlaceStone (mkPos 7 8);
   DoUndo; DoUndo].

(** Black has placed the bent triple (0,4), (1,4), (1,5), white three
    stones apart from each other; black to move. *)
Definition tripleState : GameState :=
  stateOr initialState
    (runActions [placeStone (mkPos 0 4); placeStone (mkPos 10 10);
                 placeStone (mkPos 1 4); placeStone (mkPos 10 12);
                 placeStone (mkPos 1 5); placeStone (mkPos 12 10)] initialState).

(** The move that [convertLShape bentTriple 0] records in [tripleState]. *)
Definition tripleConversion : GameMove :=
  {| moveNumber := currentMoveIndex tripleState + 1; player := black;
     moveType := convert; m_position := mkPos 0 4;
     previousBoard := board tripleState;
     currentBoard := updCell (board tripleState) (mkPos 0 4) (withStone blackKeystone);
     resonanceInfo := None;
     lShapeInfo := Some {| lShape := bentTriple; convertedStoneIndex := 0 |} |}.
(** * Properties *)

(** ** The loop combinators *)

Lemma bind_Some {A B : Type} (m : option A) (k : A -> option B) (b : B) :
  bind m k = Some b <-> exists a, m = Some a /\ k a = Some b.
Proof.
  destruct m as [a|]; simpl; split.
  - intros H; exists a; auto.
  - intros (a' & E & H); inversion E; subst; auto.
  - discriminate.
  - intros (a' & E & _); discriminate.
Qed.

Lemma filterM_total {A : Type} (f : A -> option bool) (g : A -> bool) (l : list A) :
  (forall x, In x l -> f x = Some (g x)) ->
  filterM f l = Some (filter g l).
Proof.
  induction l as [|x xs IH]; intros H; simpl.
  - reflexivity.
  - rewrite (H x (or_introl eq_refl)); simpl.
    rewrite IH by (intros y Hy; apply H; right; exact Hy); simpl.
    destruct (g x); reflexivity.
Qed.

Lemma collectM_total {A B : Type} (f : A -> option (option B)) (l : list A) :
  (forall x, In x l -> exists r, f x = Some r) ->
  exists ys, collectM f l = Some ys
             /\ forall y, In y ys <-> exists x, In x l /\ f x = Some (Some y).
Proof.
  induction l as [|x xs IH]; intros H; simpl.
  - exists []; split; [reflexivity|].
    intros y; split; [intros []|intros (x & [] & _)].
  - destruct (H x (or_introl eq_refl)) as (r & Hr).
    destruct IH as (ys & Hys & Hin); [intros z Hz; apply H; right; exact Hz|].
    rewrite Hr, Hys; simpl.
    destruct r as [y0|]; eexists; (split; [reflexivity|]); intros y; split.
    + intros [<-|Hy]; [exists x; auto|].
      apply Hin in Hy; destruct Hy as (z & Hz & Ez); exists z; auto.
    + intros (z & [<-|Hz] & Ez).
      * rewrite Hr in Ez; inversion Ez; left; reflexivity.
      * right; apply Hin; exists z; auto.
    + intros Hy; apply Hin in Hy; destruct Hy as (z & Hz & Ez); exists z; auto.
    + intros (z & [<-|Hz] & Ez).
      * rewrite Hr in Ez; discriminate.
      * apply Hin; exists z; auto.
Qed.

Lemma concatMapM_total {A B : Type} (P : B -> Prop) (f : A -> option (list B))
  (l : list A) :
  (forall x, In x l -> exists ys, f x = Some ys /\ Forall P ys) ->
  exists zs, concatMapM f l = Some zs /\ Forall P zs.
Proof.
  induction l as [|x xs IH]; intros H; simpl.
  - exists []; auto.
  - destruct (H x (or_introl eq_refl)) as (ys & Hys & Pys).
    destruct IH as (zs & Hzs & Pzs); [intros z Hz; apply H; right; exact Hz|].
    rewrite Hys, Hzs; simpl; eexists; split; [reflexivity|].
    apply Forall_app; auto.
Qed.

Lemma someM_total {A : Type} (f : A -> option bool) (l : list A) :
  Forall (fun x => exists b, f x = Some b) l ->
  exists b, someM f l = Some b.
Proof.
  induction 1 as [|x xs (b & Hb) _ IH]; simpl.
  - eexists; reflexivity.
  - rewrite Hb; simpl; destruct b; [eexists; reflexivity|exact IH].
Qed.

(** [foldM] keeps an invariant that every step keeps. *)
Lemma foldM_invariant {A S : Type} (Inv : S -> Prop) (Q : A -> Prop)
  (f : S -> A -> option S) (l : list A) :
  (forall s x, Inv s -> Q x -> exists s', f s x = Some s' /\ Inv s') ->
  Forall Q l ->
  forall s, Inv s -> exists s', foldM f l s = Some s' /\ Inv s'.
Proof.
  intros Hstep HQ; induction HQ as [|x xs Hx _ IH]; intros s Hs; simpl.
  - exists s; auto.
  - destruct (Hstep s x Hs Hx) as (s1 & E1 & I1); rewrite E1; simpl; auto.
Qed.

Lemma In_range (n : nat) (z : Z) : In z (range n) <-> 0 <= z < Z.of_nat n.
Proof.
  unfold range; rewrite in_map_iff; split.
  - intros (k & <- & Hk); apply in_seq in Hk; lia.
  - intros H; exists (Z.to_nat z); split; [lia|apply in_seq; lia].
Qed.

Lemma In_allPositions (p : Position) :
  In p allPositions <-> isValidPosition p = true.
Proof.
  unfold allPositions, isValidPosition, BOARD_SIZE; rewrite in_flat_map; split.
  - intros (r & Hr & Hp); apply in_map_iff in Hp; destruct Hp as (c & <- & Hc).
    apply In_range in Hr, Hc; cbn [row col].
    repeat (apply andb_true_iff; split); lia.
  - intros H; repeat (apply andb_true_iff in H; destruct H as [H ?]).
    destruct p as [r c]; cbn [row col] in *; exists r; split.
    + apply In_range; lia.
    + apply in_map_iff; exists c; split; [reflexivity|apply In_range; lia].
Qed.

Lemma In_allAnchors (r c : Z) :
  In (r, c) allAnchors <-> 0 <= r < 16 /\ 0 <= c < 16.
Proof.
  unfold allAnchors; rewrite in_flat_map; split.
  - intros (r' & Hr & Hp); apply in_map_iff in Hp; destruct Hp as (c' & E & Hc).
    inversion E; subst; apply In_range in Hr, Hc; lia.
  - intros [Hr Hc]; exists r; split; [apply In_range; lia|].
    apply in_map_iff; exists c; split; [reflexivity|apply In_range; lia].
Qed.

(** ** Boards of the right shape *)

Lemma arrGet_Some {A : Type} (l : list A) (i : Z) :
  0 <= i < Z.of_nat (length l) -> exists x, arrGet l i = Some x.
Proof.
  intros H; unfold arrGet.
  destruct (Z.ltb_spec i 0); [lia|].
  destruct (nth_error l (Z.to_nat i)) eqn:E; [eauto|].
  apply nth_error_None in E; lia.
Qed.

Lemma arrGet_range {A : Type} (l : list A) (i : Z) (x : A) :
  arrGet l i = Some x -> 0 <= i < Z.of_nat (length l).
Proof.
  unfold arrGet; destruct (Z.ltb_spec i 0); [discriminate|].
  intros E; assert (Z.to_nat i < length l)%nat by (apply nth_error_Some; congruence).
  lia.
Qed.

Lemma wfBoard_line (b : Board) (r : Z) (line : list BoardCell) :
  wfBoard b -> arrGet b r = Some line -> length line = 17%nat.
Proof.
  unfold wfBoard, wfBoardb; intros H E.
  apply andb_true_iff in H; destruct H as [_ H].
  rewrite forallb_forall in H.
  unfold arrGet in E; destruct (r <? 0); [discriminate|].
  apply nth_error_In in E; apply H in E; apply Nat.eqb_eq in E; exact E.
Qed.

Lemma wfBoard_length (b : Board) : wfBoard b -> length b = 17%nat.
Proof.
  unfold wfBoard, wfBoardb; intros H.
  apply andb_true_iff in H; destruct H as [H _]; apply Nat.eqb_eq in H; exact H.
Qed.

Lemma cellAt_wf (b : Board) (r c : Z) :
  wfBoard b -> 0 <= r < 17 -> 0 <= c < 17 -> exists cell, cellAt b r c = Some cell.
Proof.
  intros Hwf Hr Hc; unfold cellAt.
  destruct (@arrGet_Some _ b r) as (line & El);
    [rewrite (wfBoard_length b Hwf); lia|].
  rewrite El; simpl; apply arrGet_Some.
  rewrite (wfBoard_line b r line Hwf El); lia.
Qed.

Lemma cellAt_range (b : Board) (r c : Z) (cell : BoardCell) :
  wfBoard b -> cellAt b r c = Some cell -> 0 <= r < 17 /\ 0 <= c < 17.
Proof.
  intros Hwf E; unfold cellAt in E; apply bind_Some in E.
  destruct E as (line & El & Ec).
  pose proof (arrGet_range _ _ _ El) as Hr; pose proof (arrGet_range _ _ _ Ec) as Hc.
  rewrite (wfBoard_length b Hwf) in Hr; rewrite (wfBoard_line b r line Hwf El) in Hc; lia.
Qed.

Lemma isValidPosition_iff (p : Position) :
  isValidPosition p = true <-> 0 <= row p < 17 /\ 0 <= col p < 17.
Proof.
  unfold isValidPosition, BOARD_SIZE; split.
  - intros H; repeat (apply andb_true_iff in H; destruct H as [H ?]); lia.
  - intros H; repeat (apply andb_true_iff; split); lia.
Qed.

Lemma cellAt_valid (b : Board) (p : Position) :
  wfBoard b -> isValidPosition p = true ->
  exists cell, cellAt b (row p) (col p) = Some cell.
Proof.
  intros Hwf Hp; apply isValidPosition_iff in Hp; apply cellAt_wf; tauto.
Qed.

(** ** Writing a cell *)

Lemma updNth_length {A : Type} (f : A -> A) (l : list A) (n : nat) :
  length (updNth n f l) = length l.
Proof.
  revert n; induction l as [|x xs IH]; intros [|n]; simpl; auto.
Qed.

Lemma nth_error_updNth {A : Type} (f : A -> A) (l : list A) (n m : nat) :
  nth_error (updNth n f l) m
  = if Nat.eqb n m then option_map f (nth_error l m) else nth_error l m.
Proof.
  revert n m; induction l as [|x xs IH]; intros [|n] [|m]; simpl; auto.
  destruct (Nat.eqb n m); reflexivity.
Qed.

Lemma arrGet_updNth {A : Type} (f : A -> A) (l : list A) (i j : Z) :
  0 <= i ->
  arrGet (updNth (Z.to_nat i) f l) j
  = if j =? i then option_map f (arrGet l j) else arrGet l j.
Proof.
  intros Hi; unfold arrGet.
  destruct (Z.ltb_spec j 0).
  - destruct (Z.eqb_spec j i); reflexivity.
  - rewrite nth_error_updNth.
    destruct (Z.eqb_spec j i) as [->|Hne].
    + rewrite Nat.eqb_refl; reflexivity.
    + destruct (Nat.eqb_spec (Z.to_nat i) (Z.to_nat j)); [lia|reflexivity].
Qed.

Lemma cellAt_updCell (b : Board) (p : Position) (f : BoardCell -> BoardCell) (r c : Z) :
  0 <= row p -> 0 <= col p ->
  cellAt (updCell b p f) r c
  = if (r =? row p) && (c =? col p) then option_map f (cellAt b r c) else cellAt b r c.
Proof.
  intros Hr Hc; unfold cellAt, updCell.
  rewrite arrGet_updNth by exact Hr.
  destruct (Z.eqb_spec r (row p)) as [->|Hne]; simpl; [|reflexivity].
  destruct (arrGet b (row p)) as [line|]; simpl.
  - rewrite arrGet_updNth by exact Hc.
    destruct (c =? col p); reflexivity.
  - destruct (c =? col p); reflexivity.
Qed.

Lemma wfBoard_updCell (b : Board) (p : Position) (f : BoardCell -> BoardCell) :
  wfBoard b -> wfBoard (updCell b p f).
Proof.
  unfold wfBoard, wfBoardb, updCell; intros H.
  apply andb_true_iff in H; destruct H as [Hl Hf].
  apply andb_true_iff; split.
  - rewrite updNth_length; exact Hl.
  - clear Hl; revert Hf; generalize (Z.to_nat (row p)) as n.
    induction b as [|line ls IH]; intros [|n] H; simpl in *; auto;
      apply andb_true_iff in H; destruct H as [H1 H2];
      apply andb_true_iff; split; auto.
    rewrite updNth_length; exact H1.
Qed.

Lemma stoneAt_updCell_withStone (b : Board) (p q : Position) (t : StoneType) :
  wfBoard b -> isValidPosition p = true ->
  stoneAt (updCell b p (withStone t)) q
  = if isSamePosition q p then Some t else stoneAt b q.
Proof.
  intros Hwf Hp; pose proof Hp as Hp'; apply isValidPosition_iff in Hp'.
  unfold stoneAt, isSamePosition; rewrite cellAt_updCell by lia.
  destruct ((row q =? row p) && (col q =? col p)) eqn:E; [|reflexivity].
  apply andb_true_iff in E; destruct E as [E1 E2].
  apply Z.eqb_eq in E1, E2; rewrite E1, E2.
  destruct (cellAt_valid b p Hwf Hp) as (cell & ->); reflexivity.
Qed.

Lemma stoneAt_updCell_withNotation (b : Board) (p q : Position)
  (n : option NotationInfo) :
  0 <= row p -> 0 <= col p ->
  stoneAt (updCell b p (withNotation n)) q = stoneAt b q.
Proof.
  intros Hr Hc; unfold stoneAt; rewrite cellAt_updCell by assumption.
  destruct ((row q =? row p) && (col q =? col p)); [|reflexivity].
  destruct (cellAt b (row q) (col q)); reflexivity.
Qed.

Lemma isSamePosition_eq (p q : Position) : isSamePosition p q = true <-> p = q.
Proof.
  unfold isSamePosition; destruct p as [r c], q as [r' c']; simpl; split.
  - intros H; apply andb_true_iff in H; destruct H as [H1 H2].
    apply Z.eqb_eq in H1, H2; congruence.
  - intros H; inversion H; subst; rewrite !Z.eqb_refl; reflexivity.
Qed.

Lemma isSamePosition_refl (p : Position) : isSamePosition p p = true.
Proof. apply isSamePosition_eq; reflexivity. Qed.

Lemma isPositionInArray_In (p : Position) (ps : list Position) :
  isPositionInArray p ps = true <-> In p ps.
Proof.
  unfold isPositionInArray; rewrite existsb_exists; split.
  - intros (q & Hq & E); apply isSamePosition_eq in E; subst; exact Hq.
  - intros H; exists p; split; [exact H|apply isSamePosition_refl].
Qed.

(** ** The scans of the board *)

Lemma StoneType_eqb_eq (a b : StoneType) : StoneType_eqb a b = true <-> a = b.
Proof. destruct a, b; simpl; split; congruence. Qed.

Lemma scanBoard_total (b : Board) (t : StoneType) :
  wfBoard b ->
  scanBoard b t
  = Some (filter (fun p => StoneType_eqb (stoneOr b p) t) allPositions).
Proof.
  intros Hwf; unfold scanBoard; apply filterM_total.
  intros p Hp; apply In_allPositions in Hp.
  unfold stoneOr; destruct (cellAt_valid b p Hwf Hp) as (cell & ->); reflexivity.
Qed.

Lemma In_scanBoard (b : Board) (t : StoneType) (p : Position) :
  wfBoard b ->
  In p (filter (fun p => StoneType_eqb (stoneOr b p) t) allPositions)
  <-> isValidPosition p = true /\ stoneAt b p = Some t.
Proof.
  intros Hwf; rewrite filter_In, In_allPositions; split.
  - intros [Hp E]; split; [exact Hp|].
    apply StoneType_eqb_eq in E; unfold stoneOr in E; unfold stoneAt.
    destruct (cellAt_valid b p Hwf Hp) as (cell & Ec); rewrite Ec in *; simpl; congruence.
  - intros [Hp E]; split; [exact Hp|].
    apply StoneType_eqb_eq; unfold stoneOr; unfold stoneAt in E.
    destruct (cellAt b (row p) (col p)); simpl in E; congruence.
Qed.

(** ** Cores *)

Lemma coreAtAnchor_total (b : Board) (p : Player) (r c : Z) :
  wfBoard b -> 0 <= r < 16 -> 0 <= c < 16 ->
  exists res, coreAtAnchor b p r c = Some res.
Proof.
  intros Hwf Hr Hc; unfold coreAtAnchor.
  destruct (cellAt_wf b r c Hwf) as (c1 & ->); [lia|lia|].
  destruct (cellAt_wf b r (c + 1) Hwf) as (c2 & ->); [lia|lia|].
  destruct (cellAt_wf b (r + 1) c Hwf) as (c3 & ->); [lia|lia|].
  destruct (cellAt_wf b (r + 1) (c + 1) Hwf) as (c4 & ->); [lia|lia|].
  cbn [bind]; destruct (isValidCore [c1; c2; c3; c4] p); eexists; reflexivity.
Qed.

Lemma coreAtAnchor_positions (b : Board) (p : Player) (r c : Z) (core : Core) :
  coreAtAnchor b p r c = Some (Some core) ->
  positions core = [mkPos r c; mkPos r (c + 1); mkPos (r + 1) c; mkPos (r + 1) (c + 1)].
Proof.
  unfold coreAtAnchor; intros H.
  repeat (apply bind_Some in H; destruct H as (? & _ & H)).
  match type of H with context [isValidCore ?l p] => destruct (isValidCore l p) end;
    inversion H; reflexivity.
Qed.

Lemma detectCores_total (b : Board) (p : Player) :
  wfBoard b ->
  exists cs, detectCores b p = Some cs
    /\ forall core, In core cs <->
         exists r c, 0 <= r < 16 /\ 0 <= c < 16
                     /\ coreAtAnchor b p r c = Some (Some core).
Proof.
  intros Hwf; unfold detectCores.
  destruct (collectM_total (fun a => coreAtAnchor b p (fst a) (snd a)) allAnchors)
    as (cs & E & Hin).
  - intros [r c] Ha; apply In_allAnchors in Ha; simpl.
    apply coreAtAnchor_total; tauto.
  - exists cs; split; [exact E|]; intros core; rewrite Hin; split.
    + intros ([r c] & Ha & Ec); apply In_allAnchors in Ha; exists r, c; tauto.
    + intros (r & c & Hr & Hc & Ec); exists (r, c); split; [|exact Ec].
      apply In_allAnchors; tauto.
Qed.

Lemma detectCoresWithNewStone_total (b : Board) (p : Player) (pos : Position) :
  wfBoard b ->
  exists cs, detectCoresWithNewStone b p pos = Some cs
    /\ forall core, In core cs ->
         exists r c, 0 <= r < 16 /\ 0 <= c < 16
                     /\ coreAtAnchor b p r c = Some (Some core)
                     /\ In pos (positions core).
Proof.
  intros Hwf; unfold detectCoresWithNewStone.
  match goal with |- context [collectM ?f ?l] =>
    destruct (collectM_total f l) as (cs & E & Hin) end.
  - intros [r c] _; cbn [fst snd]; unfold BOARD_SIZE.
    destruct ((0 <=? r) && (r <? 17 - 1) && (0 <=? c) && (c <? 17 - 1)) eqn:G;
      [|eexists; reflexivity].
    repeat (apply andb_true_iff in G; destruct G as [G ?]).
    apply coreAtAnchor_total; [exact Hwf|lia|lia].
  - exists cs; split; [exact E|]; intros core Hc.
    apply Hin in Hc; destruct Hc as ([r c] & Ha & Ec); cbn [fst snd] in Ec.
    unfold BOARD_SIZE in Ec.
    destruct ((0 <=? r) && (r <? 17 - 1) && (0 <=? c) && (c <? 17 - 1)) eqn:G;
      [|discriminate].
    repeat (apply andb_true_iff in G; destruct G as [G ?]).
    exists r, c; repeat split; try lia; [exact Ec|].
    rewrite (coreAtAnchor_positions _ _ _ _ _ Ec).
    destruct pos as [pr pc]; cbn [row col] in Ha.
    destruct Ha as [Ea|[Ea|[Ea|[Ea|[]]]]]; inversion Ea; subst; simpl.
    + left; reflexivity.
    + right; left; f_equal; lia.
    + right; right; left; f_equal; lia.
    + right; right; right; left; f_equal; lia.
Qed.

(** C5: on a well-formed board both scans return, and every core that
    [detectCoresWithNewStone] returns for a position is also returned by
    [detectCores] and has the position among its positions. *)
Theorem detectCoresWithNewStone_subset (b : Board) (owner : Player) (pos : Position) :
  wfBoard b ->
  exists full touching,
    detectCores b owner = Some full
    /\ detectCoresWithNewStone b owner pos = Some touching
    /\ forall core, In core touching -> In core full /\ In pos (positions core).
Proof.
  intros Hwf.
  destruct (detectCores_total b owner Hwf) as (full & Ef & Hfull).
  destruct (detectCoresWithNewStone_total b owner pos Hwf) as (touching & Et & Htouch).
  exists full, touching; repeat split; auto.
  - apply Hfull; destruct (Htouch core H) as (r & c & Hr & Hc & E & _).
    exists r, c; auto.
  - destruct (Htouch core H) as (r & c & _ & _ & _ & Hin); exact Hin.
Qed.

Lemma detectCoresWithNewStone_subset_witness :
  exists full touching,
    detectCores squareBoard black = Some full
    /\ detectCoresWithNewStone squareBoard black (mkPos 4 4) = Some touching
    /\ forall core, In core touching ->
         In core full /\ In (mkPos 4 4) (positions core).
Proof.
  apply (detectCoresWithNewStone_subset squareBoard black (mkPos 4 4)).
  vm_compute; reflexivity.
Defined.

(** ** Notations never touch stones *)

Lemma stoneOr_stoneAt (b b' : Board) :
  sameStones b b' -> forall q, stoneOr b' q = stoneOr b q.
Proof.
  intros H q; specialize (H q); unfold stoneAt, stoneOr in *.
  destruct (cellAt b' (row q) (col q)), (cellAt b (row q) (col q));
    simpl in H; congruence.
Qed.

Lemma scanBoard_sameStones (b b' : Board) (t : StoneType) :
  wfBoard b -> wfBoard b' -> sameStones b b' ->
  scanBoard b' t = scanBoard b t.
Proof.
  intros Hwf Hwf' Hs; rewrite !scanBoard_total by assumption.
  f_equal; apply filter_ext; intros q; rewrite (stoneOr_stoneAt b b' Hs q); reflexivity.
Qed.

Lemma annotateCell_keeps (move : GameMove) (b0 b : Board) (pos : Position) :
  wfBoard b /\ sameStones b0 b ->
  isValidPosition pos = true ->
  exists b', annotateCell move b pos = Some b' /\ wfBoard b' /\ sameStones b0 b'.
Proof.
  intros [Hwf Hs] Hp; unfold annotateCell.
  destruct (cellAt_valid b pos Hwf Hp) as (cell & ->); cbn [bind].
  pose proof Hp as Hp'; apply isValidPosition_iff in Hp'.
  assert (Hupd : forall n, wfBoard (updCell b pos (withNotation n))
                           /\ sameStones b0 (updCell b pos (withNotation n))).
  { intros n; split; [apply wfBoard_updCell; exact Hwf|].
    intros q; rewrite stoneAt_updCell_withNotation by lia; apply Hs. }
  destruct (negb (StoneType_eqb (stoneType cell) empty)); [|eauto].
  destruct (createNotation move pos b) as [n|]; [|eauto].
  destruct (notation cell) as [old|], (moveType move); eauto.
Qed.

Lemma updateNotation_total (move : GameMove) :
  wfMove move ->
  exists ub, updateNotation move = Some ub
             /\ wfBoard ub /\ sameStones (currentBoard move) ub.
Proof.
  intros [Hwf Hpos]; unfold updateNotation.
  apply (foldM_invariant
           (fun b => wfBoard b /\ sameStones (currentBoard move) b)
           (fun p => isValidPosition p = true)).
  - intros b x Hb Hx; apply annotateCell_keeps; assumption.
  - exact Hpos.
  - split; [exact Hwf|intros q; reflexivity].
Qed.

(** ** The win check returns *)

Lemma getCombinations_S {T : Type} (array : list T) (r' : nat) :
  getCombinations array (S r')
  = if Nat.eqb (S r') 1 then Some (map (fun item => [item]) array)
    else if Nat.eqb (S r') (length array) then Some [array]
    else
      concatMapM (fun i =>
        head <- nth_error array i ;;
        tailCombinations <- getCombinations (skipn (i + 1) array) r' ;;
        Some (map (fun combination => head :: combination) tailCombinations))
      (seq 0 (length array + 1 - S r')).
Proof. reflexivity. Qed.

Lemma getCombinations_total {T : Type} (r : nat) :
  forall (array : list T), (1 <= r)%nat ->
  exists cs, getCombinations array r = Some cs
             /\ Forall (fun c => length c = r) cs.
Proof.
  induction r as [|r IH]; intros array Hr; [lia|].
  destruct r as [|r'].
  - simpl; eexists; split; [reflexivity|].
    apply Forall_forall; intros c Hc; apply in_map_iff in Hc.
    destruct Hc as (x & <- & _); reflexivity.
  - rewrite getCombinations_S.
    replace (Nat.eqb (S (S r')) 1) with false by reflexivity.
    destruct (Nat.eqb_spec (S (S r')) (length array)) as [E|Hne].
    + eexists; split; [reflexivity|]; constructor; [symmetry; exact E|constructor].
    + apply concatMapM_total; intros i Hi; apply in_seq in Hi.
      destruct (nth_error array i) as [head|] eqn:En;
        [|apply nth_error_None in En; lia].
      cbn [bind].
      destruct (IH (skipn (i + 1) array)) as (tails & -> & Ht); [lia|]; cbn [bind].
      eexists; split; [reflexivity|].
      apply Forall_forall; intros c Hc; apply in_map_iff in Hc.
      destruct Hc as (t & <- & Hin); rewrite Forall_forall in Ht.
      simpl; f_equal; apply Ht; exact Hin.
Qed.

Lemma isInLine_total (ps : list Position) :
  ps <> [] -> exists w, isInLine ps = Some w.
Proof.
  destruct ps as [|p0 rest]; [congruence|]; intros _.
  unfold isInLine, isHorizontal, isVertical, arrGet; cbn [Z.ltb Z.compare Z.to_nat nth_error bind].
  match goal with |- context [if ?c then Some true else _] => destruct c end;
    [eexists; reflexivity|].
  match goal with |- context [if ?c then Some true else _] => destruct c end;
    eexists; reflexivity.
Qed.

Lemma checkWinCondition_total (b : Board) (p : Player) :
  wfBoard b -> exists w, checkWinCondition b p = Some w.
Proof.
  intros Hwf; unfold checkWinCondition, getKeystoneStones.
  rewrite (scanBoard_total b _ Hwf); cbn [bind].
  match goal with |- context [(length ?l <? 5)%nat] =>
    destruct (length l <? 5)%nat; [eexists; reflexivity|];
    destruct (getCombinations_total 5 l) as (cs & -> & Hcs); [lia|]
  end.
  cbn [bind]; apply someM_total.
  apply Forall_forall; intros c Hc; rewrite Forall_forall in Hcs.
  apply isInLine_total; intros ->; specialize (Hcs [] Hc); discriminate.
Qed.

Lemma checkWinCondition_sameStones (b b' : Board) (p : Player) :
  wfBoard b -> wfBoard b' -> sameStones b b' ->
  checkWinCondition b' p = checkWinCondition b p.
Proof.
  intros Hwf Hwf' Hs; unfold checkWinCondition, getKeystoneStones.
  rewrite (scanBoard_sameStones b b' _ Hwf Hwf' Hs); reflexivity.
Qed.

(** ** History *)

Lemma length_slice0 {A : Type} (l : list A) (e : Z) :
  0 <= e <= Z.of_nat (length l) ->
  slice0 l e = firstn (Z.to_nat e) l /\ Z.of_nat (length (slice0 l e)) = e.
Proof.
  intros H; unfold slice0; destruct (Z.ltb_spec e 0); [lia|].
  split; [reflexivity|]; rewrite length_firstn; lia.
Qed.

Lemma updateAvailableMoves_total (s : GameState) :
  wfBoard (board s) ->
  exists v, updateAvailableMoves s = Some (setAvailableMoves v s).
Proof.
  intros Hwf; unfold updateAvailableMoves.
  rewrite (scanBoard_total _ empty Hwf); cbn [bind]; eexists; reflexivity.
Qed.

Lemma updateConvertibleStones_total (s : GameState) :
  wfBoard (board s) ->
  exists v, updateConvertibleStones s = Some (setConvertibleStones v s).
Proof.
  intros Hwf; unfold updateConvertibleStones, detectLShapes, getConduitStones.
  rewrite (scanBoard_total _ _ Hwf); cbn [bind]; eexists; reflexivity.
Qed.

(** C8: in history mode with the cursor [K] on a recorded move, [confirmUndo]
    keeps exactly the first [K + 1] moves, leaves history mode, and [redo] in
    the state it produces changes nothing. *)
Theorem confirmUndo_truncates (s : GameState) (K : Z) :
  isHistoryMode s = true ->
  historyIndex s = K ->
  0 <= K < Z.of_nat (length (moveHistory s)) ->
  wfBoard (board s) ->
  exists s',
    confirmUndo s = Some s'
    /\ moveHistory s' = firstn (Z.to_nat (K + 1)) (moveHistory s)
    /\ moveHistory s = moveHistory s' ++ skipn (Z.to_nat (K + 1)) (moveHistory s)
    /\ Z.of_nat (length (moveHistory s')) = K + 1
    /\ isHistoryMode s' = false
    /\ redo s' = Some s'.
Proof.
  intros Hmode HK Hrange Hwf; unfold confirmUndo; rewrite Hmode, HK.
  destruct (arrGet_Some (moveHistory s) K Hrange) as (target & ->); cbn [bind].
  destruct (length_slice0 (moveHistory s) (K + 1)) as [Hs Hl]; [lia|].
  match goal with |- context [updateAvailableMoves ?s1] =>
    destruct (updateAvailableMoves_total s1 Hwf) as (v1 & ->) end; cbn [bind].
  match goal with |- context [updateConvertibleStones ?s2] =>
    destruct (updateConvertibleStones_total s2 Hwf) as (v2 & ->) end; cbn [bind].
  eexists; split; [reflexivity|]; cbn [moveHistory addEvent setConvertibleStones
    setAvailableMoves isHistoryMode]; rewrite Hs.
  repeat split.
  - symmetry; apply firstn_skipn.
  - rewrite <- Hs; exact Hl.
Qed.

Lemma confirmUndo_truncates_witness :
  exists s',
    confirmUndo browsingState = Some s'
    /\ moveHistory s' = firstn (Z.to_nat (1 + 1)) (moveHistory browsingState)
    /\ moveHistory browsingState
       = moveHistory s' ++ skipn (Z.to_nat (1 + 1)) (moveHistory browsingState)
    /\ Z.of_nat (length (moveHistory s')) = 1 + 1
    /\ isHistoryMode s' = false
    /\ redo s' = Some s'.
Proof.
  apply (confirmUndo_truncates browsingState 1).
  - vm_compute; reflexivity.
  - vm_compute; reflexivity.
  - vm_compute; split; [discriminate|reflexivity].
  - vm_compute; reflexivity.
Defined.

(** *** The cursor of history mode stays on a recorded move *)

Lemma updateAvailableMoves_inv (s s' : GameState) :
  updateAvailableMoves s = Some s' -> exists v, s' = setAvailableMoves v s.
Proof.
  unfold updateAvailableMoves; intros H; apply bind_Some in H.
  destruct H as (v & _ & E); inversion E; eauto.
Qed.

Lemma updateConvertibleStones_inv (s s' : GameState) :
  updateConvertibleStones s = Some s' -> exists v, s' = setConvertibleStones v s.
Proof.
  unfold updateConvertibleStones; intros H; apply bind_Some in H.
  destruct H as (v & _ & E); inversion E; eauto.
Qed.

Lemma completeTurn_history (move : GameMove) (s s' : GameState) :
  completeTurn move s = Some s' ->
  isHistoryMode s' = isHistoryMode s
  /\ historyIndex s' = historyIndex s
  /\ moveHistory s' = moveHistory s ++ [move].
Proof.
  unfold completeTurn; intros H.
  apply bind_Some in H; destruct H as (ub & _ & H).
  apply bind_Some in H; destruct H as (w & _ & H).
  apply bind_Some in H; destruct H as (s2 & E2 & H).
  apply bind_Some in H; destruct H as (s3 & E3 & H).
  apply updateAvailableMoves_inv in E2; destruct E2 as (v2 & ->).
  apply updateConvertibleStones_inv in E3; destruct E3 as (v3 & ->).
  destruct w; inversion H; subst s'; cbn; auto.
Qed.

Lemma cursorInHistory_grow (s s' : GameState) :
  cursorInHistory s ->
  isHistoryMode s' = isHistoryMode s ->
  historyIndex s' = historyIndex s ->
  (length (moveHistory s) <= length (moveHistory s'))%nat ->
  cursorInHistory s'.
Proof.
  unfold cursorInHistory; intros H Hm Hi Hl Hmode.
  rewrite Hm in Hmode; rewrite Hi; specialize (H Hmode); lia.
Qed.

Lemma cursorInHistory_completeTurn (move : GameMove) (s s' : GameState) :
  cursorInHistory s -> completeTurn move s = Some s' -> cursorInHistory s'.
Proof.
  intros Hc H; apply completeTurn_history in H; destruct H as (Hm & Hi & Hh).
  apply (cursorInHistory_grow s); auto.
  rewrite Hh, length_app; simpl; lia.
Qed.

Lemma cursorInHistory_perform (a : Action) (s s' : GameState) :
  cursorInHistory s -> perform a s = Some s' -> cursorInHistory s'.
Proof.
  intros Hc H; destruct a; cbn [perform] in H.
  - (* placeStone *)
    unfold placeStone in H.
    destruct (negb match gameStatus s with playing => true | _ => false end
              || isHistoryMode s) eqn:G; [inversion H; subst; exact Hc|].
    apply orb_false_iff in G; destruct G as [_ G].
    apply bind_Some in H; destruct H as (nb & _ & H).
    apply bind_Some in H; destruct H as (cores & _ & H).
    destruct cores as [|core0 rest].
    + revert H; apply cursorInHistory_completeTurn.
      intros Hm; cbn in Hm; congruence.
    + apply bind_Some in H; destruct H as (ub & _ & H); inversion H; subst s'.
      intros Hm; cbn in Hm; congruence.
  - (* convertLShape *)
    unfold convertLShape in H.
    destruct (negb match gameStatus s with playing => true | _ => false end
              || isHistoryMode s) eqn:G; [inversion H; subst; exact Hc|].
    apply bind_Some in H; destruct H as (sp & _ & H).
    apply bind_Some in H; destruct H as (nb & _ & H).
    revert H; apply cursorInHistory_completeTurn; exact Hc.
  - (* selectCore *)
    inversion H; subst s'; exact Hc.
  - (* selectFocusPosition *)
    unfold selectFocusPosition in H.
    destruct (selectedCore s) as [core|]; [|inversion H; subst; exact Hc].
    destruct (corePlayer s) as [owner|]; [|inversion H; subst; exact Hc].
    apply bind_Some in H; destruct H as (cell & _ & H).
    apply bind_Some in H; destruct H as ([nb paths] & _ & H).
    apply bind_Some in H; destruct H as (conv & _ & H).
    revert H; apply cursorInHistory_completeTurn.
    destruct conv; exact Hc.
  - (* activateResonance *)
    unfold activateResonanceAction in H.
    apply bind_Some in H; destruct H as ([nb paths] & _ & H).
    revert H; apply cursorInHistory_completeTurn; exact Hc.
  - inversion H; subst s'; exact Hc.
  - inversion H; subst s'; exact Hc.
  - (* undo *)
    unfold undo in H; unfold cursorInHistory in Hc.
    destruct (isHistoryMode s) eqn:Hm.
    + specialize (Hc eq_refl).
      destruct (Z.gtb_spec (historyIndex s) 0); [|inversion H; subst; intros _; exact Hc].
      apply bind_Some in H; destruct H as (t & _ & H); inversion H; subst s'.
      intros _; cbn; lia.
    + destruct (Z.gtb_spec (Z.of_nat (length (moveHistory s))) 0);
        [|inversion H; subst; intros Hm'; congruence].
      apply bind_Some in H; destruct H as (t & _ & H); inversion H; subst s'.
      intros _; cbn; lia.
  - (* redo *)
    unfold redo in H; unfold cursorInHistory in Hc.
    destruct (isHistoryMode s) eqn:Hm; cbn [andb] in H;
      [|inversion H; subst; intros Hm'; congruence].
    specialize (Hc eq_refl).
    destruct (Z.ltb_spec (historyIndex s) (Z.of_nat (length (moveHistory s)) - 1));
      [|inversion H; subst; intros _; exact Hc].
    apply bind_Some in H; destruct H as (t & _ & H); inversion H; subst s'.
    intros _; cbn; lia.
  - (* confirmUndo *)
    unfold confirmUndo in H.
    destruct (isHistoryMode s) eqn:Hm; [|inversion H; subst; intros Hm'; congruence].
    apply bind_Some in H; destruct H as (t & _ & H).
    apply bind_Some in H; destruct H as (s2 & E2 & H).
    apply bind_Some in H; destruct H as (s3 & E3 & H).
    apply updateAvailableMoves_inv in E2; destruct E2 as (v2 & ->).
    apply updateConvertibleStones_inv in E3; destruct E3 as (v3 & ->).
    inversion H; subst s'; intros Hm'; cbn in Hm'; discriminate.
  - inversion H; subst s'; intros Hm'; cbn in Hm'; discriminate.
  - apply updateAvailableMoves_inv in H; destruct H as (v & ->); exact Hc.
  - apply updateConvertibleStones_inv in H; destruct H as (v & ->); exact Hc.
  - inversion H; subst s'; exact Hc.
  - inversion H; subst s'; exact Hc.
Qed.

(** Every state the store can reach has the cursor of history mode on a
    recorded move. *)
Lemma reachable_cursorInHistory (s : GameState) :
  reachable s -> cursorInHistory s.
Proof.
  induction 1 as [|a s s' _ IH H].
  - intros Hm; cbn in Hm; discriminate.
  - exact (cursorInHistory_perform a s s' IH H).
Qed.

(** C9: [undo] with an empty history and [redo] with no later move (outside
    history mode, or with the cursor on the last move or beyond) return the
    state they were given. *)
Theorem undo_redo_noop (s : GameState) :
  cursorInHistory s ->
  (moveHistory s = [] -> undo s = Some s)
  /\ (isHistoryMode s = false
      \/ historyIndex s >= Z.of_nat (length (moveHistory s)) - 1 ->
      redo s = Some s).
Proof.
  intros Hcur; split.
  - intros Hempty; unfold undo; unfold cursorInHistory in Hcur.
    destruct (isHistoryMode s) eqn:Hmode.
    + specialize (Hcur eq_refl); rewrite Hempty in Hcur; simpl in Hcur; lia.
    + rewrite Hempty; reflexivity.
  - intros H; unfold redo.
    destruct (isHistoryMode s); [|reflexivity].
    destruct H as [H|H]; [discriminate|].
    destruct (Z.ltb_spec (historyIndex s) (Z.of_nat (length (moveHistory s)) - 1));
      [lia|reflexivity].
Qed.

Lemma undo_redo_noop_witness :
  undo initialState = Some initialState /\ redo initialState = Some initialState.
Proof.
  destruct (undo_redo_noop initialState) as [Hu Hr].
  - intros Hmode; vm_compute in Hmode; discriminate.
  - split; [apply Hu; reflexivity|apply Hr; left; reflexivity].
Defined.

(** ** Finishing a turn *)

Lemma completeTurn_total (move : GameMove) (s : GameState) :
  wfMove move ->
  exists ub hasWon s',
    updateNotation move = Some ub
    /\ wfBoard ub /\ sameStones (currentBoard move) ub
    /\ checkWinCondition ub (currentPlayer s) = Some hasWon
    /\ completeTurn move s = Some s'
    /\ board s' = ub
    /\ currentPlayer s' = otherPlayer (currentPlayer s)
    /\ gamePhase s' = placing
    /\ gameStatus s' = (if hasWon then winOf (currentPlayer s) else playing)
    /\ moveHistory s' = moveHistory s ++ [move]
    /\ eventLog s'
       = eventLog s
         ++ (if hasWon then []
             else [simpleEvent turn_started (otherPlayer (currentPlayer s))])
    /\ isHistoryMode s' = isHistoryMode s
    /\ historyIndex s' = historyIndex s.
Proof.
  intros Hm; unfold completeTurn.
  destruct (updateNotation_total move Hm) as (ub & -> & Hwf & Hs); cbn [bind].
  destruct (checkWinCondition_total ub (currentPlayer s) Hwf) as (w & Hw).
  rewrite Hw; cbn [bind].
  match goal with |- context [updateAvailableMoves ?s1] =>
    destruct (updateAvailableMoves_total s1 Hwf) as (v1 & ->) end; cbn [bind].
  match goal with |- context [updateConvertibleStones ?s2] =>
    destruct (updateConvertibleStones_total s2 Hwf) as (v2 & ->) end; cbn [bind].
  exists ub, w; destruct w; cbn [negb]; eexists;
    (split; [reflexivity|]); (split; [exact Hwf|]); (split; [exact Hs|]);
    (split; [exact Hw|]); (split; [reflexivity|]);
    cbn; rewrite ?app_nil_r; repeat split; reflexivity.
Qed.

(** C2, as amended: [completeTurn] returns for every well-formed move; the
    game status becomes the acting player's win when the win check on the new
    board succeeds and [playing] when it fails, and in both cases the active
    player is swapped and the phase is [placing].  A win only leaves out the
    [turn_started] event. *)
Theorem completeTurn_outcome (move : GameMove) (s : GameState) :
  wfMove move ->
  exists hasWon s',
    completeTurn move s = Some s'
    /\ checkWinCondition (board s') (currentPlayer s) = Some hasWon
    /\ gameStatus s' = (if hasWon then winOf (currentPlayer s) else playing)
    /\ currentPlayer s' = otherPlayer (currentPlayer s)
    /\ gamePhase s' = placing
    /\ eventLog s'
       = eventLog s
         ++ (if hasWon then []
             else [simpleEvent turn_started (otherPlayer (currentPlayer s))]).
Proof.
  intros Hm.
  destruct (completeTurn_total move s Hm)
    as (ub & w & s' & _ & _ & _ & Hw & E & Hb & Hp & Hph & Hst & _ & Hev & _).
  exists w, s'; rewrite Hb; auto 10.
Qed.

Lemma completeTurn_outcome_witness :
  exists hasWon s',
    completeTurn winningMove conversionState = Some s'
    /\ checkWinCondition (board s') (currentPlayer conversionState) = Some hasWon
    /\ gameStatus s'
       = (if hasWon then winOf (currentPlayer conversionState) else playing)
    /\ currentPlayer s' = otherPlayer (currentPlayer conversionState)
    /\ gamePhase s' = placing
    /\ eventLog s'
       = eventLog conversionState
         ++ (if hasWon then []
             else [simpleEvent turn_started
                     (otherPlayer (currentPlayer conversionState))]).
Proof.
  apply (completeTurn_outcome winningMove conversionState).
  split; [vm_compute; reflexivity|].
  cbv [affectedPositions winningMove lShapeInfo resonanceInfo m_position lShape
       stones bentTriple app].
  repeat constructor.
Defined.

(** C2 as stated fails: a finalization whose win check succeeds for the
    acting player (black) sets the status to that player's win and still
    hands the turn to white with the phase [placing]; from the phase
    [selectingFocus] the phase does return to [placing]. *)
Lemma completeTurn_win_swaps_player :
  currentPlayer conversionState = black
  /\ convertLShape bentTriple 0 conversionState
     = completeTurn winningMove conversionState
  /\ option_map (fun s' => (checkWinCondition (board s') black, gameStatus s',
                            currentPlayer s', gamePhase s'))
       (completeTurn winningMove conversionState)
     = Some (Some true, blackWin, white, placing)
  /\ currentPlayer winningFocusState = black
  /\ gamePhase winningFocusState = selectingFocus
  /\ option_map (fun s' => (checkWinCondition (board s') black, gameStatus s',
                            currentPlayer s', gamePhase s'))
       (selectFocusPosition (mkPos 3 3) winningFocusState)
     = Some (Some true, blackWin, white, placing).
Proof.
  repeat split; vm_compute; reflexivity.
Qed.

(** ** Placing a stone *)

(** With the game running and history mode off, [placeStone] on a position
    of the board writes the conductor of the current player and records one
    move; the cell and the phase are not looked at. *)
Lemma placeStone_places (s : GameState) (pos : Position) :
  gameStatus s = playing ->
  isHistoryMode s = false ->
  wfBoard (board s) ->
  isValidPosition pos = true ->
  exists s',
    placeStone pos s = Some s'
    /\ stoneAt (board s') pos = Some (conduitOf (currentPlayer s))
    /\ length (moveHistory s') = S (length (moveHistory s)).
Proof.
  intros Hst Hmode Hwf Hp; unfold placeStone; rewrite Hst, Hmode; cbn [negb orb].
  unfold writeStone.
  destruct (cellAt_valid (board s) pos Hwf Hp) as (cell & ->); cbn [bind].
  set (newBoard := updCell (board s) pos (withStone (conduitOf (currentPlayer s)))).
  assert (Hwf' : wfBoard newBoard) by (apply wfBoard_updCell; exact Hwf).
  assert (Hstone : stoneAt newBoard pos = Some (conduitOf (currentPlayer s))).
  { unfold newBoard; rewrite stoneAt_updCell_withStone by assumption.
    rewrite isSamePosition_refl; reflexivity. }
  destruct (detectCoresWithNewStone_total newBoard (currentPlayer s) pos Hwf')
    as (cores & Ec & _).
  cbn [currentPlayer addEvent]; rewrite Ec; cbn [bind].
  match goal with |- context [updateNotation ?m] => set (move := m) end.
  assert (Hm : wfMove move).
  { split; [exact Hwf'|]. repeat constructor; exact Hp. }
  destruct cores as [|core0 rest].
  - match goal with |- context [completeTurn move ?s1] =>
      destruct (completeTurn_total move s1 Hm)
        as (ub & w & s' & _ & _ & Hs & _ & E & Hb & _ & _ & _ & Hh & _) end.
    exists s'; split; [exact E|]; split; [rewrite Hb, (Hs pos); exact Hstone|].
    rewrite Hh, length_app; cbn; lia.
  - destruct (updateNotation_total move Hm) as (ub & -> & _ & Hs); cbn [bind].
    eexists; split; [reflexivity|]; cbn [board moveHistory]; split;
      [rewrite (Hs pos); exact Hstone|].
    rewrite length_app; cbn; lia.
Qed.

(** C3, as amended: in every phase, [resonating] and [selectingFocus]
    included, [placeStone] returns the state it was given when the game is
    over or the store is in history mode; it does not look at the phase, and
    with the game running and history mode off it places the conductor on any
    position of the board and records the move. *)
Theorem placeStone_phase_blind (s : GameState) (pos : Position) :
  (gameStatus s <> playing \/ isHistoryMode s = true -> placeStone pos s = Some s)
  /\ (gameStatus s = playing -> isHistoryMode s = false ->
      wfBoard (board s) -> isValidPosition pos = true ->
      exists s',
        placeStone pos s = Some s'
        /\ stoneAt (board s') pos = Some (conduitOf (currentPlayer s))
        /\ length (moveHistory s') = S (length (moveHistory s))).
Proof.
  split; [|apply placeStone_places].
  intros H; unfold placeStone.
  destruct (gameStatus s) eqn:Hst; simpl; try reflexivity.
  destruct H as [H|H]; [congruence|rewrite H; reflexivity].
Qed.

Lemma placeStone_phase_blind_witness :
  placeStone (mkPos 0 0) browsingState = Some browsingState
  /\ gamePhase focusState = selectingFocus
  /\ exists s',
       placeStone (mkPos 0 0) focusState = Some s'
       /\ stoneAt (board s') (mkPos 0 0) = Some (conduitOf (currentPlayer focusState))
       /\ length (moveHistory s') = S (length (moveHistory focusState)).
Proof.
  split; [|split].
  - apply (placeStone_phase_blind browsingState (mkPos 0 0)).
    right; vm_compute; reflexivity.
  - vm_compute; reflexivity.
  - apply (placeStone_phase_blind focusState (mkPos 0 0)); vm_compute; reflexivity.
Defined.

(** C3 as stated fails: in the phase [resonating], with the game running and
    history mode off, [placeStone] puts a conductor on the board. *)
Lemma placeStone_resonating_places :
  gamePhase resonatingState = resonating
  /\ stoneAt (board resonatingState) (mkPos 0 0) = Some empty
  /\ option_map (fun s' => stoneAt (board s') (mkPos 0 0))
       (placeStone (mkPos 0 0) resonatingState) = Some (Some blackConduit)
  /\ option_map (fun s' => length (moveHistory s'))
       (placeStone (mkPos 0 0) resonatingState)
     = Some (S (length (moveHistory resonatingState)))
  /\ placeStone (mkPos 0 0) resonatingState <> Some resonatingState.
Proof.
  repeat split; try (vm_compute; reflexivity).
  intros H.
  apply (f_equal (option_map (fun s' => stoneAt (board s') (mkPos 0 0)))) in H.
  vm_compute in H; discriminate.
Qed.

(** C10: with the game running and history mode off, [placeStone] on any
    position of the board returns a state whose board holds the current
    player's conductor there, whatever the cell held before. *)
Theorem placeStone_overwrites (s : GameState) (pos : Position) :
  gameStatus s = playing ->
  isHistoryMode s = false ->
  wfBoard (board s) ->
  isValidPosition pos = true ->
  exists s',
    placeStone pos s = Some s'
    /\ stoneAt (board s') pos = Some (conduitOf (currentPlayer s)).
Proof.
  intros Hst Hmode Hwf Hp.
  destruct (placeStone_places s pos Hst Hmode Hwf Hp) as (s' & E & Hstone & _).
  exists s'; auto.
Qed.

Lemma placeStone_overwrites_witness :
  stoneAt (board resonatingState) (mkPos 10 10) = Some whiteConduit
  /\ exists s',
       placeStone (mkPos 10 10) resonatingState = Some s'
       /\ stoneAt (board s') (mkPos 10 10)
          = Some (conduitOf (currentPlayer resonatingState)).
Proof.
  split; [vm_compute; reflexivity|].
  apply (placeStone_overwrites resonatingState (mkPos 10 10));
    vm_compute; reflexivity.
Defined.

(** ** Resonance *)

Lemma propagateLoop_spec (b : Board) (v : Position) (core : Core) (owner : Player) :
  wfBoard b ->
  forall (n : nat) (current : Position) (path : list Position),
  exists extra,
    propagateLoop n b v core owner current path = Some (path ++ extra)
    /\ Forall (fun q =>
                 isValidPosition q = true
                 /\ ~ In q (positions core)
                 /\ exists k, 1 <= k <= Z.of_nat n
                              /\ q = mkPos (row current + k * row v)
                                           (col current + k * col v)) extra.
Proof.
  intros Hwf; induction n as [|n IH]; intros current path.
  - exists []; rewrite app_nil_r; split; [reflexivity|constructor].
  - cbn [propagateLoop].
    set (next := stepFrom current v).
    destruct (isValidPosition next) eqn:Hv; cbn [negb].
    2:{ exists []; rewrite app_nil_r; split; [reflexivity|constructor]. }
    destruct (cellAt_valid b next Hwf Hv) as (cell & ->); cbn [bind].
    assert (Hnext : forall k, 1 <= k <= Z.of_nat n ->
              mkPos (row next + k * row v) (col next + k * col v)
              = mkPos (row current + (k + 1) * row v) (col current + (k + 1) * col v)).
    { intros k _; unfold next, stepFrom; cbn [row col]; f_equal; lia. }
    assert (Hshift : forall extra,
              Forall (fun q => isValidPosition q = true /\ ~ In q (positions core)
                        /\ exists k, 1 <= k <= Z.of_nat n
                             /\ q = mkPos (row next + k * row v) (col next + k * col v))
                     extra ->
              Forall (fun q => isValidPosition q = true /\ ~ In q (positions core)
                        /\ exists k, 1 <= k <= Z.of_nat (S n)
                             /\ q = mkPos (row current + k * row v)
                                          (col current + k * col v))
                     extra).
    { intros extra H; eapply Forall_impl; [|exact H].
      intros q (Hq1 & Hq2 & k & Hk & ->); repeat split; auto.
      exists (k + 1); split; [lia|apply Hnext; exact Hk]. }
    assert (Hhere : exists k, 1 <= k <= Z.of_nat (S n)
              /\ next = mkPos (row current + k * row v) (col current + k * col v)).
    { exists 1; split; [lia|]; unfold next, stepFrom; f_equal; lia. }
    destruct (isPositionInArray next (positions core)) eqn:Hin; cbn [negb].
    + destruct (IH next path) as (extra & -> & Hex).
      exists extra; split; [reflexivity|apply Hshift; exact Hex].
    + assert (Hnot : ~ In next (positions core)).
      { intros H; apply isPositionInArray_In in H; congruence. }
      destruct (StoneType_eqb (stoneType cell) (conduitOf owner)).
      { exists [next]; split; [reflexivity|]; repeat constructor; auto. }
      destruct (negb (StoneType_eqb (stoneType cell) empty)).
      { exists []; rewrite app_nil_r; split; [reflexivity|constructor]. }
      destruct (IH next (path ++ [next])) as (extra & -> & Hex).
      exists (next :: extra); split; [rewrite <- app_assoc; reflexivity|].
      constructor; [auto|apply Hshift; exact Hex].
Qed.

Lemma propagateResonance_spec (b : Board) (start : Position) (d : Direction)
  (core : Core) (owner : Player) :
  wfBoard b ->
  exists path,
    propagateResonance b start d core owner = Some path
    /\ Forall (fun q => isValidPosition q = true /\ ~ In q (positions core)
                        /\ onRay start d q) path.
Proof.
  intros Hwf; unfold propagateResonance.
  destruct (propagateLoop_spec b (directionVectors d) core owner Hwf 5 start [])
    as (path & E & H).
  exists path; split; [exact E|].
  eapply Forall_impl; [|exact H]; intros q (H1 & H2 & k & Hk & ->).
  repeat split; auto; exists k; split; [lia|reflexivity].
Qed.

Lemma convertOnPath_fold (owner : Player) (path : list Position) (b : Board) :
  wfBoard b ->
  Forall (fun q => isValidPosition q = true) path ->
  exists b',
    foldM (convertOnPath owner) path b = Some b'
    /\ wfBoard b'
    /\ forall q, ~ In q path -> cellAt b' (row q) (col q) = cellAt b (row q) (col q).
Proof.
  intros Hwf Hpath.
  apply (foldM_invariant
           (fun b' => wfBoard b' /\ forall q, ~ In q path ->
                        cellAt b' (row q) (col q) = cellAt b (row q) (col q))
           (fun p => isValidPosition p = true /\ In p path)).
  - intros b1 p [Hwf1 Hsame] [Hp Hin]; unfold convertOnPath.
    destruct (cellAt_valid b1 p Hwf1 Hp) as (cell & ->); cbn [bind].
    destruct (StoneType_eqb (stoneType cell) (conduitOf owner)); [|eauto].
    eexists; split; [reflexivity|]; split; [apply wfBoard_updCell; exact Hwf1|].
    intros q Hq; apply isValidPosition_iff in Hp.
    rewrite cellAt_updCell by lia.
    destruct ((row q =? row p) && (col q =? col p)) eqn:E; [|apply Hsame; exact Hq].
    exfalso; apply Hq.
    replace q with p; [exact Hin|].
    symmetry; apply isSamePosition_eq; exact E.
  - rewrite Forall_forall in *; intros p Hp; split; [apply Hpath; exact Hp|exact Hp].
  - split; [exact Hwf|reflexivity].
Qed.

Lemma resonateDirection_step (core : Core) (focus : Position) (owner : Player)
  (b : Board) (paths : list (list Position)) (d : Direction) :
  wfBoard b ->
  exists path b',
    resonateDirection core focus owner (b, paths) d = Some (b', paths ++ [path])
    /\ propagateResonance b focus d core owner = Some path
    /\ wfBoard b'
    /\ Forall (fun q => isValidPosition q = true /\ ~ In q (positions core)
                        /\ onRay focus d q) path
    /\ forall q, ~ In q path -> cellAt b' (row q) (col q) = cellAt b (row q) (col q).
Proof.
  intros Hwf; unfold resonateDirection.
  destruct (propagateResonance_spec b focus d core owner Hwf) as (path & E & Hpath).
  rewrite E; cbn [bind].
  destruct (convertOnPath_fold owner path b Hwf) as (b' & -> & Hwf' & Hframe).
  { eapply Forall_impl; [|exact Hpath]; intros q (H1 & _); exact H1. }
  cbn [bind]; exists path, b'; auto.
Qed.

Lemma rayCell_1 (focus : Position) (d : Direction) :
  rayCell focus d 1 = stepFrom focus (directionVectors d).
Proof. unfold rayCell, stepFrom; f_equal; lia. Qed.

Lemma ray_disjoint (focus : Position) (d d' : Direction) (k k' : Z) :
  d <> d' -> 1 <= k -> 1 <= k' -> rayCell focus d k <> rayCell focus d' k'.
Proof.
  intros Hd Hk Hk' H; unfold rayCell in H.
  destruct d, d'; try congruence; cbn [directionVectors row col] in H;
    inversion H; lia.
Qed.

Lemma propagate_blocked (b : Board) (core : Core) (owner : Player)
  (focus : Position) (d0 : Direction) :
  blockedAt b core owner focus d0 ->
  propagateResonance b focus d0 core owner = Some [].
Proof.
  intros (Hv & Hnot & cell & Ec & Hc & He).
  unfold propagateResonance; cbn [propagateLoop].
  rewrite Hv, Ec; cbn [negb bind].
  destruct (isPositionInArray _ (positions core)) eqn:Hin;
    [apply isPositionInArray_In in Hin; contradiction|]; cbn [negb].
  destruct (StoneType_eqb (stoneType cell) (conduitOf owner)) eqn:E1;
    [apply StoneType_eqb_eq in E1; contradiction|].
  destruct (StoneType_eqb (stoneType cell) empty) eqn:E2;
    [apply StoneType_eqb_eq in E2; contradiction|reflexivity].
Qed.

(** Every direction changes cells of its own ray only, outside the core. *)
Lemma resonance_fold (core : Core) (focus : Position) (owner : Player)
  (ds : list Direction) :
  forall (b : Board) (paths : list (list Position)),
  wfBoard b ->
  exists b' ps,
    foldM (resonateDirection core focus owner) ds (b, paths) = Some (b', paths ++ ps)
    /\ wfBoard b'
    /\ length ps = length ds
    /\ Forall (Forall (fun q => isValidPosition q = true)) ps
    /\ (forall q, In q (positions core) ->
          cellAt b' (row q) (col q) = cellAt b (row q) (col q))
    /\ (forall q, (forall d, In d ds -> ~ onRay focus d q) ->
          cellAt b' (row q) (col q) = cellAt b (row q) (col q)).
Proof.
  induction ds as [|d ds IH]; intros b paths Hwf; cbn [foldM].
  - exists b, []; rewrite app_nil_r; repeat split; auto.
  - destruct (resonateDirection_step core focus owner b paths d Hwf)
      as (path & b1 & -> & _ & Hwf1 & Hpath & Hframe); cbn [bind].
    destruct (IH b1 (paths ++ [path]) Hwf1)
      as (b' & ps & -> & Hwf' & Hlen & Hval & Hcore & Hrays).
    exists b', (path :: ps); rewrite <- app_assoc; split; [reflexivity|].
    rewrite Forall_forall in Hpath.
    repeat split; auto.
    + simpl; congruence.
    + constructor; [|exact Hval].
      apply Forall_forall; intros q Hq; apply (Hpath q Hq).
    + intros q Hq; rewrite (Hcore q Hq); apply Hframe.
      intros Hin; apply (Hpath q Hin); exact Hq.
    + intros q Hq; rewrite Hrays by (intros d' Hd'; apply Hq; right; exact Hd').
      apply Hframe; intros Hin.
      apply (Hq d (or_introl eq_refl)), (Hpath q Hin).
Qed.

(** A blocked direction stays blocked while the other directions run, gets an
    empty path, and no cell of its ray changes. *)
Lemma resonance_fold_blocked (core : Core) (focus : Position) (owner : Player)
  (d0 : Direction) (ds : list Direction) :
  forall (b : Board) (paths : list (list Position)),
  wfBoard b ->
  blockedAt b core owner focus d0 ->
  exists b' ps,
    foldM (resonateDirection core focus owner) ds (b, paths) = Some (b', paths ++ ps)
    /\ (forall i, nth_error ds i = Some d0 -> nth_error ps i = Some [])
    /\ (forall k, 1 <= k ->
          cellAt b' (row (rayCell focus d0 k)) (col (rayCell focus d0 k))
          = cellAt b (row (rayCell focus d0 k)) (col (rayCell focus d0 k))).
Proof.
  induction ds as [|d ds IH]; intros b paths Hwf Hblk; cbn [foldM].
  - exists b, []; rewrite app_nil_r; repeat split; auto.
    intros [|i] H; discriminate.
  - destruct (resonateDirection_step core focus owner b paths d Hwf)
      as (path & b1 & -> & Eprop & Hwf1 & Hpath & Hframe); cbn [bind].
    rewrite Forall_forall in Hpath.
    assert (Hray : forall k, 1 <= k ->
              cellAt b1 (row (rayCell focus d0 k)) (col (rayCell focus d0 k))
              = cellAt b (row (rayCell focus d0 k)) (col (rayCell focus d0 k))).
    { intros k Hk; apply Hframe; intros Hin.
      destruct (Hpath _ Hin) as (_ & _ & k' & Hk' & Eq).
      assert (Hd : d = d0).
      { destruct d, d0; try reflexivity;
          exfalso; revert Eq; apply ray_disjoint; (discriminate || lia). }
      subst d; rewrite (propagate_blocked b core owner focus d0 Hblk) in Eprop.
      inversion Eprop; subst path; destruct Hin. }
    assert (Hblk1 : blockedAt b1 core owner focus d0).
    { destruct Hblk as (Hv & Hnot & cell & Ec & Hc); repeat split; auto.
      exists cell; split; [|exact Hc].
      rewrite <- Ec, <- !rayCell_1; apply Hray; lia. }
    destruct (IH b1 (paths ++ [path]) Hwf1 Hblk1) as (b' & ps & -> & Hnth & Hrays).
    exists b', (path :: ps); rewrite <- app_assoc; split; [reflexivity|]; split.
    + intros [|i] Hi; cbn [nth_error] in *; [|apply Hnth; exact Hi].
      inversion Hi; subst d.
      rewrite (propagate_blocked b core owner focus d0 Hblk) in Eprop.
      inversion Eprop; reflexivity.
    + intros k Hk; rewrite (Hrays k Hk); apply Hray; exact Hk.
Qed.

Lemma coreAtAnchor_cells (b : Board) (p : Player) (r c : Z) (core : Core) :
  coreAtAnchor b p r c = Some (Some core) ->
  exists c1 c2 c3 c4,
    cellAt b r c = Some c1 /\ cellAt b r (c + 1) = Some c2
    /\ cellAt b (r + 1) c = Some c3 /\ cellAt b (r + 1) (c + 1) = Some c4
    /\ isValidCore [c1; c2; c3; c4] p = true
    /\ core = {| positions := [mkPos r c; mkPos r (c + 1);
                               mkPos (r + 1) c; mkPos (r + 1) (c + 1)];
                 core_stones := [c1; c2; c3; c4] |}.
Proof.
  unfold coreAtAnchor; intros H.
  apply bind_Some in H; destruct H as (c1 & E1 & H).
  apply bind_Some in H; destruct H as (c2 & E2 & H).
  apply bind_Some in H; destruct H as (c3 & E3 & H).
  apply bind_Some in H; destruct H as (c4 & E4 & H).
  destruct (isValidCore [c1; c2; c3; c4] p) eqn:Hv; inversion H.
  exists c1, c2, c3, c4; auto 10.
Qed.

Lemma ownStone_cases (t : StoneType) (p : Player) :
  StoneType_eqb t (conduitOf p) || StoneType_eqb t (keystoneOf p) = true ->
  t = conduitOf p \/ t = keystoneOf p.
Proof.
  intros H; apply orb_true_iff in H; destruct H as [H|H];
    apply StoneType_eqb_eq in H; auto.
Qed.

Lemma detectedCore_valid (b : Board) (owner : Player) (core : Core) :
  wfBoard b ->
  detectedCore b owner core ->
  validCoreOn b owner core.
Proof.
  intros Hwf (cores & Ed & Hin).
  destruct (detectCores_total b owner Hwf) as (cs & Ecs & Hchar).
  rewrite Ed in Ecs; inversion Ecs; subst cs.
  apply Hchar in Hin; destruct Hin as (r & c & _ & _ & Hc).
  apply coreAtAnchor_cells in Hc.
  destruct Hc as (c1 & c2 & c3 & c4 & E1 & E2 & E3 & E4 & Hv & ->).
  unfold isValidCore in Hv; cbn [forallb] in Hv.
  repeat (apply andb_true_iff in Hv; destruct Hv as [?H Hv]).
  repeat match goal with
         | H : _ || _ = true |- _ => apply ownStone_cases in H
         end.
  split.
  - unfold corePlayerOf; cbn.
    destruct H as [-> | ->]; destruct owner; reflexivity.
  - cbn [positions]; intros q [<-|[<-|[<-|[<-|[]]]]]; cbn [row col]; eauto.
Qed.

Lemma opponent_blocks (b : Board) (owner : Player) (core : Core)
  (focus : Position) (d : Direction) :
  validCoreOn b owner core ->
  isValidPosition (rayCell focus d 1) = true ->
  (exists t, stoneAt b (rayCell focus d 1) = Some t /\ opponentStone owner t) ->
  blockedAt b core owner focus d.
Proof.
  intros [_ Hown] Hv (t & Ht & Hopp); unfold blockedAt; cbv zeta.
  rewrite <- rayCell_1; unfold stoneAt in Ht.
  destruct (cellAt b (row (rayCell focus d 1)) (col (rayCell focus d 1)))
    as [cell|] eqn:Ec; [|discriminate].
  cbn in Ht; inversion Ht; subst t.
  split; [exact Hv|]; split.
  - intros Hin; destruct (Hown _ Hin) as (cell' & Ec' & Hc').
    rewrite Ec in Ec'; inversion Ec'; subst cell'.
    destruct Hopp as [Ho|Ho], Hc' as [Hc'|Hc']; rewrite Ho in Hc';
      destruct owner; discriminate.
  - exists cell; split; [reflexivity|].
    destruct Hopp as [Ho|Ho]; rewrite Ho; destruct owner; split; discriminate.
Qed.

Lemma nth_error_directions (d : Direction) :
  nth_error [up; down; left; right] (directionIndex d) = Some d.
Proof. destruct d; reflexivity. Qed.

(** C7: on a well-formed board, for a core valid on it (every detected core
    is) and a focal position of the core, a direction whose first cell is on
    the board and holds a stone of the opponent gets the empty path, from
    [propagateResonance] and in the paths of [activateResonance], and no cell
    of the board in that direction changes. *)
Theorem blocked_direction_empty_path (b : Board) (owner : Player) (core : Core)
  (focus : Position) (d : Direction) :
  wfBoard b ->
  validCoreOn b owner core ->
  In focus (positions core) ->
  isValidPosition (rayCell focus d 1) = true ->
  (exists t, stoneAt b (rayCell focus d 1) = Some t /\ opponentStone owner t) ->
  propagateResonance b focus d core owner = Some []
  /\ exists newBoard paths,
       activateResonance b core focus = Some (newBoard, paths)
       /\ length paths = 4%nat
       /\ nth_error paths (directionIndex d) = Some []
       /\ forall k, 1 <= k ->
            cellAt newBoard (row (rayCell focus d k)) (col (rayCell focus d k))
            = cellAt b (row (rayCell focus d k)) (col (rayCell focus d k)).
Proof.
  intros Hwf Hcore _ Hv Hopp.
  pose proof (opponent_blocks b owner core focus d Hcore Hv Hopp) as Hblk.
  split; [apply propagate_blocked; exact Hblk|].
  destruct Hcore as [Howner _].
  unfold activateResonance; rewrite Howner; cbn [bind].
  destruct (resonance_fold core focus owner [up; down; left; right] b [] Hwf)
    as (b1 & ps1 & E1 & _ & Hlen & _).
  destruct (resonance_fold_blocked core focus owner d [up; down; left; right]
              b [] Hwf Hblk) as (b' & ps & E & Hnth & Hray).
  rewrite E in E1; inversion E1; subst b1 ps1.
  exists b', ps; repeat split; auto.
  apply Hnth, nth_error_directions.
Qed.

Lemma blocked_direction_empty_path_witness :
  propagateResonance squareBoard (mkPos 3 3) up squareCore black = Some []
  /\ exists newBoard paths,
       activateResonance squareBoard squareCore (mkPos 3 3) = Some (newBoard, paths)
       /\ length paths = 4%nat
       /\ nth_error paths (directionIndex up) = Some []
       /\ forall k, 1 <= k ->
            cellAt newBoard (row (rayCell (mkPos 3 3) up k))
                            (col (rayCell (mkPos 3 3) up k))
            = cellAt squareBoard (row (rayCell (mkPos 3 3) up k))
                                 (col (rayCell (mkPos 3 3) up k)).
Proof.
  apply (blocked_direction_empty_path squareBoard black squareCore (mkPos 3 3) up).
  - vm_compute; reflexivity.
  - apply detectedCore_valid; [vm_compute; reflexivity|].
    exists [squareCore]; split; [vm_compute; reflexivity|left; reflexivity].
  - left; reflexivity.
  - vm_compute; reflexivity.
  - exists whiteConduit; split; [vm_compute; reflexivity|left; reflexivity].
Defined.

(** ** Choosing the focal stone *)

Lemma convertedOnPaths_total (before after : Board) (paths : list (list Position))
  (acc : list Position) :
  wfBoard before -> wfBoard after ->
  Forall (Forall (fun q => isValidPosition q = true)) paths ->
  exists l, convertedOnPaths before after paths acc = Some l.
Proof.
  intros Hb Ha Hpaths; unfold convertedOnPaths.
  destruct (foldM_invariant (fun _ : list Position => True)
              (Forall (fun q => isValidPosition q = true))
              (fun acc path =>
                 foldM (fun acc pos =>
                   cn <- cellAt after (row pos) (col pos) ;;
                   if includesKeystone (stoneType cn) then
                     co <- cellAt before (row pos) (col pos) ;;
                     Some (if includesConduit (stoneType co) then acc ++ [pos] else acc)
                   else Some acc) path acc) paths) with (s := acc)
    as (l & E & _); auto.
  - intros acc0 path _ Hpath.
    apply (foldM_invariant (fun _ : list Position => True)
             (fun q => isValidPosition q = true)); auto.
    intros acc1 pos _ Hpos.
    destruct (cellAt_valid after pos Ha Hpos) as (cn & ->); cbn [bind].
    destruct (includesKeystone (stoneType cn)); [|eauto].
    destruct (cellAt_valid before pos Hb Hpos) as (co & ->); cbn [bind]; eauto.
  - exists l; exact E.
Qed.

Lemma Forall_pushIfAbsent (P : Position -> Prop) (path acc : list Position) :
  Forall P acc -> Forall P path -> Forall P (fold_left pushIfAbsent path acc).
Proof.
  intros Hacc Hpath; revert acc Hacc.
  induction Hpath as [|q path Hq _ IH]; intros acc Hacc; cbn [fold_left]; auto.
  apply IH; unfold pushIfAbsent.
  destruct (existsb _ acc); [exact Hacc|].
  apply Forall_app; split; [exact Hacc|repeat constructor; exact Hq].
Qed.

Lemma Forall_affected_paths (P : Position -> Prop) (paths : list (list Position))
  (acc : list Position) :
  Forall P acc -> Forall (Forall P) paths ->
  Forall P (fold_left (fun acc path => fold_left pushIfAbsent path acc) paths acc).
Proof.
  intros Hacc Hpaths; revert acc Hacc.
  induction Hpaths as [|path paths Hp _ IH]; intros acc Hacc; cbn [fold_left]; auto.
  apply IH, Forall_pushIfAbsent; assumption.
Qed.

(** C4, as amended: for a core valid on the board and a focal position of
    the core, [activateResonance] returns a board with the focal cell exactly
    as it was (it converts stones on the rays only, never a cell of the
    core); the focal conductor is converted by [selectFocusPosition], before
    it calls [activateResonance]: after [selectFocusPosition] the focal cell
    holds the owner's keystone, whether it held the owner's conductor or
    already the keystone. *)
Theorem focal_cell_conversion (b : Board) (owner : Player) (core : Core)
  (focus : Position) :
  wfBoard b ->
  validCoreOn b owner core ->
  In focus (positions core) ->
  (exists newBoard paths,
     activateResonance b core focus = Some (newBoard, paths)
     /\ cellAt newBoard (row focus) (col focus) = cellAt b (row focus) (col focus))
  /\ (stoneAt b focus = Some (conduitOf owner)
      \/ stoneAt b focus = Some (keystoneOf owner))
  /\ forall s, board s = b -> selectedCore s = Some core -> corePlayer s = Some owner ->
       exists s', selectFocusPosition focus s = Some s'
                  /\ stoneAt (board s') focus = Some (keystoneOf owner).
Proof.
  intros Hwf [Howner Hown] Hfocus.
  destruct (Hown focus Hfocus) as (cell & Ecell & Hcell).
  split; [|split].
  - unfold activateResonance; rewrite Howner; cbn [bind].
    destruct (resonance_fold core focus owner [up; down; left; right] b [] Hwf)
      as (b' & ps & E & _ & _ & _ & Hcore & _).
    exists b', ps; split; [exact E|apply Hcore; exact Hfocus].
  - unfold stoneAt; rewrite Ecell; cbn.
    destruct Hcell as [-> | ->]; auto.
  - intros s Hb Hsel Hpl; unfold selectFocusPosition.
    rewrite Hsel, Hpl, Hb, Ecell; cbn [bind].
    pose proof (cellAt_range b (row focus) (col focus) cell Hwf Ecell) as Hrange.
    assert (Hvalid : isValidPosition focus = true)
      by (apply isValidPosition_iff; exact Hrange).
    set (b1 := if StoneType_eqb (stoneType cell) (conduitOf owner)
               then updCell b focus (withStone (keystoneOf owner)) else b).
    assert (Hwf1 : wfBoard b1).
    { unfold b1; destruct (StoneType_eqb _ _); [apply wfBoard_updCell|]; exact Hwf. }
    assert (Hst1 : stoneAt b1 focus = Some (keystoneOf owner)).
    { unfold b1; destruct (StoneType_eqb (stoneType cell) (conduitOf owner)) eqn:E.
      - rewrite stoneAt_updCell_withStone by assumption.
        rewrite isSamePosition_refl; reflexivity.
      - unfold stoneAt; rewrite Ecell; cbn.
        destruct Hcell as [Hc|Hc]; rewrite Hc in *; [|reflexivity].
        rewrite (proj2 (StoneType_eqb_eq _ _) eq_refl) in E; discriminate. }
    unfold activateResonance; rewrite Howner; cbn [bind].
    destruct (resonance_fold core focus owner [up; down; left; right] b1 [] Hwf1)
      as (b' & ps & -> & Hwf' & _ & Hval & Hcore & _); cbn [bind app].
    match goal with |- context [convertedOnPaths b b' ps ?acc] =>
      destruct (convertedOnPaths_total b b' ps acc Hwf Hwf' Hval) as (conv & ->)
    end; cbn [bind].
    match goal with |- context [completeTurn ?m ?s2] =>
      destruct (completeTurn_total m s2) as (ub & w & s' & _ & _ & Hs & _ & E & Hbs & _)
    end.
    { split; [exact Hwf'|]; unfold affectedPositions; cbn.
      apply Forall_affected_paths; [repeat constructor; exact Hvalid|exact Hval]. }
    exists s'; split; [exact E|].
    rewrite Hbs, (Hs focus); cbn [currentBoard].
    unfold stoneAt; rewrite (Hcore focus Hfocus); exact Hst1.
Qed.

Lemma validCoreOnb_sound (b : Board) (owner : Player) (core : Core) :
  validCoreOnb b owner core = true -> validCoreOn b owner core.
Proof.
  unfold validCoreOnb, validCoreOn; intros H.
  apply andb_true_iff in H; destruct H as [Hp Hq]; split.
  - destruct (corePlayerOf core) as [p|]; [|discriminate].
    destruct p, owner; try discriminate; reflexivity.
  - rewrite forallb_forall in Hq; intros q Hin; specialize (Hq q Hin).
    destruct (cellAt b (row q) (col q)) as [cell|]; [|discriminate].
    exists cell; split; [reflexivity|apply ownStone_cases; exact Hq].
Qed.

Lemma focal_cell_conversion_witness :
  (exists newBoard paths,
     activateResonance (board focusState) focusCore (mkPos 3 3)
     = Some (newBoard, paths)
     /\ cellAt newBoard 3 3 = cellAt (board focusState) 3 3)
  /\ exists s', selectFocusPosition (mkPos 3 3) focusState = Some s'
                /\ stoneAt (board s') (mkPos 3 3) = Some blackKeystone.
Proof.
  destruct (focal_cell_conversion (board focusState) black focusCore (mkPos 3 3))
    as (H1 & _ & H2).
  - vm_compute; reflexivity.
  - apply validCoreOnb_sound; vm_compute; reflexivity.
  - vm_compute; left; reflexivity.
  - split; [exact H1|].
    apply (H2 focusState); vm_compute; reflexivity.
Defined.

(** C4 as stated fails: the focal cell (3,3) of the detected core holds the
    owner's conductor, and the board that [activateResonance] returns still
    holds the conductor there. *)
Lemma activateResonance_keeps_focal_conductor :
  detectCores squareBoard black = Some [squareCore]
  /\ In (mkPos 3 3) (positions squareCore)
  /\ stoneAt squareBoard (mkPos 3 3) = Some (conduitOf black)
  /\ option_map (fun r => stoneAt (fst r) (mkPos 3 3))
       (activateResonance squareBoard squareCore (mkPos 3 3))
     = Some (Some blackConduit).
Proof.
  repeat split; try (vm_compute; reflexivity).
  left; reflexivity.
Qed.

(** ** Bent triples *)

Lemma areAdjacent_manhattan (p q : Position) :
  areAdjacent p q = true <-> manhattan p q = 1.
Proof.
  unfold areAdjacent, manhattan; cbv zeta.
  rewrite orb_true_iff, !andb_true_iff, !Z.eqb_eq; lia.
Qed.

Lemma isLShape_exactlyTwo (s1 s2 s3 : Position) :
  isLShape [s1; s2; s3] = true
  <-> exactlyTwo (manhattan s1 s2 = 1) (manhattan s2 s3 = 1) (manhattan s1 s3 = 1).
Proof.
  unfold exactlyTwo; rewrite <- !areAdjacent_manhattan; unfold isLShape.
  destruct (areAdjacent s1 s2), (areAdjacent s2 s3), (areAdjacent s1 s3);
    cbn; intuition congruence.
Qed.

Lemma scanBeforeb_spec (p q : Position) : scanBeforeb p q = true <-> scanBefore p q.
Proof.
  unfold scanBeforeb, scanBefore.
  rewrite orb_true_iff, andb_true_iff, !Z.ltb_lt, Z.eqb_eq; reflexivity.
Qed.

Lemma scanSortedb_sound (l : list Position) :
  scanSortedb l = true -> sortedBy scanBefore l.
Proof.
  induction l as [|x xs IH]; cbn [scanSortedb]; intros H; constructor.
  - apply andb_true_iff in H; destruct H as [H _].
    apply Forall_forall; intros y Hy; rewrite forallb_forall in H.
    apply scanBeforeb_spec, H, Hy.
  - apply IH; apply andb_true_iff in H; tauto.
Qed.

Lemma allPositions_sorted : sortedBy scanBefore allPositions.
Proof. apply scanSortedb_sound; vm_compute; reflexivity. Qed.

Lemma sortedBy_filter {A : Type} (R : A -> A -> Prop) (f : A -> bool) (l : list A) :
  sortedBy R l -> sortedBy R (filter f l).
Proof.
  induction 1 as [|x xs Hx _ IH]; cbn [filter]; [constructor|].
  destruct (f x); [|exact IH].
  constructor; [|exact IH].
  apply Forall_forall; intros y Hy; apply filter_In in Hy.
  rewrite Forall_forall in Hx; apply Hx; tauto.
Qed.

Lemma sortedBy_nth {A : Type} (R : A -> A -> Prop) (d : A) (l : list A) :
  sortedBy R l ->
  forall i j, (i < j < length l)%nat -> R (nth i l d) (nth j l d).
Proof.
  induction 1 as [|x xs Hx _ IH]; intros i j Hij; [simpl in Hij; lia|].
  destruct j as [|j]; [lia|]; destruct i as [|i]; cbn [nth].
  - rewrite Forall_forall in Hx; apply Hx, nth_In; simpl in Hij; lia.
  - apply IH; simpl in Hij; lia.
Qed.

Lemma sortedBy_NoDup {A : Type} (R : A -> A -> Prop) (l : list A) :
  (forall x, ~ R x x) -> sortedBy R l -> NoDup l.
Proof.
  intros Hirr; induction 1 as [|x xs Hx _ IH]; constructor; [|exact IH].
  intros Hin; rewrite Forall_forall in Hx; apply (Hirr x), Hx, Hin.
Qed.

Lemma scanBefore_irrefl (p : Position) : ~ scanBefore p p.
Proof. unfold scanBefore; lia. Qed.

Lemma scanBefore_asym (p q : Position) : scanBefore p q -> ~ scanBefore q p.
Proof. unfold scanBefore; lia. Qed.

(** In a scan-sorted list, "at indices [i < j]" is "both in the list and in
    scan order". *)
Lemma sorted_pair_index (d : Position) (l : list Position) (a c : Position) :
  sortedBy scanBefore l ->
  (exists i j, (i < j < length l)%nat /\ nth i l d = a /\ nth j l d = c)
  <-> In a l /\ In c l /\ scanBefore a c.
Proof.
  intros Hs; split.
  - intros (i & j & Hij & <- & <-); repeat split.
    + apply nth_In; lia.
    + apply nth_In; lia.
    + apply sortedBy_nth; assumption.
  - intros (Ha & Hc & Hac).
    destruct (In_nth l a d Ha) as (i & Hi & Ei).
    destruct (In_nth l c d Hc) as (j & Hj & Ej).
    exists i, j; repeat split; auto.
    destruct (Nat.lt_trichotomy i j) as [H|[H|H]]; [exact H| |].
    + subst j; rewrite Ei in Ej; subst c; destruct (scanBefore_irrefl a Hac).
    + exfalso; apply (scanBefore_asym a c Hac).
      rewrite <- Ei, <- Ej; apply sortedBy_nth; [exact Hs|lia].
Qed.

Lemma In_lShapesOf (cs : list Position) (l : LShape) :
  In l (lShapesOf cs)
  <-> exists i j k,
        (i < j < k)%nat /\ (k < length cs)%nat
        /\ l = {| stones := [nth i cs (mkPos 0 0); nth j cs (mkPos 0 0);
                             nth k cs (mkPos 0 0)];
                  type := L |}
        /\ isLShape [nth i cs (mkPos 0 0); nth j cs (mkPos 0 0);
                     nth k cs (mkPos 0 0)] = true.
Proof.
  unfold lShapesOf; cbv zeta; rewrite in_flat_map; split.
  - intros (i & Hi & H); apply in_flat_map in H; destruct H as (j & Hj & H).
    apply in_flat_map in H; destruct H as (k & Hk & H).
    apply in_seq in Hi, Hj, Hk.
    destruct (isLShape _) eqn:E; [|destruct H].
    destruct H as [<-|[]]; exists i, j, k; repeat split; auto; lia.
  - intros (i & j & k & Hijk & Hk & -> & E).
    exists i; split; [apply in_seq; lia|].
    apply in_flat_map; exists j; split; [apply in_seq; lia|].
    apply in_flat_map; exists k; split; [apply in_seq; lia|].
    rewrite E; left; reflexivity.
Qed.

Lemma NoDup_flat_map_keyed {A B : Type} (f : A -> list B) (l : list A) :
  NoDup l ->
  (forall x, In x l -> NoDup (f x)) ->
  (forall x y z, In x l -> In y l -> In z (f x) -> In z (f y) -> x = y) ->
  NoDup (flat_map f l).
Proof.
  induction 1 as [|x xs Hx Hnd IH]; intros Hf Hkey; cbn [flat_map]; [constructor|].
  apply NoDup_app; repeat split.
  - apply Hf; left; reflexivity.
  - apply IH; [intros y Hy; apply Hf; right; exact Hy|].
    intros a c z Ha Hc; apply Hkey; right; assumption.
  - intros z Hz Hz'; apply in_flat_map in Hz'; destruct Hz' as (y & Hy & Hzy).
    apply Hx; replace x with y; [exact Hy|].
    apply (Hkey y x z); auto; [right; exact Hy|left; reflexivity].
Qed.

Lemma NoDup_lShapesOf (cs : list Position) : NoDup cs -> NoDup (lShapesOf cs).
Proof.
  intros Hnd; unfold lShapesOf; cbv zeta.
  assert (Hinj : forall i j, (i < length cs)%nat -> (j < length cs)%nat ->
                   nth i cs (mkPos 0 0) = nth j cs (mkPos 0 0) -> i = j)
    by (apply NoDup_nth; exact Hnd).
  apply NoDup_flat_map_keyed; [apply seq_NoDup| |].
  - intros i Hi; apply in_seq in Hi.
    apply NoDup_flat_map_keyed; [apply seq_NoDup| |].
    + intros j Hj; apply in_seq in Hj.
      apply NoDup_flat_map_keyed; [apply seq_NoDup| |].
      * intros k _; destruct (isLShape _); repeat constructor; intros [].
      * intros k k' z Hk Hk' Hz Hz'; apply in_seq in Hk, Hk'.
        destruct (isLShape [_; _; nth k _ _]); [|destruct Hz].
        destruct (isLShape [_; _; nth k' _ _]); [|destruct Hz'].
        destruct Hz as [<-|[]]; destruct Hz' as [Hz'|[]].
        inversion Hz'; apply Hinj; auto; lia.
    + intros j j' z Hj Hj' Hz Hz'; apply in_seq in Hj, Hj'.
      apply in_flat_map in Hz, Hz'.
      destruct Hz as (k & Hk & Hz), Hz' as (k' & Hk' & Hz').
      destruct (isLShape [_; nth j _ _; _]); [|destruct Hz].
      destruct (isLShape [_; nth j' _ _; _]); [|destruct Hz'].
      destruct Hz as [<-|[]]; destruct Hz' as [Hz'|[]].
      inversion Hz'; apply Hinj; auto; lia.
  - intros i i' z Hi Hi' Hz Hz'; apply in_seq in Hi, Hi'.
    apply in_flat_map in Hz, Hz'.
    destruct Hz as (j & Hj & Hz), Hz' as (j' & Hj' & Hz').
    apply in_flat_map in Hz, Hz'.
    destruct Hz as (k & Hk & Hz), Hz' as (k' & Hk' & Hz').
    destruct (isLShape [nth i _ _; _; _]); [|destruct Hz].
    destruct (isLShape [nth i' _ _; _; _]); [|destruct Hz'].
    destruct Hz as [<-|[]]; destruct Hz' as [Hz'|[]].
    inversion Hz'; apply Hinj; auto; lia.
Qed.

(** C6: on a well-formed board [detectLShapes] returns, without repetition,
    exactly the triples of three conductors of the owner, listed in the order
    of the board scan, of which exactly two of the three pairs are adjacent;
    two positions are adjacent exactly when their Manhattan distance is 1.
    Keystones of the owner are no conductors and take no part. *)
Theorem detectLShapes_exact (b : Board) (owner : Player) :
  wfBoard b ->
  (forall p q, areAdjacent p q = true <-> manhattan p q = 1)
  /\ exists ls,
       detectLShapes b owner = Some ls
       /\ NoDup ls
       /\ forall l,
            In l ls <->
            exists s1 s2 s3,
              l = {| stones := [s1; s2; s3]; type := L |}
              /\ ownConductor b owner s1 /\ ownConductor b owner s2
              /\ ownConductor b owner s3
              /\ scanBefore s1 s2 /\ scanBefore s2 s3
              /\ exactlyTwo (manhattan s1 s2 = 1) (manhattan s2 s3 = 1)
                            (manhattan s1 s3 = 1).
Proof.
  intros Hwf; split; [exact areAdjacent_manhattan|].
  unfold detectLShapes, getConduitStones.
  rewrite (scanBoard_total b _ Hwf); cbn [bind].
  set (cs := filter (fun p => StoneType_eqb (stoneOr b p) (conduitOf owner)) allPositions).
  assert (Hsorted : sortedBy scanBefore cs)
    by (apply sortedBy_filter, allPositions_sorted).
  assert (Hin : forall p, In p cs <-> ownConductor b owner p)
    by (intros p; apply In_scanBoard; exact Hwf).
  clearbody cs.
  exists (lShapesOf cs); split; [reflexivity|]; split.
  { apply NoDup_lShapesOf, (sortedBy_NoDup scanBefore);
      [exact scanBefore_irrefl|exact Hsorted]. }
  intros l; rewrite In_lShapesOf; split.
  - intros (i & j & k & Hijk & Hk & -> & E).
    exists (nth i cs (mkPos 0 0)), (nth j cs (mkPos 0 0)), (nth k cs (mkPos 0 0)).
    split; [reflexivity|].
    split; [apply (proj1 (Hin _)), nth_In; lia|].
    split; [apply (proj1 (Hin _)), nth_In; lia|].
    split; [apply (proj1 (Hin _)), nth_In; lia|].
    split; [apply sortedBy_nth; [exact Hsorted|lia]|].
    split; [apply sortedBy_nth; [exact Hsorted|lia]|].
    apply isLShape_exactlyTwo in E; exact E.
  - intros (s1 & s2 & s3 & -> & H1 & H2 & H3 & H12 & H23 & Hadj).
    apply Hin in H1, H2, H3.
    destruct (proj2 (sorted_pair_index (mkPos 0 0) cs s1 s2 Hsorted))
      as (i & j & Hij & Ei & Ej); [auto|].
    destruct (proj2 (sorted_pair_index (mkPos 0 0) cs s2 s3 Hsorted))
      as (j' & k & Hjk & Ej' & Ek); [auto|].
    assert (j' = j).
    { apply (proj1 (NoDup_nth cs (mkPos 0 0))
               (sortedBy_NoDup scanBefore cs scanBefore_irrefl Hsorted)); try lia.
      congruence. }
    subst j'; exists i, j, k; rewrite Ei, Ej, Ek.
    split; [lia|]; split; [lia|]; split; [reflexivity|].
    apply isLShape_exactlyTwo; exact Hadj.
Qed.

Lemma detectLShapes_exact_witness :
  (forall p q, areAdjacent p q = true <-> manhattan p q = 1)
  /\ exists ls,
       detectLShapes squareBoard black = Some ls
       /\ NoDup ls
       /\ forall l,
            In l ls <->
            exists s1 s2 s3,
              l = {| stones := [s1; s2; s3]; type := L |}
              /\ ownConductor squareBoard black s1
              /\ ownConductor squareBoard black s2
              /\ ownConductor squareBoard black s3
              /\ scanBefore s1 s2 /\ scanBefore s2 s3
              /\ exactlyTwo (manhattan s1 s2 = 1) (manhattan s2 s3 = 1)
                            (manhattan s1 s3 = 1).
Proof.
  apply (detectLShapes_exact squareBoard black).
  vm_compute; reflexivity.
Defined.

(** ** The win check *)

(** *** Combinations are the subsequences of the given length *)

Lemma concatMapM_In {A B : Type} (f : A -> option (list B)) (l : list A)
  (zs : list B) :
  concatMapM f l = Some zs ->
  forall z, In z zs <-> exists x ys, In x l /\ f x = Some ys /\ In z ys.
Proof.
  revert zs; induction l as [|x xs IH]; intros zs H z; cbn [concatMapM] in H.
  - inversion H; subst; split; [intros []|intros (x & ys & [] & _)].
  - apply bind_Some in H; destruct H as (ys & Ey & H).
    apply bind_Some in H; destruct H as (rest & Er & H); inversion H; subst zs.
    rewrite in_app_iff, (IH rest Er z); split.
    + intros [Hz|(x' & ys' & Hx' & E' & Hz)].
      * exists x, ys; split; [left; reflexivity|auto].
      * exists x', ys'; split; [right; exact Hx'|auto].
    + intros (x' & ys' & [<-|Hx'] & E' & Hz).
      * left; congruence.
      * right; exists x', ys'; auto.
Qed.

Lemma subseq_length {A : Type} (c l : list A) :
  subseq c l -> (length c <= length l)%nat.
Proof. induction 1; simpl; lia. Qed.

Lemma subseq_In {A : Type} (c l : list A) (x : A) :
  subseq c l -> In x c -> In x l.
Proof.
  induction 1 as [l|y c l _ IH|y c l _ IH]; intros Hx.
  - destruct Hx.
  - destruct Hx as [<-|Hx]; [left; reflexivity|right; auto].
  - right; auto.
Qed.

Lemma subseq_refl {A : Type} (l : list A) : subseq l l.
Proof. induction l; constructor; assumption. Qed.

Lemma subseq_full {A : Type} (c l : list A) :
  subseq c l -> length c = length l -> c = l.
Proof.
  induction 1 as [l|y c l _ IH|y c l Hs _]; intros Hlen.
  - destruct l; [reflexivity|discriminate].
  - f_equal; apply IH; simpl in Hlen; lia.
  - apply subseq_length in Hs; simpl in Hlen; lia.
Qed.

Lemma subseq_nth_skipn {A : Type} (l : list A) (i : nat) (h : A) (t : list A) :
  nth_error l i = Some h -> subseq t (skipn (S i) l) -> subseq (h :: t) l.
Proof.
  revert i; induction l as [|x xs IH]; intros [|i] Hn Hs; try discriminate.
  - cbn in Hn; inversion Hn; subst; apply subseq_take; exact Hs.
  - apply subseq_skip, (IH i); assumption.
Qed.

Lemma subseq_cons_inv {A : Type} (h : A) (t l : list A) :
  subseq (h :: t) l ->
  exists i, nth_error l i = Some h /\ subseq t (skipn (S i) l).
Proof.
  induction l as [|x xs IH]; intros H; inversion H; subst.
  - exists 0%nat; split; [reflexivity|assumption].
  - destruct (IH H2) as (i & Hn & Hs); exists (S i); auto.
Qed.

Lemma subseq_single {A : Type} (x : A) (l : list A) : subseq [x] l <-> In x l.
Proof.
  split.
  - intros H; apply (subseq_In [x] l x H); left; reflexivity.
  - intros H; apply In_nth_error in H; destruct H as (i & Hi).
    apply (subseq_nth_skipn l i); [exact Hi|constructor].
Qed.

Lemma getCombinations_In {T : Type} (r : nat) :
  forall (array : list T) (cs : list (list T)),
  (1 <= r)%nat ->
  getCombinations array r = Some cs ->
  forall c, In c cs <-> subseq c array /\ length c = r.
Proof.
  induction r as [|r IH]; intros array cs Hr H c; [lia|].
  destruct r as [|r'].
  - cbn in H; inversion H; subst cs; rewrite in_map_iff; split.
    + intros (x & <- & Hx); split; [apply subseq_single; exact Hx|reflexivity].
    + intros [Hs Hl]; destruct c as [|x [|y c]]; try discriminate.
      exists x; split; [reflexivity|apply subseq_single; exact Hs].
  - rewrite getCombinations_S in H.
    replace (Nat.eqb (S (S r')) 1) with false in H by reflexivity.
    destruct (Nat.eqb_spec (S (S r')) (length array)) as [E|Hne].
    + inversion H; subst cs; split.
      * intros [<-|[]]; split; [apply subseq_refl|auto].
      * intros [Hs Hl]; left; symmetry; apply subseq_full; [exact Hs|congruence].
    + rewrite (concatMapM_In _ _ _ H c); split.
      * intros (i & ys & Hi & E & Hc).
        apply bind_Some in E; destruct E as (h & Eh & E).
        apply bind_Some in E; destruct E as (tails & Et & E); inversion E; subst ys.
        apply in_map_iff in Hc; destruct Hc as (t & <- & Ht).
        rewrite Nat.add_1_r in Et.
        apply (IH _ _ ltac:(lia) Et) in Ht; destruct Ht as [Hs Hl].
        split; [apply (subseq_nth_skipn array i); assumption|simpl; lia].
      * intros [Hs Hl]; destruct c as [|h t]; [discriminate|].
        destruct (subseq_cons_inv h t array Hs) as (i & Eh & Ht).
        pose proof (subseq_length _ _ Ht) as Hlen; rewrite length_skipn in Hlen.
        assert (Hi : (i < length array)%nat)
          by (apply nth_error_Some; congruence).
        destruct (getCombinations_total (S r') (skipn (S i) array))
          as (tails & Et & _); [lia|].
        exists i, (map (fun combination => h :: combination) tails).
        split; [apply in_seq; simpl in Hl; lia|]; split.
        -- rewrite Eh; cbn [bind]; rewrite Nat.add_1_r, Et; reflexivity.
        -- apply in_map, (IH _ _ ltac:(lia) Et); split; [exact Ht|simpl in Hl; lia].
Qed.

Lemma someM_true {A : Type} (f : A -> option bool) (l : list A) :
  someM f l = Some true -> exists x, In x l /\ f x = Some true.
Proof.
  induction l as [|x xs IH]; cbn [someM]; intros H; [discriminate|].
  apply bind_Some in H; destruct H as ([|] & E & H).
  - exists x; split; [left; reflexivity|exact E].
  - destruct (IH H) as (y & Hy & Ey); exists y; split; [right; exact Hy|exact Ey].
Qed.

Lemma someM_true_intro {A : Type} (f : A -> option bool) (l : list A) (x : A) :
  Forall (fun y => exists b, f y = Some b) l ->
  In x l -> f x = Some true -> someM f l = Some true.
Proof.
  induction 1 as [|y ys (b & Eb) _ IH]; intros Hx Ex; [destruct Hx|].
  cbn [someM]; rewrite Eb; cbn [bind]; destruct b; [reflexivity|].
  destruct Hx as [->|Hx]; [congruence|apply IH; assumption].
Qed.

(** *** The sort *)

Lemma In_insertBy {A : Type} (key : A -> Z) (x y : A) (l : list A) :
  In y (insertBy key x l) <-> y = x \/ In y l.
Proof.
  induction l as [|z zs IH]; cbn [insertBy].
  - simpl; intuition congruence.
  - destruct (key x <=? key z); simpl; [intuition congruence|].
    rewrite IH; simpl; intuition congruence.
Qed.

Lemma In_sortBy {A : Type} (key : A -> Z) (y : A) (l : list A) :
  In y (sortBy key l) <-> In y l.
Proof.
  unfold sortBy; induction l as [|x xs IH]; cbn [fold_right]; [reflexivity|].
  rewrite In_insertBy, IH; simpl; intuition congruence.
Qed.

Lemma length_insertBy {A : Type} (key : A -> Z) (x : A) (l : list A) :
  length (insertBy key x l) = S (length l).
Proof.
  induction l as [|z zs IH]; cbn [insertBy]; [reflexivity|].
  destruct (key x <=? key z); simpl; congruence.
Qed.

Lemma length_sortBy {A : Type} (key : A -> Z) (l : list A) :
  length (sortBy key l) = length l.
Proof.
  unfold sortBy; induction l as [|x xs IH]; cbn [fold_right]; [reflexivity|].
  rewrite length_insertBy; simpl; congruence.
Qed.

(** A list that is already in order is left as it is. *)
Lemma sortBy_sorted {A : Type} (key : A -> Z) (l : list A) :
  sortedBy (fun x y => key x <= key y) l -> sortBy key l = l.
Proof.
  unfold sortBy; induction 1 as [|x xs Hx _ IH]; cbn [fold_right]; [reflexivity|].
  rewrite IH; destruct xs as [|y ys]; cbn [insertBy]; [reflexivity|].
  inversion Hx; subst.
  destruct (Z.leb_spec (key x) (key y)); [reflexivity|lia].
Qed.

(** *** What [isInLine] accepts *)

Lemma isInLine_true (ps : list Position) :
  ps <> [] ->
  (isInLine ps = Some true
   <-> isHorizontal ps = Some true \/ isVertical ps = Some true \/ isDiagonal ps = true).
Proof.
  destruct ps as [|p0 rest]; [congruence|]; intros _.
  unfold isInLine, isHorizontal, isVertical, arrGet;
    cbn [Z.ltb Z.compare Z.to_nat nth_error bind].
  destruct (forallb _ _ && isConsecutive (map col _));
    [intuition congruence|].
  destruct (forallb _ _ && isConsecutive (map row _));
    [intuition congruence|].
  destruct (isDiagonal (p0 :: rest)); intuition congruence.
Qed.

(** Five numbers that [isConsecutive] accepts are [a, a+1, ..., a+4]. *)
Lemma consecutive_keys (key : Position -> Z) (ps : list Position) :
  length ps = 5%nat ->
  isConsecutive (map key ps) = true ->
  exists a, forall k, 0 <= k < 5 -> exists q, In q ps /\ key q = a + k.
Proof.
  intros Hlen H; unfold isConsecutive in H.
  pose proof (length_sortBy (fun n => n) (map key ps)) as Hl.
  rewrite length_map, Hlen in Hl.
  assert (Hin : forall z, In z (sortBy (fun n => n) (map key ps)) ->
                          exists q, In q ps /\ key q = z).
  { intros z Hz; apply In_sortBy, in_map_iff in Hz.
    destruct Hz as (q & E & Hq); eauto. }
  destruct (sortBy (fun n => n) (map key ps)) as [|a [|b [|c [|d [|e [|]]]]]];
    try discriminate.
  cbn [consecutiveFrom] in H.
  repeat match type of H with
         | (if ?x =? ?y then _ else _) = true =>
             destruct (Z.eqb_spec x y); [|discriminate]
         end.
  exists a; intros k Hk.
  assert (Hcases : k = 0 \/ k = 1 \/ k = 2 \/ k = 3 \/ k = 4) by lia.
  destruct Hcases as [->|[->|[->|[->| ->]]]]; apply Hin; simpl.
  - left; lia.
  - right; left; lia.
  - right; right; left; lia.
  - right; right; right; left; lia.
  - right; right; right; right; left; lia.
Qed.

Lemma forallb_key (key : Position -> Z) (v : Z) (ps : list Position) (q : Position) :
  forallb (fun pos => key pos =? v) ps = true -> In q ps -> key q = v.
Proof.
  intros H Hq; rewrite forallb_forall in H; apply Z.eqb_eq, H, Hq.
Qed.

Lemma horizontal_line (ps : list Position) :
  length ps = 5%nat -> isHorizontal ps = Some true ->
  exists start, forall q, In q (lineOfFive start 0 1) -> In q ps.
Proof.
  intros Hlen H; unfold isHorizontal in H.
  apply bind_Some in H; destruct H as (p0 & _ & H); inversion H as [Hb].
  apply andb_true_iff in Hb; destruct Hb as [Hrow Hcons].
  destruct (consecutive_keys col ps Hlen Hcons) as (a & Ha).
  exists (mkPos (row p0) a); intros q Hq.
  unfold lineOfFive in Hq; apply in_map_iff in Hq; destruct Hq as (k & <- & Hk).
  destruct (Ha k) as (q' & Hq' & Ecol); [simpl in Hk; lia|].
  pose proof (forallb_key row (row p0) ps q' Hrow Hq') as Erow.
  replace (mkPos _ _) with q'; [exact Hq'|].
  destruct q'; cbn [row col] in *; f_equal; lia.
Qed.

Lemma vertical_line (ps : list Position) :
  length ps = 5%nat -> isVertical ps = Some true ->
  exists start, forall q, In q (lineOfFive start 1 0) -> In q ps.
Proof.
  intros Hlen H; unfold isVertical in H.
  apply bind_Some in H; destruct H as (p0 & _ & H); inversion H as [Hb].
  apply andb_true_iff in Hb; destruct Hb as [Hcol Hcons].
  destruct (consecutive_keys row ps Hlen Hcons) as (a & Ha).
  exists (mkPos a (col p0)); intros q Hq.
  unfold lineOfFive in Hq; apply in_map_iff in Hq; destruct Hq as (k & <- & Hk).
  destruct (Ha k) as (q' & Hq' & Erow); [simpl in Hk; lia|].
  pose proof (forallb_key col (col p0) ps q' Hcol Hq') as Ecol.
  replace (mkPos _ _) with q'; [exact Hq'|].
  destruct q'; cbn [row col] in *; f_equal; lia.
Qed.

(** Five positions that pass the index test of a diagonal are the five
    cells from the first one in steps of [(1, dc)]. *)
Lemma everyIdx_line (dc : Z) (sorted : list Position) (first : Position) :
  length sorted = 5%nat ->
  everyIdx (fun pos index => (row pos =? row first + index)
                             && (col pos =? col first + index * dc)) 0 sorted = true ->
  forall q, In q (lineOfFive first 1 dc) -> In q sorted.
Proof.
  intros Hlen H.
  destruct sorted as [|a [|b [|c [|d [|e [|]]]]]]; try discriminate.
  cbn [everyIdx] in H.
  repeat match type of H with
         | (if ?x && ?y then _ else _) = true =>
             destruct x eqn:?; [destruct y eqn:?; [|discriminate]|discriminate];
             cbn [andb] in H
         end.
  repeat match goal with
         | E : (_ =? _) = true |- _ => apply Z.eqb_eq in E
         end.
  intros q Hq; unfold lineOfFive in Hq; cbn [map In] in Hq.
  destruct Hq as [<-|[<-|[<-|[<-|[<-|[]]]]]]; cbn [In].
  - left; destruct a; cbn [row col] in *; f_equal; lia.
  - right; left; destruct b; cbn [row col] in *; f_equal; lia.
  - right; right; left; destruct c; cbn [row col] in *; f_equal; lia.
  - right; right; right; left; destruct d; cbn [row col] in *; f_equal; lia.
  - right; right; right; right; left; destruct e; cbn [row col] in *; f_equal; lia.
Qed.

Lemma everyIdx_ext {A : Type} (f g : A -> Z -> bool) (l : list A) :
  (forall x i, f x i = g x i) -> forall i, everyIdx f i l = everyIdx g i l.
Proof.
  intros H; induction l as [|x xs IH]; intros i; cbn [everyIdx]; [reflexivity|].
  rewrite H, IH; reflexivity.
Qed.

Lemma diagonal_line (ps : list Position) :
  length ps = 5%nat -> isDiagonal ps = true ->
  exists start dc, (dc = 1 \/ dc = -1)
                   /\ forall q, In q (lineOfFive start 1 dc) -> In q ps.
Proof.
  intros Hlen H; unfold isDiagonal, isMainDiagonal in H.
  pose proof (length_sortBy row ps) as Hl; rewrite Hlen in Hl.
  assert (Hin : forall q, In q (sortBy row ps) -> In q ps)
    by (intros q; apply In_sortBy).
  destruct (sortBy row ps) as [|first rest] eqn:Es; [discriminate|].
  match type of H with (if ?m then _ else _) = true => destruct m eqn:Hmain end.
  - exists first, 1; split; [left; reflexivity|]; intros q Hq.
    apply Hin, (everyIdx_line 1 (first :: rest) first Hl); [|exact Hq].
    rewrite <- Hmain; apply everyIdx_ext; intros x i.
    replace (i * 1) with i by lia; reflexivity.
  - unfold isAntiDiagonal in H; cbn [fst] in H.
    pose proof (length_sortBy row (first :: rest)) as Hl'; rewrite Hl in Hl'.
    assert (Hin' : forall q, In q (sortBy row (first :: rest)) -> In q (first :: rest))
      by (intros q; apply In_sortBy).
    destruct (sortBy row (first :: rest)) as [|first' rest']; [discriminate|].
    exists first', (-1); split; [right; reflexivity|]; intros q Hq.
    apply Hin, Hin', (everyIdx_line (-1) (first' :: rest') first' Hl'); [|exact Hq].
    rewrite <- H; apply everyIdx_ext; intros x i.
    replace (col first' + i * -1) with (col first' - i) by lia; reflexivity.
Qed.

(** Five positions in line that [isInLine] accepts, of a list of five. *)
Lemma isInLine_line (ps : list Position) :
  length ps = 5%nat -> isInLine ps = Some true ->
  exists start dr dc,
    lineDirection dr dc /\ forall q, In q (lineOfFive start dr dc) -> In q ps.
Proof.
  intros Hlen H; apply isInLine_true in H; [|intros ->; discriminate].
  destruct H as [H|[H|H]].
  - destruct (horizontal_line ps Hlen H) as (start & Hs).
    exists start, 0, 1; split; [left; auto|exact Hs].
  - destruct (vertical_line ps Hlen H) as (start & Hs).
    exists start, 1, 0; split; [right; left; auto|exact Hs].
  - destruct (diagonal_line ps Hlen H) as (start & dc & [-> | ->] & Hs).
    + exists start, 1, 1; split; [right; right; left; auto|exact Hs].
    + exists start, 1, (-1); split; [right; right; right; auto|exact Hs].
Qed.

(** The five cells of a line, listed from its start, pass [isInLine]. *)
Lemma line_isInLine (start : Position) (dr dc : Z) :
  lineDirection dr dc -> isInLine (lineOfFive start dr dc) = Some true.
Proof.
  intros Hd; apply isInLine_true; [discriminate|].
  unfold lineOfFive; cbn [map].
  destruct Hd as [[-> ->]|[[-> ->]|[[-> ->]|[-> ->]]]].
  - left; unfold isHorizontal, arrGet; cbn [Z.ltb Z.compare Z.to_nat nth_error bind].
    f_equal; apply andb_true_iff; split.
    + cbn [forallb row]; decide_comparisons; reflexivity.
    + unfold isConsecutive; rewrite sortBy_sorted by (cbn [map]; prove_ascending).
      cbn [map col consecutiveFrom]; decide_comparisons; reflexivity.
  - right; left; unfold isVertical, arrGet;
      cbn [Z.ltb Z.compare Z.to_nat nth_error bind].
    f_equal; apply andb_true_iff; split.
    + cbn [forallb col]; decide_comparisons; reflexivity.
    + unfold isConsecutive; rewrite sortBy_sorted by (cbn [map]; prove_ascending).
      cbn [map row consecutiveFrom]; decide_comparisons; reflexivity.
  - right; right; unfold isDiagonal, isMainDiagonal.
    rewrite sortBy_sorted by prove_ascending.
    cbn [everyIdx row col]; decide_comparisons; reflexivity.
  - right; right; unfold isDiagonal, isMainDiagonal, isAntiDiagonal.
    rewrite !sortBy_sorted by prove_ascending.
    cbn [everyIdx row col fst]; decide_comparisons; reflexivity.
Qed.

Lemma line_scan_sorted (start : Position) (dr dc : Z) :
  lineDirection dr dc -> sortedBy scanBefore (lineOfFive start dr dc).
Proof.
  intros Hd; unfold lineOfFive; cbn [map].
  destruct Hd as [[-> ->]|[[-> ->]|[[-> ->]|[-> ->]]]];
    repeat first [ apply sortedBy_nil | apply sortedBy_cons
                 | apply Forall_nil | apply Forall_cons ];
    unfold scanBefore; cbn [row col]; lia.
Qed.

Lemma sorted_incl_subseq (c l : list Position) :
  sortedBy scanBefore c -> sortedBy scanBefore l ->
  (forall x, In x c -> In x l) -> subseq c l.
Proof.
  intros Hc Hl; revert c Hc; induction Hl as [|x l' Hx Hl' IH]; intros c Hc Hincl.
  - destruct c as [|y c']; [constructor|destruct (Hincl y (or_introl eq_refl))].
  - destruct c as [|y c']; [constructor|].
    rewrite Forall_forall in Hx; inversion Hc as [|? ? Hy Hc']; subst.
    rewrite Forall_forall in Hy.
    destruct (isSamePosition y x) eqn:E.
    + apply isSamePosition_eq in E; subst y; apply subseq_take, IH; [exact Hc'|].
      intros z Hz; destruct (Hincl z (or_intror Hz)) as [<-|Hin]; [|exact Hin].
      destruct (scanBefore_irrefl x (Hy x Hz)).
    + assert (Hne : y <> x)
        by (intros ->; rewrite isSamePosition_refl in E; discriminate).
      apply subseq_skip, IH; [exact Hc|].
      intros z Hz; destruct (Hincl z Hz) as [<-|Hin]; [|exact Hin].
      exfalso; destruct Hz as [->|Hz]; [congruence|].
      destruct (Hincl y (or_introl eq_refl)) as [->|Hyl]; [congruence|].
      apply (scanBefore_asym y x); [apply Hy, Hz|apply Hx, Hyl].
Qed.

(** What the win check computes: [checkWinCondition] returns on every
    well-formed board, and it answers [true] exactly when five keystones of
    the player lie on consecutive cells of a row, a column or a diagonal,
    whatever lies before or after them. *)
Lemma checkWinCondition_iff_fiveInLine (b : Board) (p : Player) :
  wfBoard b ->
  (exists w, checkWinCondition b p = Some w)
  /\ (checkWinCondition b p = Some true <-> fiveInLine b p).
Proof.
  intros Hwf; split; [apply checkWinCondition_total; exact Hwf|].
  unfold checkWinCondition, getKeystoneStones.
  rewrite (scanBoard_total b _ Hwf); cbn [bind].
  set (ks := filter (fun q => StoneType_eqb (stoneOr b q) (keystoneOf p)) allPositions).
  assert (Hsorted : sortedBy scanBefore ks)
    by (apply sortedBy_filter, allPositions_sorted).
  assert (Hin : forall q, In q ks <-> ownKeystone b p q)
    by (intros q; apply In_scanBoard; exact Hwf).
  clearbody ks.
  destruct (getCombinations_total 5 ks) as (combos & Ecombos & Hlen5); [lia|].
  pose proof (getCombinations_In 5 ks combos ltac:(lia) Ecombos) as Hcombos.
  rewrite Forall_forall in Hlen5.
  split.
  - destruct (length ks <? 5)%nat; [discriminate|].
    rewrite Ecombos; cbn [bind]; intros H.
    apply someM_true in H; destruct H as (c & Hc & Hline).
    apply Hcombos in Hc; destruct Hc as [Hsub Hlen].
    destruct (isInLine_line c Hlen Hline) as (start & dr & dc & Hd & Hcells).
    exists start, dr, dc; split; [exact Hd|].
    apply Forall_forall; intros q Hq.
    apply Hin, (subseq_In c ks q Hsub), Hcells, Hq.
  - intros (start & dr & dc & Hd & Hcells); rewrite Forall_forall in Hcells.
    assert (Hsub : subseq (lineOfFive start dr dc) ks).
    { apply sorted_incl_subseq; [apply line_scan_sorted; exact Hd|exact Hsorted|].
      intros q Hq; apply Hin, Hcells, Hq. }
    pose proof (subseq_length _ _ Hsub) as Hl; cbn in Hl.
    destruct (Nat.ltb_spec (length ks) 5); [lia|].
    rewrite Ecombos; cbn [bind].
    apply (someM_true_intro isInLine combos (lineOfFive start dr dc)).
    + apply Forall_forall; intros c Hc; apply isInLine_total.
      intros ->; specialize (Hlen5 [] Hc); discriminate.
    + apply Hcombos; split; [exact Hsub|reflexivity].
    + apply line_isInLine; exact Hd.
Qed.

(** C1: on the board whose only black keystones are the six consecutive
    cells (0,0)..(0,5), [checkWinCondition] answers [true]: the five-subset
    (0,0)..(0,4) is in line, and nothing looks at the sixth stone. *)
Theorem checkWinCondition_six_run :
  getKeystoneStones sixRunBoard black
  = Some [mkPos 0 0; mkPos 0 1; mkPos 0 2; mkPos 0 3; mkPos 0 4; mkPos 0 5]
  /\ isInLine [mkPos 0 0; mkPos 0 1; mkPos 0 2; mkPos 0 3; mkPos 0 4] = Some true
  /\ checkWinCondition sixRunBoard black = Some true.
Proof.
  repeat split; vm_compute; reflexivity.
Qed.

(** ** The boards of reachable states *)

Lemma foldM_preserves {A S : Type} (P : S -> Prop) (f : S -> A -> option S) :
  (forall s x s', P s -> f s x = Some s' -> P s') ->
  forall l s s', P s -> foldM f l s = Some s' -> P s'.
Proof.
  intros Hf; induction l as [|x xs IH]; intros s s' Hs H; cbn [foldM] in H.
  - inversion H; subst; exact Hs.
  - apply bind_Some in H; destruct H as (s1 & E1 & H).
    apply (IH s1 s'); [apply (Hf s x s1 Hs E1)|exact H].
Qed.

Lemma updateNotation_wf (move : GameMove) (ub : Board) :
  wfBoard (currentBoard move) -> updateNotation move = Some ub -> wfBoard ub.
Proof.
  unfold updateNotation; apply foldM_preserves.
  intros b pos b' Hwf H; unfold annotateCell in H.
  apply bind_Some in H; destruct H as (cell & _ & H).
  destruct (negb (StoneType_eqb (stoneType cell) empty));
    [|inversion H; subst; exact Hwf].
  destruct (createNotation move pos b); [|inversion H; subst; exact Hwf].
  destruct (notation cell), (moveType move); inversion H;
    apply wfBoard_updCell; exact Hwf.
Qed.

Lemma activateResonance_wf (b : Board) (core : Core) (focus : Position)
  (nb : Board) (paths : list (list Position)) :
  wfBoard b -> activateResonance b core focus = Some (nb, paths) -> wfBoard nb.
Proof.
  intros Hwf H; unfold activateResonance in H.
  apply bind_Some in H; destruct H as (owner & _ & H).
  destruct (resonance_fold core focus owner [up; down; left; right] b [] Hwf)
    as (b' & ps & E & Hwf' & _).
  rewrite E in H; inversion H; subst; exact Hwf'.
Qed.

Lemma boardsOk_completeTurn (move : GameMove) (s s' : GameState) :
  boardsOk s ->
  wfBoard (previousBoard move) -> wfBoard (currentBoard move) ->
  completeTurn move s = Some s' -> boardsOk s'.
Proof.
  intros [_ Hh] Hp Hc H.
  destruct (completeTurn_history move s s' H) as (_ & _ & Hhist).
  unfold completeTurn in H.
  apply bind_Some in H; destruct H as (ub & Eub & H).
  apply bind_Some in H; destruct H as (w & _ & H).
  apply bind_Some in H; destruct H as (s2 & E2 & H).
  apply bind_Some in H; destruct H as (s3 & E3 & H).
  apply updateAvailableMoves_inv in E2; destruct E2 as (v2 & ->).
  apply updateConvertibleStones_inv in E3; destruct E3 as (v3 & ->).
  split.
  - destruct w; inversion H; subst s'; cbn; apply (updateNotation_wf move); assumption.
  - rewrite Hhist; apply Forall_app; split; [exact Hh|repeat constructor; assumption].
Qed.

Lemma boardsOk_move (s : GameState) (i : Z) (m : GameMove) :
  boardsOk s -> arrGet (moveHistory s) i = Some m ->
  wfBoard (previousBoard m) /\ wfBoard (currentBoard m).
Proof.
  intros [_ Hh] H; unfold arrGet in H.
  destruct (i <? 0); [discriminate|].
  apply nth_error_In in H; rewrite Forall_forall in Hh; apply Hh, H.
Qed.

Lemma Forall_slice0 {A : Type} (P : A -> Prop) (l : list A) (e : Z) :
  Forall P l -> Forall P (slice0 l e).
Proof.
  intros H; unfold slice0.
  assert (Hfirst : forall n, Forall P (firstn n l)).
  { intros n; rewrite <- (firstn_skipn n l) in H.
    apply Forall_app in H; tauto. }
  destruct (e <? 0); apply Hfirst.
Qed.

Lemma boardsOk_perform (a : Action) (s s' : GameState) :
  boardsOk s -> perform a s = Some s' -> boardsOk s'.
Proof.
  intros Hok H; pose proof Hok as [Hwf Hh]; destruct a; cbn [perform] in H.
  - (* placeStone *)
    unfold placeStone, writeStone in H.
    destruct (negb match gameStatus s with playing => true | _ => false end
              || isHistoryMode s); [inversion H; subst; exact Hok|].
    apply bind_Some in H; destruct H as (nb & Enb & H).
    apply bind_Some in Enb; destruct Enb as (cell & _ & Enb); inversion Enb; subst nb.
    apply bind_Some in H; destruct H as (cores & _ & H).
    destruct cores as [|core0 rest].
    + revert H; apply boardsOk_completeTurn;
        [exact Hok|exact Hwf|apply wfBoard_updCell; exact Hwf].
    + apply bind_Some in H; destruct H as (ub & Eub & H); inversion H; subst s'.
      split; cbn.
      * apply (updateNotation_wf _ ub) in Eub; [exact Eub|].
        apply wfBoard_updCell; exact Hwf.
      * apply Forall_app; split; [exact Hh|].
        repeat constructor; [exact Hwf|apply wfBoard_updCell; exact Hwf].
  - (* convertLShape *)
    unfold convertLShape, writeStone in H.
    destruct (negb match gameStatus s with playing => true | _ => false end
              || isHistoryMode s); [inversion H; subst; exact Hok|].
    apply bind_Some in H; destruct H as (sp & _ & H).
    apply bind_Some in H; destruct H as (nb & Enb & H).
    apply bind_Some in Enb; destruct Enb as (cell & _ & Enb); inversion Enb; subst nb.
    revert H; apply boardsOk_completeTurn;
      [exact Hok|exact Hwf|apply wfBoard_updCell; exact Hwf].
  - inversion H; subst s'; exact Hok.
  - (* selectFocusPosition *)
    unfold selectFocusPosition in H.
    destruct (selectedCore s) as [core|]; [|inversion H; subst; exact Hok].
    destruct (corePlayer s) as [owner|]; [|inversion H; subst; exact Hok].
    apply bind_Some in H; destruct H as (cell & _ & H).
    apply bind_Some in H; destruct H as ([nb paths] & Eact & H).
    apply bind_Some in H; destruct H as (conv & _ & H).
    apply activateResonance_wf in Eact;
      [|destruct (StoneType_eqb _ _); [apply wfBoard_updCell|]; exact Hwf].
    revert H; apply boardsOk_completeTurn; [destruct conv; exact Hok|exact Hwf|exact Eact].
  - (* activateResonance *)
    unfold activateResonanceAction in H.
    apply bind_Some in H; destruct H as ([nb paths] & Eact & H).
    apply activateResonance_wf in Eact; [|exact Hwf].
    revert H; apply boardsOk_completeTurn; [exact Hok|exact Hwf|exact Eact].
  - inversion H; subst s'; exact Hok.
  - inversion H; subst s'; exact Hok.
  - (* undo *)
    unfold undo in H.
    destruct (isHistoryMode s);
      [destruct (historyIndex s >? 0)
      |destruct (Z.of_nat (length (moveHistory s)) >? 0)];
      try (inversion H; subst; exact Hok);
      apply bind_Some in H; destruct H as (t & Et & H); inversion H; subst s';
      apply (boardsOk_move s) in Et; try exact Hok; split; cbn; tauto.
  - (* redo *)
    unfold redo in H.
    destruct (isHistoryMode s && _); [|inversion H; subst; exact Hok].
    apply bind_Some in H; destruct H as (t & Et & H); inversion H; subst s'.
    apply (boardsOk_move s) in Et; try exact Hok; split; cbn; tauto.
  - (* confirmUndo *)
    unfold confirmUndo in H.
    destruct (isHistoryMode s); [|inversion H; subst; exact Hok].
    apply bind_Some in H; destruct H as (t & _ & H).
    apply bind_Some in H; destruct H as (s2 & E2 & H).
    apply bind_Some in H; destruct H as (s3 & E3 & H).
    apply updateAvailableMoves_inv in E2; destruct E2 as (v2 & ->).
    apply updateConvertibleStones_inv in E3; destruct E3 as (v3 & ->).
    inversion H; subst s'; split; cbn; [exact Hwf|apply Forall_slice0; exact Hh].
  - inversion H; subst s'; split; cbn; [vm_compute; reflexivity|constructor].
  - apply updateAvailableMoves_inv in H; destruct H as (v & ->); exact Hok.
  - apply updateConvertibleStones_inv in H; destruct H as (v & ->); exact Hok.
  - inversion H; subst s'; exact Hok.
  - inversion H; subst s'; exact Hok.
Qed.

(** Every state the store can reach holds 17 x 17 boards only. *)
Lemma reachable_boardsOk (s : GameState) : reachable s -> boardsOk s.
Proof.
  induction 1 as [|a s s' _ IH H].
  - split; cbn; [vm_compute; reflexivity|constructor].
  - exact (boardsOk_perform a s s' IH H).
Qed.

(** * Further properties of the engine *)

(** ** The win check *)

Lemma checkWinCondition_iff_fiveInLine_witness :
  (exists w, checkWinCondition (currentBoard winningMove) black = Some w)
  /\ (checkWinCondition (currentBoard winningMove) black = Some true
      <-> fiveInLine (currentBoard winningMove) black).
Proof.
  apply (checkWinCondition_iff_fiveInLine (currentBoard winningMove) black).
  vm_compute; reflexivity.
Defined.

Lemma NoDup_skipn {A : Type} (n : nat) (l : list A) : NoDup l -> NoDup (skipn n l).
Proof.
  intros H; rewrite <- (firstn_skipn n l) in H.
  apply NoDup_app_remove_l in H; exact H.
Qed.

Lemma In_skipn {A : Type} (n : nat) (l : list A) (x : A) :
  In x (skipn n l) -> In x l.
Proof.
  intros H; rewrite <- (firstn_skipn n l); apply in_or_app; right; exact H.
Qed.

Lemma NoDup_concatMapM {A B : Type} (f : A -> option (list B)) (l : list A)
  (zs : list B) :
  NoDup l ->
  (forall x ys, In x l -> f x = Some ys -> NoDup ys) ->
  (forall x y xs ys z, In x l -> In y l -> f x = Some xs -> f y = Some ys ->
                       In z xs -> In z ys -> x = y) ->
  concatMapM f l = Some zs -> NoDup zs.
Proof.
  intros Hnd; revert zs; induction Hnd as [|x xs Hx _ IH];
    intros zs Hf Hkey H; cbn [concatMapM] in H.
  - inversion H; constructor.
  - apply bind_Some in H; destruct H as (ys & Ey & H).
    apply bind_Some in H; destruct H as (rest & Er & H); inversion H; subst zs.
    apply NoDup_app; repeat split.
    + apply (Hf x); [left; reflexivity|exact Ey].
    + apply IH; [intros y ys' Hy; apply Hf; right; exact Hy| |exact Er].
      intros a c as' cs' z Ha Hc; apply Hkey; right; assumption.
    + intros z Hz Hz'.
      apply (concatMapM_In _ _ _ Er) in Hz'; destruct Hz' as (y & ys' & Hy & Ey' & Hzy).
      apply Hx; replace x with y; [exact Hy|].
      apply (Hkey y x ys' ys z); auto; [right; exact Hy|left; reflexivity].
Qed.

Lemma getCombinations_NoDup {T : Type} (r : nat) :
  forall (array : list T) (cs : list (list T)),
  (1 <= r)%nat -> NoDup array ->
  getCombinations array r = Some cs -> NoDup cs.
Proof.
  induction r as [|r IH]; intros array cs Hr Hnd H; [lia|].
  destruct r as [|r'].
  - cbn in H; inversion H; subst cs.
    clear H; induction Hnd as [|x xs Hx _ IHl]; cbn [map]; constructor; [|exact IHl].
    intros Hin; apply in_map_iff in Hin; destruct Hin as (y & E & Hy).
    inversion E; subst; contradiction.
  - rewrite getCombinations_S in H.
    replace (Nat.eqb (S (S r')) 1) with false in H by reflexivity.
    destruct (Nat.eqb (S (S r')) (length array)).
    + inversion H; repeat constructor; intros [].
    + revert H; apply NoDup_concatMapM; [apply seq_NoDup| |].
      * intros i ys _ E.
        apply bind_Some in E; destruct E as (h & Eh & E).
        apply bind_Some in E; destruct E as (tails & Et & E); inversion E; subst ys.
        apply (IH _ _ ltac:(lia) (NoDup_skipn _ _ Hnd)) in Et.
        clear - Et; induction Et as [|t ts Ht _ IHt]; cbn [map]; constructor; auto.
        intros Hin; apply in_map_iff in Hin; destruct Hin as (t' & E' & Ht').
        inversion E'; subst; contradiction.
      * intros i j xs ys z _ _ Ei Ej Hzi Hzj.
        apply bind_Some in Ei; destruct Ei as (hi & Ehi & Ei).
        apply bind_Some in Ei; destruct Ei as (ti & _ & Ei); inversion Ei; subst xs.
        apply bind_Some in Ej; destruct Ej as (hj & Ehj & Ej).
        apply bind_Some in Ej; destruct Ej as (tj & _ & Ej); inversion Ej; subst ys.
        apply in_map_iff in Hzi, Hzj.
        destruct Hzi as (a & <- & _), Hzj as (c & E & _); inversion E; subst hj.
        apply (proj1 (NoDup_nth_error array) Hnd);
          [apply nth_error_Some; congruence|congruence].
Qed.

(** For [r >= 1], [getCombinations] returns exactly the subsequences of
    [array] with [r] elements: none when the array is shorter than [r], and
    each one once when the array has no repetition. *)
Theorem getCombinations_exact {T : Type} (array : list T) (r : nat) :
  (1 <= r)%nat ->
  exists cs,
    getCombinations array r = Some cs
    /\ (forall c, In c cs <-> subseq c array /\ length c = r)
    /\ ((length array < r)%nat -> cs = [])
    /\ (NoDup array -> NoDup cs).
Proof.
  intros Hr.
  destruct (getCombinations_total r array Hr) as (cs & E & _).
  pose proof (getCombinations_In r array cs Hr E) as Hin.
  exists cs; split; [exact E|]; split; [exact Hin|]; split.
  - intros Hlen; destruct cs as [|c cs']; [reflexivity|exfalso].
    destruct (proj1 (Hin c) (or_introl eq_refl)) as [Hs Hl].
    apply subseq_length in Hs; lia.
  - intros Hnd; apply (getCombinations_NoDup r array cs Hr Hnd E).
Qed.

Lemma getCombinations_exact_witness :
  exists cs,
    getCombinations [1; 2; 3; 4] 2 = Some cs
    /\ (forall c, In c cs <-> subseq c [1; 2; 3; 4] /\ length c = 2%nat)
    /\ ((length [1; 2; 3; 4] < 2)%nat -> cs = [])
    /\ (NoDup [1; 2; 3; 4] -> NoDup cs).
Proof.
  apply (getCombinations_exact [1; 2; 3; 4] 2); lia.
Defined.

(** ** Cores *)

Lemma NoDup_map_injective {A B : Type} (f : A -> B) (l : list A) :
  (forall x y, f x = f y -> x = y) -> NoDup l -> NoDup (map f l).
Proof.
  intros Hinj; induction 1 as [|x xs Hx _ IH]; cbn [map]; constructor; [|exact IH].
  intros Hin; apply in_map_iff in Hin; destruct Hin as (y & E & Hy).
  apply Hinj in E; subst; contradiction.
Qed.

Lemma NoDup_range (n : nat) : NoDup (range n).
Proof.
  unfold range; apply NoDup_map_injective; [|apply seq_NoDup].
  intros x y H; lia.
Qed.

Lemma NoDup_allAnchors : NoDup allAnchors.
Proof.
  unfold allAnchors; apply NoDup_flat_map_keyed; [apply NoDup_range| |].
  - intros r _; apply NoDup_map_injective; [|apply NoDup_range].
    intros x y H; inversion H; reflexivity.
  - intros r r' z _ _ Hz Hz'; apply in_map_iff in Hz, Hz'.
    destruct Hz as (c & <- & _), Hz' as (c' & E & _); inversion E; reflexivity.
Qed.

Lemma NoDup_collectM {A B : Type} (f : A -> option (option B)) (l : list A)
  (ys : list B) :
  NoDup l ->
  (forall x y z, In x l -> In y l ->
                 f x = Some (Some z) -> f y = Some (Some z) -> x = y) ->
  collectM f l = Some ys -> NoDup ys.
Proof.
  intros Hnd; revert ys; induction Hnd as [|x xs Hx Hnd IH];
    intros ys Hkey H; cbn [collectM] in H.
  - inversion H; constructor.
  - apply bind_Some in H; destruct H as (r & Er & H).
    apply bind_Some in H; destruct H as (rest & Erest & H).
    assert (Hrest : NoDup rest).
    { apply IH; [|exact Erest].
      intros a c z Ha Hc; apply Hkey; right; assumption. }
    destruct r as [y|]; inversion H; subst ys; [|exact Hrest].
    constructor; [|exact Hrest]; intros Hin.
    assert (Hall : forall z, In z xs -> exists r, f z = Some r).
    { clear - Erest; revert rest Erest; induction xs as [|a xs IHx];
        intros rest E z Hz; [destruct Hz|].
      cbn [collectM] in E; apply bind_Some in E; destruct E as (r & Er & E).
      apply bind_Some in E; destruct E as (rest' & Erest' & _).
      destruct Hz as [<-|Hz]; [eauto|eapply IHx; eauto]. }
    destruct (collectM_total f xs Hall) as (ys' & E' & Hchar).
    rewrite Erest in E'; inversion E'; subst ys'.
    apply Hchar in Hin; destruct Hin as (x' & Hx' & Ex').
    apply Hx; replace x with x'; [exact Hx'|].
    apply (Hkey x' x y); auto; [right; exact Hx'|left; reflexivity].
Qed.

Lemma ownStone_cell (b : Board) (owner : Player) (q : Position) (cell : BoardCell) :
  wfBoard b -> cellAt b (row q) (col q) = Some cell ->
  (StoneType_eqb (stoneType cell) (conduitOf owner)
   || StoneType_eqb (stoneType cell) (keystoneOf owner) = true
   <-> ownStone b owner q).
Proof.
  intros Hwf Ec; unfold ownStone, stoneAt; rewrite Ec; cbn [option_map].
  rewrite orb_true_iff, !StoneType_eqb_eq; split.
  - intros H; split.
    + apply isValidPosition_iff, (cellAt_range b _ _ cell Hwf Ec).
    + destruct H as [-> | ->]; auto.
  - intros [_ [H|H]]; inversion H; auto.
Qed.

Lemma Forall2_four {A B : Type} (P : A -> B -> Prop) (a1 a2 a3 a4 : A) (l : list B) :
  Forall2 P [a1; a2; a3; a4] l ->
  exists k1 k2 k3 k4, l = [k1; k2; k3; k4] /\ P a1 k1 /\ P a2 k2 /\ P a3 k3 /\ P a4 k4.
Proof.
  intros H.
  inversion H as [|? k1 ? l1 H1 T1]; subst.
  inversion T1 as [|? k2 ? l2 H2 T2]; subst.
  inversion T2 as [|? k3 ? l3 H3 T3]; subst.
  inversion T3 as [|? k4 ? l4 H4 T4]; subst.
  inversion T4; subst.
  exists k1, k2, k3, k4; auto.
Qed.

Lemma coreAtAnchor_iff (b : Board) (owner : Player) (r c : Z) (core : Core) :
  wfBoard b ->
  (coreAtAnchor b owner r c = Some (Some core)
   <-> positions core = squareAt r c
       /\ Forall2 (fun q cell => cellAt b (row q) (col q) = Some cell)
                  (positions core) (core_stones core)
       /\ Forall (ownStone b owner) (positions core)).
Proof.
  intros Hwf; split.
  - intros H; apply coreAtAnchor_cells in H.
    destruct H as (c1 & c2 & c3 & c4 & E1 & E2 & E3 & E4 & Hv & ->).
    cbn [positions core_stones]; split; [reflexivity|]; split.
    + repeat constructor; assumption.
    + unfold isValidCore in Hv; cbn [forallb] in Hv.
      repeat (apply andb_true_iff in Hv; destruct Hv as [?H Hv]).
      apply Forall_cons;
        [apply (proj1 (ownStone_cell b owner (mkPos r c) c1 Hwf E1)); assumption|].
      apply Forall_cons;
        [apply (proj1 (ownStone_cell b owner (mkPos r (c + 1)) c2 Hwf E2)); assumption|].
      apply Forall_cons;
        [apply (proj1 (ownStone_cell b owner (mkPos (r + 1) c) c3 Hwf E3)); assumption|].
      apply Forall_cons;
        [apply (proj1 (ownStone_cell b owner (mkPos (r + 1) (c + 1)) c4 Hwf E4));
         assumption|].
      apply Forall_nil.
  - intros (Hp & Hc & Hown); destruct core as [ps cells]; cbn [positions core_stones] in *.
    subst ps; unfold squareAt in *.
    destruct (Forall2_four _ _ _ _ _ _ Hc) as (k1 & k2 & k3 & k4 & -> & E1 & E2 & E3 & E4).
    cbn [row col] in *.
    unfold coreAtAnchor; rewrite E1, E2, E3, E4; cbn [bind].
    rewrite Forall_forall in Hown.
    assert (O1 := proj2 (ownStone_cell b owner (mkPos r c) k1 Hwf E1)
                    (Hown _ (or_introl eq_refl))).
    assert (O2 := proj2 (ownStone_cell b owner (mkPos r (c + 1)) k2 Hwf E2)
                    (Hown _ (or_intror (or_introl eq_refl)))).
    assert (O3 := proj2 (ownStone_cell b owner (mkPos (r + 1) c) k3 Hwf E3)
                    (Hown _ (or_intror (or_intror (or_introl eq_refl))))).
    assert (O4 := proj2 (ownStone_cell b owner (mkPos (r + 1) (c + 1)) k4 Hwf E4)
                    (Hown _ (or_intror (or_intror (or_intror (or_introl eq_refl)))))).
    unfold isValidCore; cbn [forallb]; rewrite O1, O2, O3, O4; reflexivity.
Qed.

(** On a well-formed board [detectCores] returns, once each, exactly the
    cores of the 2 x 2 squares anchored in rows and columns 0..15 whose four
    cells hold stones of the owner (conductors or keystones); the stones of a
    core are the four cells of the board. *)
Theorem detectCores_exact (b : Board) (owner : Player) :
  wfBoard b ->
  exists cs,
    detectCores b owner = Some cs
    /\ NoDup cs
    /\ forall core,
         In core cs <->
         exists r c,
           0 <= r < 16 /\ 0 <= c < 16
           /\ positions core = squareAt r c
           /\ Forall2 (fun q cell => cellAt b (row q) (col q) = Some cell)
                      (positions core) (core_stones core)
           /\ Forall (ownStone b owner) (positions core).
Proof.
  intros Hwf; destruct (detectCores_total b owner Hwf) as (cs & E & Hchar).
  exists cs; split; [exact E|]; split.
  - unfold detectCores in E; revert E; apply NoDup_collectM; [apply NoDup_allAnchors|].
    intros [r c] [r' c'] z _ _ H H'; cbn [fst snd] in *.
    apply coreAtAnchor_positions in H, H'; rewrite H in H'; inversion H'; reflexivity.
  - intros core; rewrite Hchar; split.
    + intros (r & c & Hr & Hc & H); exists r, c; split; [exact Hr|]; split; [exact Hc|].
      apply (coreAtAnchor_iff b owner r c core Hwf); exact H.
    + intros (r & c & Hr & Hc & H); exists r, c; split; [exact Hr|]; split; [exact Hc|].
      apply (coreAtAnchor_iff b owner r c core Hwf); exact H.
Qed.

Lemma detectCores_exact_witness :
  exists cs,
    detectCores squareBoard black = Some cs
    /\ NoDup cs
    /\ forall core,
         In core cs <->
         exists r c,
           0 <= r < 16 /\ 0 <= c < 16
           /\ positions core = squareAt r c
           /\ Forall2 (fun q cell => cellAt squareBoard (row q) (col q) = Some cell)
                      (positions core) (core_stones core)
           /\ Forall (ownStone squareBoard black) (positions core).
Proof.
  apply (detectCores_exact squareBoard black); vm_compute; reflexivity.
Defined.

Lemma length_collectM {A B : Type} (f : A -> option (option B)) (l : list A)
  (ys : list B) :
  collectM f l = Some ys -> (length ys <= length l)%nat.
Proof.
  revert ys; induction l as [|x xs IH]; intros ys H; cbn [collectM] in H.
  - inversion H; reflexivity.
  - apply bind_Some in H; destruct H as (r & _ & H).
    apply bind_Some in H; destruct H as (rest & Er & H).
    apply IH in Er; destruct r; inversion H; subst; simpl; lia.
Qed.

(** On a well-formed board [detectCoresWithNewStone] returns exactly the
    cores of [detectCores] that contain the position, and at most four. *)
Theorem detectCoresWithNewStone_exact (b : Board) (owner : Player) (pos : Position) :
  wfBoard b ->
  exists full touching,
    detectCores b owner = Some full
    /\ detectCoresWithNewStone b owner pos = Some touching
    /\ (length touching <= 4)%nat
    /\ forall core, In core touching <-> In core full /\ In pos (positions core).
Proof.
  intros Hwf.
  destruct (detectCores_total b owner Hwf) as (full & Ef & Hfull).
  destruct (detectCoresWithNewStone_total b owner pos Hwf) as (touching & Et & Htouch).
  exists full, touching; split; [exact Ef|]; split; [exact Et|]; split.
  - apply (length_collectM _ _ _ Et).
  - intros core; split.
    + intros H; destruct (Htouch core H) as (r & c & Hr & Hc & E & Hin).
      split; [apply Hfull; exists r, c; auto|exact Hin].
    + intros [Hin Hpos]; apply Hfull in Hin; destruct Hin as (r & c & Hr & Hc & E).
      pose proof (coreAtAnchor_positions _ _ _ _ _ E) as Hps.
      unfold detectCoresWithNewStone in Et.
      match type of Et with collectM ?f ?l = _ =>
        destruct (collectM_total f l) as (ys & Ey & Hchar) end.
      { intros [r' c'] _; cbn [fst snd]; unfold BOARD_SIZE.
        destruct ((0 <=? r') && (r' <? 17 - 1) && (0 <=? c') && (c' <? 17 - 1)) eqn:G;
          [|eexists; reflexivity].
        repeat (apply andb_true_iff in G; destruct G as [G ?]).
        apply coreAtAnchor_total; [exact Hwf|lia|lia]. }
      rewrite Et in Ey; inversion Ey; subst ys; apply Hchar.
      exists (r, c); cbn [fst snd]; unfold BOARD_SIZE.
      replace ((0 <=? r) && (r <? 17 - 1) && (0 <=? c) && (c <? 17 - 1)) with true
        by (symmetry; repeat (apply andb_true_iff; split); lia).
      split; [|exact E].
      rewrite Hps in Hpos; destruct pos as [pr pc]; cbn [row col].
      destruct Hpos as [H|[H|[H|[H|[]]]]]; inversion H; subst; cbn [In].
      * left; reflexivity.
      * right; left; f_equal; lia.
      * right; right; left; f_equal; lia.
      * right; right; right; left; f_equal; lia.
Qed.

Lemma detectCoresWithNewStone_exact_witness :
  exists full touching,
    detectCores squareBoard black = Some full
    /\ detectCoresWithNewStone squareBoard black (mkPos 3 4) = Some touching
    /\ (length touching <= 4)%nat
    /\ forall core,
         In core touching <-> In core full /\ In (mkPos 3 4) (positions core).
Proof.
  apply (detectCoresWithNewStone_exact squareBoard black (mkPos 3 4)).
  vm_compute; reflexivity.
Defined.

(** ** Bent triples, again *)

(** [isLShape] holds exactly for three stones of which one is adjacent to
    both others.  Three stones are never adjacent pairwise, and a straight
    row or column of three passes the test like a bent triple does. *)
Theorem isLShape_connected_triple :
  (forall ss,
     isLShape ss = true <->
     exists s1 s2 s3,
       ss = [s1; s2; s3]
       /\ ((adjacent s1 s2 /\ adjacent s2 s3)
           \/ (adjacent s1 s2 /\ adjacent s1 s3)
           \/ (adjacent s2 s3 /\ adjacent s1 s3)))
  /\ (forall s1 s2 s3, ~ (adjacent s1 s2 /\ adjacent s2 s3 /\ adjacent s1 s3))
  /\ (forall r c,
        isLShape [mkPos r c; mkPos r (c + 1); mkPos r (c + 2)] = true
        /\ isLShape [mkPos r c; mkPos (r + 1) c; mkPos (r + 2) c] = true).
Proof.
  assert (Hnever : forall s1 s2 s3,
             ~ (adjacent s1 s2 /\ adjacent s2 s3 /\ adjacent s1 s3)).
  { intros [r1 c1] [r2 c2] [r3 c3]; unfold adjacent, manhattan; cbn [row col]; lia. }
  split; [|split; [exact Hnever|]].
  - intros ss; split.
    + intros H; destruct ss as [|s1 [|s2 [|s3 [|]]]]; try discriminate.
      exists s1, s2, s3; split; [reflexivity|].
      apply isLShape_exactlyTwo in H; unfold exactlyTwo, adjacent in *; tauto.
    + intros (s1 & s2 & s3 & -> & H); apply isLShape_exactlyTwo.
      pose proof (Hnever s1 s2 s3); unfold exactlyTwo, adjacent in *; tauto.
  - intros r c; split; apply isLShape_exactlyTwo; unfold exactlyTwo, manhattan;
      cbn [row col]; lia.
Qed.

(** ** The scans partition the board *)

Lemma filter_stone_lengths {A : Type} (g : A -> StoneType) (l : list A) :
  (length (filter (fun x => StoneType_eqb (g x) empty) l)
   + length (filter (fun x => StoneType_eqb (g x) blackConduit) l)
   + length (filter (fun x => StoneType_eqb (g x) whiteConduit) l)
   + length (filter (fun x => StoneType_eqb (g x) blackKeystone) l)
   + length (filter (fun x => StoneType_eqb (g x) whiteKeystone) l)
   = length l)%nat.
Proof.
  induction l as [|x xs IH]; [reflexivity|].
  cbn [filter]; destruct (g x); cbn [StoneType_eqb length]; lia.
Qed.

Lemma NoDup_insert_middle {A : Type} (x : A) (l1 l2 : list A) :
  NoDup (l1 ++ l2) -> ~ In x (l1 ++ l2) -> NoDup (l1 ++ x :: l2).
Proof.
  intros Hnd Hx; apply (NoDup_Add (Add_app x l1 l2)); split; assumption.
Qed.

Lemma NoDup_insert_five {A : Type} (x : A) (l1 l2 l3 l4 l5 : list A) :
  NoDup (l1 ++ l2 ++ l3 ++ l4 ++ l5) ->
  ~ In x (l1 ++ l2 ++ l3 ++ l4 ++ l5) ->
  NoDup ((x :: l1) ++ l2 ++ l3 ++ l4 ++ l5)
  /\ NoDup (l1 ++ (x :: l2) ++ l3 ++ l4 ++ l5)
  /\ NoDup (l1 ++ l2 ++ (x :: l3) ++ l4 ++ l5)
  /\ NoDup (l1 ++ l2 ++ l3 ++ (x :: l4) ++ l5)
  /\ NoDup (l1 ++ l2 ++ l3 ++ l4 ++ x :: l5).
Proof.
  intros Hnd Hx; repeat split.
  - constructor; assumption.
  - apply (NoDup_insert_middle x l1 (l2 ++ l3 ++ l4 ++ l5)); assumption.
  - replace (l1 ++ l2 ++ (x :: l3) ++ l4 ++ l5)
      with ((l1 ++ l2) ++ x :: (l3 ++ l4 ++ l5))
      by (rewrite <- !app_assoc; reflexivity).
    apply NoDup_insert_middle; rewrite <- !app_assoc; assumption.
  - replace (l1 ++ l2 ++ l3 ++ (x :: l4) ++ l5)
      with ((l1 ++ l2 ++ l3) ++ x :: (l4 ++ l5))
      by (rewrite <- !app_assoc; reflexivity).
    apply NoDup_insert_middle; rewrite <- !app_assoc; assumption.
  - replace (l1 ++ l2 ++ l3 ++ l4 ++ x :: l5)
      with ((l1 ++ l2 ++ l3 ++ l4) ++ x :: l5)
      by (rewrite <- !app_assoc; reflexivity).
    apply NoDup_insert_middle; rewrite <- !app_assoc; assumption.
Qed.

Lemma NoDup_filter_stones {A : Type} (g : A -> StoneType) (l : list A) :
  NoDup l ->
  NoDup (filter (fun x => StoneType_eqb (g x) empty) l
         ++ filter (fun x => StoneType_eqb (g x) blackConduit) l
         ++ filter (fun x => StoneType_eqb (g x) whiteConduit) l
         ++ filter (fun x => StoneType_eqb (g x) blackKeystone) l
         ++ filter (fun x => StoneType_eqb (g x) whiteKeystone) l).
Proof.
  induction 1 as [|x xs Hx _ IH]; [constructor|].
  assert (Hnot : forall t, ~ In x (filter (fun y => StoneType_eqb (g y) t) xs))
    by (intros t Hin; apply filter_In in Hin; tauto).
  assert (Hall : ~ In x (filter (fun y => StoneType_eqb (g y) empty) xs
                         ++ filter (fun y => StoneType_eqb (g y) blackConduit) xs
                         ++ filter (fun y => StoneType_eqb (g y) whiteConduit) xs
                         ++ filter (fun y => StoneType_eqb (g y) blackKeystone) xs
                         ++ filter (fun y => StoneType_eqb (g y) whiteKeystone) xs)).
  { rewrite !in_app_iff; intros [H|[H|[H|[H|H]]]]; exact (Hnot _ H). }
  destruct (NoDup_insert_five x _ _ _ _ _ IH Hall) as (N1 & N2 & N3 & N4 & N5).
  cbn [filter]; destruct (g x); cbn [StoneType_eqb]; assumption.
Qed.

Lemma length_allPositions : length allPositions = 289%nat.
Proof. vm_compute; reflexivity. Qed.

(** On a well-formed board [getEmptyPositions], [getConduitStones] and
    [getKeystoneStones] (for both players) return five lists without
    repetition that together hold each of the 289 positions once: a position
    is in the list of the stone it holds and in no other. *)
Theorem scans_partition_board (b : Board) :
  wfBoard b ->
  exists e cb cw kb kw,
    getEmptyPositions b = Some e
    /\ getConduitStones b black = Some cb
    /\ getConduitStones b white = Some cw
    /\ getKeystoneStones b black = Some kb
    /\ getKeystoneStones b white = Some kw
    /\ (length e + length cb + length cw + length kb + length kw = 289)%nat
    /\ NoDup (e ++ cb ++ cw ++ kb ++ kw)
    /\ forall p,
         (In p e <-> isValidPosition p = true /\ stoneAt b p = Some empty)
         /\ (In p cb <-> isValidPosition p = true /\ stoneAt b p = Some blackConduit)
         /\ (In p cw <-> isValidPosition p = true /\ stoneAt b p = Some whiteConduit)
         /\ (In p kb <-> isValidPosition p = true /\ stoneAt b p = Some blackKeystone)
         /\ (In p kw <-> isValidPosition p = true /\ stoneAt b p = Some whiteKeystone).
Proof.
  intros Hwf.
  unfold getEmptyPositions, getConduitStones, getKeystoneStones.
  rewrite !(scanBoard_total b _ Hwf); cbn [conduitOf keystoneOf].
  pose proof (filter_stone_lengths (stoneOr b) allPositions) as Hlen.
  rewrite length_allPositions in Hlen.
  pose proof (fun t => In_scanBoard b t) as Hin.
  do 5 eexists; repeat (split; [reflexivity|]).
  split; [exact Hlen|]; split.
  - apply NoDup_filter_stones, (sortedBy_NoDup scanBefore);
      [exact scanBefore_irrefl|exact allPositions_sorted].
  - intros p; pose proof (fun t => Hin t p Hwf) as Hp.
    split; [apply Hp|]; split; [apply Hp|]; split; [apply Hp|];
      split; apply Hp.
Qed.

Lemma scans_partition_board_witness :
  exists e cb cw kb kw,
    getEmptyPositions squareBoard = Some e
    /\ getConduitStones squareBoard black = Some cb
    /\ getConduitStones squareBoard white = Some cw
    /\ getKeystoneStones squareBoard black = Some kb
    /\ getKeystoneStones squareBoard white = Some kw
    /\ (length e + length cb + length cw + length kb + length kw = 289)%nat
    /\ NoDup (e ++ cb ++ cw ++ kb ++ kw)
    /\ forall p,
         (In p e <-> isValidPosition p = true /\ stoneAt squareBoard p = Some empty)
         /\ (In p cb <-> isValidPosition p = true
                         /\ stoneAt squareBoard p = Some blackConduit)
         /\ (In p cw <-> isValidPosition p = true
                         /\ stoneAt squareBoard p = Some whiteConduit)
         /\ (In p kb <-> isValidPosition p = true
                         /\ stoneAt squareBoard p = Some blackKeystone)
         /\ (In p kw <-> isValidPosition p = true
                         /\ stoneAt squareBoard p = Some whiteKeystone).
Proof.
  apply (scans_partition_board squareBoard); vm_compute; reflexivity.
Defined.

(** ** The rays of a resonance *)

Lemma propagateLoop_shape (b : Board) (v : Position) (core : Core) (owner : Player) :
  wfBoard b ->
  forall (n : nat) (current : Position) (path : list Position),
  exists extra,
    propagateLoop n b v core owner current path = Some (path ++ extra)
    /\ subseq extra
         (map (fun k => mkPos (row current + Z.of_nat k * row v)
                              (col current + Z.of_nat k * col v)) (seq 1 n))
    /\ pathStones b owner extra.
Proof.
  intros Hwf; induction n as [|n IH]; intros current path.
  - exists []; rewrite app_nil_r; split; [reflexivity|]; split; [constructor|].
    intros [|i] q H; discriminate.
  - cbn [propagateLoop].
    set (next := stepFrom current v).
    assert (Hcells :
      map (fun k => mkPos (row current + Z.of_nat k * row v)
                          (col current + Z.of_nat k * col v)) (seq 1 (S n))
      = next :: map (fun k => mkPos (row next + Z.of_nat k * row v)
                                    (col next + Z.of_nat k * col v)) (seq 1 n)).
    { cbn [seq map]; f_equal; [unfold next, stepFrom; f_equal; lia|].
      rewrite <- seq_shift, map_map; apply map_ext; intros k.
      unfold next, stepFrom; cbn [row col]; f_equal; lia. }
    rewrite Hcells.
    assert (Hnone : exists extra,
              Some path = Some (path ++ extra)
              /\ subseq extra
                   (next :: map (fun k => mkPos (row next + Z.of_nat k * row v)
                                                (col next + Z.of_nat k * col v))
                                (seq 1 n))
              /\ pathStones b owner extra).
    { exists []; rewrite app_nil_r; split; [reflexivity|]; split; [constructor|].
      intros [|i] q H; discriminate. }
    destruct (isValidPosition next) eqn:Hv; cbn [negb]; [|exact Hnone].
    destruct (cellAt_valid b next Hwf Hv) as (cell & Ec); rewrite Ec; cbn [bind].
    assert (Hstone : stoneAt b next = Some (stoneType cell))
      by (unfold stoneAt; rewrite Ec; reflexivity).
    destruct (isPositionInArray next (positions core)); cbn [negb].
    + destruct (IH next path) as (extra & -> & Hsub & Hst).
      exists extra; split; [reflexivity|]; split; [apply subseq_skip; exact Hsub|exact Hst].
    + destruct (StoneType_eqb (stoneType cell) (conduitOf owner)) eqn:E1.
      { apply StoneType_eqb_eq in E1.
        exists [next]; split; [reflexivity|]; split; [apply subseq_take; constructor|].
        intros [|[|i]] q H; cbn in H; inversion H; subst.
        right; split; [congruence|reflexivity]. }
      destruct (StoneType_eqb (stoneType cell) empty) eqn:E2; cbn [negb];
        [|exact Hnone].
      apply StoneType_eqb_eq in E2.
      destruct (IH next (path ++ [next])) as (extra & -> & Hsub & Hst).
      exists (next :: extra); split; [rewrite <- app_assoc; reflexivity|]; split;
        [apply subseq_take; exact Hsub|].
      intros [|i] q H; cbn [nth_error] in H.
      * inversion H; subst; left; congruence.
      * destruct (Hst i q H) as [He|[Hc Hl]]; [left; exact He|right].
        split; [exact Hc|cbn [length]; congruence].
Qed.

(** On a well-formed board [propagateResonance] returns a path of at most
    five cells of the ray, in the order of the ray, all on the board and
    outside the core; every cell of the path is empty on the board, but for
    the last one, which may hold a conductor of the owner. *)
Theorem propagateResonance_path_shape (b : Board) (start : Position) (d : Direction)
  (core : Core) (owner : Player) :
  wfBoard b ->
  exists path,
    propagateResonance b start d core owner = Some path
    /\ subseq path (map (rayCell start d) [1; 2; 3; 4; 5])
    /\ (length path <= 5)%nat
    /\ (forall q, In q path ->
          isValidPosition q = true /\ ~ In q (positions core))
    /\ pathStones b owner path.
Proof.
  intros Hwf.
  destruct (propagateResonance_spec b start d core owner Hwf) as (path & E & Hpath).
  unfold propagateResonance in *.
  destruct (propagateLoop_shape b (directionVectors d) core owner Hwf 5 start [])
    as (extra & E' & Hsub & Hst).
  rewrite E in E'; cbn [app] in E'; inversion E'; subst extra.
  exists path; split; [exact E|]; split; [exact Hsub|]; split.
  - apply subseq_length in Hsub; exact Hsub.
  - split; [|exact Hst].
    rewrite Forall_forall in Hpath; intros q Hq; destruct (Hpath q Hq); tauto.
Qed.

Lemma propagateResonance_path_shape_witness :
  exists path,
    propagateResonance squareBoard (mkPos 3 3) right squareCore black = Some path
    /\ subseq path (map (rayCell (mkPos 3 3) right) [1; 2; 3; 4; 5])
    /\ (length path <= 5)%nat
    /\ (forall q, In q path ->
          isValidPosition q = true /\ ~ In q (positions squareCore))
    /\ pathStones squareBoard black path.
Proof.
  apply (propagateResonance_path_shape squareBoard (mkPos 3 3) right squareCore black).
  vm_compute; reflexivity.
Defined.

Lemma keystone_not_conduit (owner : Player) : keystoneOf owner <> conduitOf owner.
Proof. destruct owner; discriminate. Qed.

Lemma promotedCell_not_again (owner : Player) (c0 : option BoardCell) (cell : BoardCell) :
  promotedCell owner c0 (Some cell) -> stoneType cell <> conduitOf owner.
Proof.
  intros (c & _ & _ & E); inversion E; subst; cbn; apply keystone_not_conduit.
Qed.

Lemma convertOnPath_effect (owner : Player) (path : list Position) (b : Board) :
  wfBoard b ->
  Forall (fun q => isValidPosition q = true) path ->
  exists b',
    foldM (convertOnPath owner) path b = Some b'
    /\ wfBoard b'
    /\ forall r c,
         cellAt b' r c = cellAt b r c
         \/ (promotedCell owner (cellAt b r c) (cellAt b' r c)
             /\ In (mkPos r c) path).
Proof.
  intros Hwf Hpath.
  apply (foldM_invariant
           (fun b' => wfBoard b' /\ forall r c,
                        cellAt b' r c = cellAt b r c
                        \/ (promotedCell owner (cellAt b r c) (cellAt b' r c)
                            /\ In (mkPos r c) path))
           (fun p => isValidPosition p = true /\ In p path)).
  - intros b1 p [Hwf1 Hinv] [Hp Hin]; unfold convertOnPath.
    destruct (cellAt_valid b1 p Hwf1 Hp) as (cell1 & E1); rewrite E1; cbn [bind].
    destruct (StoneType_eqb (stoneType cell1) (conduitOf owner)) eqn:Ec; [|eauto].
    apply StoneType_eqb_eq in Ec.
    eexists; split; [reflexivity|]; split; [apply wfBoard_updCell; exact Hwf1|].
    intros r c; pose proof Hp as Hp'; apply isValidPosition_iff in Hp'.
    rewrite cellAt_updCell by lia.
    destruct ((r =? row p) && (c =? col p)) eqn:E; [|apply Hinv].
    apply andb_true_iff in E; destruct E as [Er Ecol].
    apply Z.eqb_eq in Er, Ecol; subst r c; rewrite E1; cbn [option_map].
    right; destruct (Hinv (row p) (col p)) as [Hsame|[Hprom _]].
    + split; [|destruct p; exact Hin].
      exists cell1; rewrite <- Hsame, E1; auto.
    + rewrite E1 in Hprom; apply promotedCell_not_again in Hprom; contradiction.
  - rewrite Forall_forall in *; intros p Hp; split; [apply Hpath; exact Hp|exact Hp].
  - split; [exact Hwf|]; intros r c; left; reflexivity.
Qed.

Lemma pathStones_conductor_last (b : Board) (owner : Player) (path : list Position)
  (q : Position) :
  pathStones b owner path -> In q path ->
  stoneAt b q = Some (conduitOf owner) ->
  nth_error path (length path - 1) = Some q.
Proof.
  intros Hst Hin Hc; apply In_nth_error in Hin; destruct Hin as (i & Hi).
  destruct (Hst i q Hi) as [He|[_ Hl]].
  - rewrite Hc in He; destruct owner; discriminate.
  - replace (length path - 1)%nat with i by lia; exact Hi.
Qed.

Lemma resonance_fold_effect (core : Core) (focus : Position) (owner : Player)
  (ds : list Direction) :
  forall (b : Board) (paths : list (list Position)),
  wfBoard b ->
  exists b' ps,
    foldM (resonateDirection core focus owner) ds (b, paths) = Some (b', paths ++ ps)
    /\ forall r c,
         cellAt b' r c = cellAt b r c
         \/ (promotedCell owner (cellAt b r c) (cellAt b' r c)
             /\ exists i d path,
                  nth_error ds i = Some d
                  /\ nth_error ps i = Some path
                  /\ nth_error path (length path - 1) = Some (mkPos r c)
                  /\ onRay focus d (mkPos r c)).
Proof.
  induction ds as [|d ds IH]; intros b paths Hwf; cbn [foldM].
  - exists b, []; rewrite app_nil_r; split; [reflexivity|]; intros; left; reflexivity.
  - unfold resonateDirection at 1.
    destruct (propagateResonance_spec b focus d core owner Hwf) as (path & Ep & Hpath).
    destruct (propagateLoop_shape b (directionVectors d) core owner Hwf 5 focus [])
      as (extra & Ee & _ & Hst).
    unfold propagateResonance in Ep; rewrite Ep in Ee; cbn [app] in Ee.
    inversion Ee; subst extra; clear Ee.
    unfold propagateResonance; rewrite Ep; cbn [bind].
    destruct (convertOnPath_effect owner path b Hwf) as (b1 & -> & Hwf1 & Heff).
    { eapply Forall_impl; [|exact Hpath]; intros q (H1 & _); exact H1. }
    cbn [bind].
    destruct (IH b1 (paths ++ [path]) Hwf1) as (b' & ps & -> & Hrest).
    exists b', (path :: ps); rewrite <- app_assoc; split; [reflexivity|].
    rewrite Forall_forall in Hpath.
    assert (Hhere : forall r c,
              promotedCell owner (cellAt b r c) (cellAt b1 r c) ->
              In (mkPos r c) path ->
              nth_error path (length path - 1) = Some (mkPos r c)
              /\ onRay focus d (mkPos r c)).
    { intros r c (cell & Eb & Hc & _) Hin; split; [|apply (Hpath _ Hin)].
      apply (pathStones_conductor_last b owner); [exact Hst|exact Hin|].
      unfold stoneAt; cbn [row col]; rewrite Eb; cbn; congruence. }
    intros r c; destruct (Hrest r c) as [Hsame|[Hprom (i & d' & p' & Hd & Hp & Hl)]].
    + rewrite Hsame; destruct (Heff r c) as [Hs|[Hpr Hin]]; [left; exact Hs|right].
      split; [exact Hpr|]; exists 0%nat, d, path; cbn [nth_error].
      destruct (Hhere r c Hpr Hin); auto.
    + right; destruct (Heff r c) as [Hs|[Hpr _]].
      * rewrite <- Hs; split; [exact Hprom|]; exists (S i), d', p'; auto.
      * exfalso; destruct Hprom as (cell1 & E1 & Hc1 & _).
        rewrite E1 in Hpr; apply promotedCell_not_again in Hpr; contradiction.
Qed.

Lemma nth_error_directions_inv (i : nat) (d : Direction) :
  nth_error [up; down; left; right] i = Some d -> i = directionIndex d.
Proof.
  destruct i as [|[|[|[|i]]]]; cbn; intros H; inversion H; try reflexivity.
  destruct i; discriminate.
Qed.

(** On a well-formed board, for a core whose first stone gives the owner,
    [activateResonance] returns four paths and a board on which every cell is
    as it was, but for conductors of the owner that have become keystones of
    the owner (flags and notation kept): such a cell is the last one of the
    path of its direction, so that each direction converts at most one
    stone. *)
Theorem activateResonance_effect (b : Board) (core : Core) (focus : Position)
  (owner : Player) :
  wfBoard b ->
  corePlayerOf core = Some owner ->
  exists newBoard paths,
    activateResonance b core focus = Some (newBoard, paths)
    /\ length paths = 4%nat
    /\ wfBoard newBoard
    /\ forall r c,
         cellAt newBoard r c = cellAt b r c
         \/ (promotedCell owner (cellAt b r c) (cellAt newBoard r c)
             /\ exists d path,
                  nth_error paths (directionIndex d) = Some path
                  /\ nth_error path (length path - 1) = Some (mkPos r c)
                  /\ onRay focus d (mkPos r c)).
Proof.
  intros Hwf Howner; unfold activateResonance; rewrite Howner; cbn [bind].
  destruct (resonance_fold core focus owner [up; down; left; right] b [] Hwf)
    as (b1 & ps1 & E1 & Hwf1 & Hlen & _).
  destruct (resonance_fold_effect core focus owner [up; down; left; right] b [] Hwf)
    as (b' & ps & E & Heff).
  rewrite E in E1; inversion E1; subst b1 ps1.
  exists b', ps; split; [exact E|]; split; [exact Hlen|]; split; [exact Hwf1|].
  intros r c; destruct (Heff r c) as [Hs|[Hpr (i & d & path & Hd & Hp & Hl)]];
    [left; exact Hs|right].
  split; [exact Hpr|]; exists d, path.
  apply nth_error_directions_inv in Hd; subst i; auto.
Qed.

Lemma activateResonance_effect_witness :
  exists newBoard paths,
    activateResonance squareBoard squareCore (mkPos 4 4) = Some (newBoard, paths)
    /\ length paths = 4%nat
    /\ wfBoard newBoard
    /\ forall r c,
         cellAt newBoard r c = cellAt squareBoard r c
         \/ (promotedCell black (cellAt squareBoard r c) (cellAt newBoard r c)
             /\ exists d path,
                  nth_error paths (directionIndex d) = Some path
                  /\ nth_error path (length path - 1) = Some (mkPos r c)
                  /\ onRay (mkPos 4 4) d (mkPos r c)).
Proof.
  apply (activateResonance_effect squareBoard squareCore (mkPos 4 4) black);
    vm_compute; reflexivity.
Defined.

Lemma collectM_map_eq {A B C : Type} (g : B -> C)
  (f f' : A -> option (option B)) (l : list A) :
  (forall x, In x l ->
     option_map (option_map g) (f' x) = option_map (option_map g) (f x)) ->
  option_map (map g) (collectM f' l) = option_map (map g) (collectM f l).
Proof.
  induction l as [|x xs IH]; intros H; [reflexivity|]; cbn [collectM].
  assert (Hx := H x (or_introl eq_refl)).
  assert (Hxs := IH (fun y Hy => H y (or_intror Hy))).
  destruct (f' x) as [r'|], (f x) as [r|]; cbn in Hx; try discriminate;
    cbn [bind]; [|reflexivity].
  destruct (collectM f' xs) as [rest'|], (collectM f xs) as [rest|];
    cbn in Hxs; try discriminate; cbn [bind option_map]; [|reflexivity].
  inversion Hx as [Hr]; inversion Hxs as [Hrest].
  destruct r' as [y'|], r as [y|]; cbn in Hr; try discriminate; cbn [map];
    congruence.
Qed.

Lemma sameStones_cell (b b' : Board) (r c : Z) (cell : BoardCell) :
  wfBoard b' -> sameStones b b' -> 0 <= r < 17 -> 0 <= c < 17 ->
  cellAt b r c = Some cell ->
  exists cell', cellAt b' r c = Some cell' /\ stoneType cell' = stoneType cell.
Proof.
  intros Hwf Hs Hr Hc E; destruct (cellAt_wf b' r c Hwf Hr Hc) as (cell' & E').
  exists cell'; split; [exact E'|].
  specialize (Hs (mkPos r c)); unfold stoneAt in Hs; cbn [row col] in Hs.
  rewrite E, E' in Hs; cbn in Hs; congruence.
Qed.

Lemma coreAtAnchor_sameStones (b b' : Board) (p : Player) (r c : Z) :
  wfBoard b -> wfBoard b' -> sameStones b b' ->
  0 <= r < 16 -> 0 <= c < 16 ->
  option_map (option_map positions) (coreAtAnchor b' p r c)
  = option_map (option_map positions) (coreAtAnchor b p r c).
Proof.
  intros Hwf Hwf' Hs Hr Hc; unfold coreAtAnchor.
  destruct (cellAt_wf b r c Hwf) as (c1 & E1); [lia|lia|].
  destruct (cellAt_wf b r (c + 1) Hwf) as (c2 & E2); [lia|lia|].
  destruct (cellAt_wf b (r + 1) c Hwf) as (c3 & E3); [lia|lia|].
  destruct (cellAt_wf b (r + 1) (c + 1) Hwf) as (c4 & E4); [lia|lia|].
  destruct (sameStones_cell b b' r c c1 Hwf' Hs) as (d1 & F1 & G1);
    [lia|lia|exact E1|].
  destruct (sameStones_cell b b' r (c + 1) c2 Hwf' Hs) as (d2 & F2 & G2);
    [lia|lia|exact E2|].
  destruct (sameStones_cell b b' (r + 1) c c3 Hwf' Hs) as (d3 & F3 & G3);
    [lia|lia|exact E3|].
  destruct (sameStones_cell b b' (r + 1) (c + 1) c4 Hwf' Hs) as (d4 & F4 & G4);
    [lia|lia|exact E4|].
  rewrite E1, E2, E3, E4, F1, F2, F3, F4; cbn [bind].
  unfold isValidCore; cbn [forallb]; rewrite G1, G2, G3, G4.
  destruct (_ && _); reflexivity.
Qed.

(** The rules read the stones of a board only: two well-formed boards that
    carry the same stones (whatever the notations and the display flags of
    their cells) have the same empty cells, conductors and keystones, the
    same L-shapes, cores on the same positions and the same winner. *)
Theorem rules_read_stones_only (b b' : Board) (p : Player) :
  wfBoard b -> wfBoard b' -> sameStones b b' ->
  getEmptyPositions b' = getEmptyPositions b
  /\ getConduitStones b' p = getConduitStones b p
  /\ getKeystoneStones b' p = getKeystoneStones b p
  /\ detectLShapes b' p = detectLShapes b p
  /\ option_map (map positions) (detectCores b' p)
     = option_map (map positions) (detectCores b p)
  /\ (forall pos,
        option_map (map positions) (detectCoresWithNewStone b' p pos)
        = option_map (map positions) (detectCoresWithNewStone b p pos))
  /\ checkWinCondition b' p = checkWinCondition b p.
Proof.
  intros Hwf Hwf' Hs.
  unfold detectLShapes, getEmptyPositions, getConduitStones, getKeystoneStones.
  rewrite !(scanBoard_sameStones b b') by assumption.
  split; [reflexivity|]; split; [reflexivity|]; split; [reflexivity|].
  split; [reflexivity|]; split; [|split].
  - unfold detectCores; apply collectM_map_eq; intros [r c] Hin.
    apply In_allAnchors in Hin; destruct Hin as [Hr Hc]; cbn [fst snd].
    apply coreAtAnchor_sameStones; assumption.
  - intros pos; unfold detectCoresWithNewStone; apply collectM_map_eq.
    intros [r c] _; cbn [fst snd]; unfold BOARD_SIZE.
    destruct ((0 <=? r) && (r <? 17 - 1) && (0 <=? c) && (c <? 17 - 1)) eqn:E;
      [|reflexivity].
    apply coreAtAnchor_sameStones; try assumption;
      repeat (apply andb_true_iff in E; destruct E as [E ?]); lia.
  - apply checkWinCondition_sameStones; assumption.
Qed.

Lemma rules_read_stones_only_witness :
  getEmptyPositions annotatedSquareBoard = getEmptyPositions squareBoard
  /\ getConduitStones annotatedSquareBoard black = getConduitStones squareBoard black
  /\ getKeystoneStones annotatedSquareBoard black = getKeystoneStones squareBoard black
  /\ detectLShapes annotatedSquareBoard black = detectLShapes squareBoard black
  /\ option_map (map positions) (detectCores annotatedSquareBoard black)
     = option_map (map positions) (detectCores squareBoard black)
  /\ (forall pos,
        option_map (map positions) (detectCoresWithNewStone annotatedSquareBoard black pos)
        = option_map (map positions) (detectCoresWithNewStone squareBoard black pos))
  /\ checkWinCondition annotatedSquareBoard black = checkWinCondition squareBoard black.
Proof.
  apply (rules_read_stones_only squareBoard annotatedSquareBoard black).
  - vm_compute; reflexivity.
  - vm_compute; reflexivity.
  - intros q; apply stoneAt_updCell_withNotation; cbn; lia.
Defined.

Lemma resonance_fold_rays (core : Core) (focus : Position) (owner : Player)
  (ds : list Direction) :
  forall (b : Board) (paths : list (list Position)),
  wfBoard b ->
  exists b' ps,
    foldM (resonateDirection core focus owner) ds (b, paths) = Some (b', paths ++ ps)
    /\ Forall2 (fun d path => Forall (onRay focus d) path) ds ps.
Proof.
  induction ds as [|d ds IH]; intros b paths Hwf; cbn [foldM].
  - exists b, []; rewrite app_nil_r; split; [reflexivity|constructor].
  - unfold resonateDirection at 1.
    destruct (propagateResonance_spec b focus d core owner Hwf) as (path & -> & Hpath).
    cbn [bind].
    destruct (convertOnPath_effect owner path b Hwf) as (b1 & -> & Hwf1 & _).
    { eapply Forall_impl; [|exact Hpath]; intros q (H1 & _); exact H1. }
    cbn [bind].
    destruct (IH b1 (paths ++ [path]) Hwf1) as (b' & ps & -> & Hrest).
    exists b', (path :: ps); rewrite <- app_assoc; split; [reflexivity|].
    constructor; [|exact Hrest].
    eapply Forall_impl; [|exact Hpath]; intros q (_ & _ & H3); exact H3.
Qed.

Lemma existsb_position (target : Position) (path : list Position) :
  existsb (fun pos => (row pos =? row target) && (col pos =? col target)) path = true
  <-> In target path.
Proof.
  rewrite existsb_exists; split.
  - intros (x & Hin & E); apply andb_true_iff in E; destruct E as [Er Ec].
    apply Z.eqb_eq in Er, Ec; destruct x, target; cbn in *; subst; exact Hin.
  - intros Hin; exists target; split; [exact Hin|]; rewrite !Z.eqb_refl; reflexivity.
Qed.

Lemma off_ray_path (focus q : Position) (d d' : Direction) (path : list Position) :
  d <> d' -> onRay focus d q -> Forall (onRay focus d') path ->
  existsb (fun pos => (row pos =? row q) && (col pos =? col q)) path = false.
Proof.
  intros Hd (k & Hk & ->) Hpath.
  destruct (existsb _ path) eqn:E; [|reflexivity]; exfalso.
  apply existsb_position in E; rewrite Forall_forall in Hpath.
  destruct (Hpath _ E) as (k' & Hk' & E').
  apply (ray_disjoint focus d d' k k'); [exact Hd|lia|lia|exact E'].
Qed.

Lemma onRay_not_start (focus q : Position) (d : Direction) :
  onRay focus d q -> (row q =? row focus) && (col q =? col focus) = false.
Proof.
  intros (k & Hk & ->); apply andb_false_iff.
  destruct d; cbn; [left|left|right|right]; apply Z.eqb_neq; lia.
Qed.

(** The arrow that the notation puts on a stone of a resonance path is the
    direction the wave travelled in: for the move that records a resonance
    of [activateResonance], [createNotation] gives the focal stone the
    notation [focus], and a cell of the path of direction [d] the notation
    [resonance] with direction [d]. *)
Theorem resonance_notation_direction (b newBoard anyBoard : Board) (core : Core)
  (focal : Position) (paths : list (list Position)) (move : GameMove) :
  wfBoard b ->
  activateResonance b core focal = Some (newBoard, paths) ->
  moveType move = resonate ->
  resonanceInfo move
  = Some {| r_core := core; focusPosition := focal; resonancePaths := paths |} ->
  createNotation move focal anyBoard
  = Some {| n_moveNumber := moveNumber move; notationType := focus;
            direction := None; secondaryNotation := None |}
  /\ forall d path q,
       nth_error paths (directionIndex d) = Some path -> In q path ->
       createNotation move q anyBoard
       = Some {| n_moveNumber := moveNumber move; notationType := resonance;
                 direction := Some d; secondaryNotation := None |}.
Proof.
  intros Hwf Hact Hty Hinfo; unfold createNotation; rewrite Hty, Hinfo.
  cbn [focusPosition resonancePaths].
  split; [rewrite !Z.eqb_refl; reflexivity|].
  intros d path q Hnth Hin.
  unfold activateResonance in Hact.
  destruct (corePlayerOf core) as [owner|]; [|discriminate]; cbn [bind] in Hact.
  destruct (resonance_fold_rays core focal owner [up; down; left; right] b [] Hwf)
    as (b' & ps & E & Hrays).
  rewrite E in Hact; inversion Hact; subst b' ps; clear Hact E.
  apply Forall2_four in Hrays.
  destruct Hrays as (p0 & p1 & p2 & p3 & -> & H0 & H1 & H2 & H3).
  assert (Hq : onRay focal d q).
  { destruct d; cbn in Hnth; inversion Hnth; subst path;
      [rewrite Forall_forall in H0; apply H0
      |rewrite Forall_forall in H1; apply H1
      |rewrite Forall_forall in H2; apply H2
      |rewrite Forall_forall in H3; apply H3]; exact Hin. }
  rewrite (onRay_not_start focal q d Hq).
  unfold getResonanceDirection; cbn [resonanceDirectionFrom nth_error].
  apply existsb_position in Hin.
  destruct d; cbn in Hnth; inversion Hnth; subst path.
  - rewrite Hin; reflexivity.
  - rewrite (off_ray_path focal q down up p0) by (discriminate || assumption).
    rewrite Hin; reflexivity.
  - rewrite (off_ray_path focal q left up p0) by (discriminate || assumption).
    rewrite (off_ray_path focal q left down p1) by (discriminate || assumption).
    rewrite Hin; reflexivity.
  - rewrite (off_ray_path focal q right up p0) by (discriminate || assumption).
    rewrite (off_ray_path focal q right down p1) by (discriminate || assumption).
    rewrite (off_ray_path focal q right left p2) by (discriminate || assumption).
    rewrite Hin; reflexivity.
Qed.

Lemma resonance_notation_direction_witness :
  createNotation squareResonanceMove (mkPos 4 4) squareBoard
  = Some {| n_moveNumber := moveNumber squareResonanceMove; notationType := focus;
            direction := None; secondaryNotation := None |}
  /\ forall d path q,
       nth_error (snd squareResonance) (directionIndex d) = Some path -> In q path ->
       createNotation squareResonanceMove q squareBoard
       = Some {| n_moveNumber := moveNumber squareResonanceMove;
                 notationType := resonance;
                 direction := Some d; secondaryNotation := None |}.
Proof.
  apply (resonance_notation_direction squareBoard (fst squareResonance) squareBoard
           squareCore (mkPos 4 4) (snd squareResonance) squareResonanceMove);
    vm_compute; reflexivity.
Defined.

(** ** The states of the store *)

Lemma completeTurn_inv (move : GameMove) (s s' : GameState) :
  completeTurn move s = Some s' ->
  exists ub hasWon v1 v2,
    updateNotation move = Some ub
    /\ checkWinCondition ub (currentPlayer s) = Some hasWon
    /\ s' = turnState move ub hasWon v1 v2 s.
Proof.
  unfold completeTurn; intros H.
  apply bind_Some in H; destruct H as (ub & Eub & H).
  apply bind_Some in H; destruct H as (w & Ew & H).
  apply bind_Some in H; destruct H as (s2 & E2 & H).
  apply bind_Some in H; destruct H as (s3 & E3 & H).
  apply updateAvailableMoves_inv in E2; destruct E2 as (v2 & ->).
  apply updateConvertibleStones_inv in E3; destruct E3 as (v3 & ->).
  exists ub, w, v2, v3; split; [exact Eub|]; split; [exact Ew|].
  unfold turnState; destruct w; inversion H; reflexivity.
Qed.

Lemma reachable_run (acts : list Action) :
  forall s s',
  reachable s -> foldM (fun s a => perform a s) acts s = Some s' -> reachable s'.
Proof.
  induction acts as [|a acts IH]; intros s s' Hr H; cbn [foldM] in H.
  - inversion H; subst; exact Hr.
  - apply bind_Some in H; destruct H as (s1 & E1 & H).
    apply (IH s1 s' (reachable_step a s s1 Hr E1) H).
Qed.

Lemma coreAtAnchor_valid (b : Board) (owner : Player) (r c : Z) (core : Core) :
  coreAtAnchor b owner r c = Some (Some core) -> validCoreOn b owner core.
Proof.
  intros Hc; apply coreAtAnchor_cells in Hc.
  destruct Hc as (c1 & c2 & c3 & c4 & E1 & E2 & E3 & E4 & Hv & ->).
  unfold isValidCore in Hv; cbn [forallb] in Hv.
  repeat (apply andb_true_iff in Hv; destruct Hv as [?H Hv]).
  repeat match goal with
         | H : _ || _ = true |- _ => apply ownStone_cases in H
         end.
  split.
  - unfold corePlayerOf; cbn.
    destruct H as [-> | ->]; destruct owner; reflexivity.
  - cbn [positions]; intros q [<-|[<-|[<-|[<-|[]]]]]; cbn [row col]; eauto.
Qed.

Lemma validCoreOn_sameStones (b b' : Board) (owner : Player) (core : Core) :
  wfBoard b -> wfBoard b' -> sameStones b b' ->
  validCoreOn b owner core -> validCoreOn b' owner core.
Proof.
  intros Hwf Hwf' Hs [Hp Hq]; split; [exact Hp|].
  intros q Hin; destruct (Hq q Hin) as (cell & E & Hc).
  destruct (cellAt_range b _ _ _ Hwf E) as [Hr Hcol].
  destruct (sameStones_cell b b' (row q) (col q) cell Hwf' Hs Hr Hcol E)
    as (cell' & E' & Hst).
  exists cell'; split; [exact E'|rewrite Hst; exact Hc].
Qed.

Lemma writeStone_inv (b nb : Board) (p : Position) (t : StoneType) :
  wfBoard b -> writeStone b p t = Some nb ->
  isValidPosition p = true /\ nb = updCell b p (withStone t) /\ wfBoard nb.
Proof.
  unfold writeStone; intros Hwf H.
  apply bind_Some in H; destruct H as (cell & E & H); inversion H; subst nb.
  split; [|split; [reflexivity|apply wfBoard_updCell; exact Hwf]].
  apply isValidPosition_iff; apply (cellAt_range b _ _ cell Hwf E).
Qed.

Lemma updateNotation_inv (move : GameMove) (ub : Board) :
  wfMove move -> updateNotation move = Some ub ->
  wfBoard ub /\ sameStones (currentBoard move) ub.
Proof.
  intros Hm E; destruct (updateNotation_total move Hm) as (ub' & E' & H).
  rewrite E in E'; inversion E'; subst ub'; exact H.
Qed.

Lemma selectionCoherent_perform (a : Action) (s s' : GameState) :
  boardsOk s -> cursorInHistory s ->
  selectionCoherent s /\ movesCounted s ->
  perform a s = Some s' ->
  selectionCoherent s' /\ movesCounted s'.
Proof.
  intros [Hwf _] Hcur [Hcoh Hcnt] H.
  pose proof Hcoh as (Hconv & Hdraw & Hl & Han & Hpl & Hres & Hfoc & Hcp).
  unfold movesCounted in Hcnt.
  destruct a; cbn [perform] in H.
  - (* placeStone *)
    unfold placeStone in H; status_gate H G; [inversion H; subst; auto|].
    apply orb_false_iff in G; destruct G as [G _].
    apply bind_Some in H; destruct H as (nb & Enb & H).
    apply (writeStone_inv _ _ _ _ Hwf) in Enb; destruct Enb as (Hv & -> & Hwfn).
    apply bind_Some in H; destruct H as (cores & Ecores & H).
    destruct (detectCoresWithNewStone_total _ (currentPlayer s) pos Hwfn)
      as (cs & Ecs & Hcs).
    rewrite Ecores in Ecs; inversion Ecs; subst cs; clear Ecs.
    destruct cores as [|core0 rest].
    + apply completeTurn_inv in H; destruct H as (ub & w & v1 & v2 & _ & _ & ->).
      split; [placing_coherent|].
      unfold movesCounted, turnState; destruct w; cbn; rewrite length_app; cbn; lia.
    + apply bind_Some in H; destruct H as (ub & Eub & H); inversion H; subst s'; clear H.
      apply updateNotation_inv in Eub;
        [|split; [exact Hwfn|repeat constructor; exact Hv]].
      destruct Eub as [Hwfu Hsame]; cbn [currentBoard] in Hsame.
      split.
      * unfold selectionCoherent; cbn.
        destruct (gameStatus s); try discriminate.
        repeat split; intros; try discriminate; try reflexivity; try congruence;
          try assumption.
        apply Forall_forall; intros core Hin.
        destruct (Hcs core Hin) as (r & c & _ & _ & Hc & _).
        apply (validCoreOn_sameStones _ ub (currentPlayer s) core Hwfn Hwfu Hsame).
        apply (coreAtAnchor_valid _ _ r c); exact Hc.
      * unfold movesCounted; cbn; rewrite length_app; cbn; lia.
  - (* convertLShape *)
    unfold convertLShape in H; status_gate H G; [inversion H; subst; auto|].
    apply bind_Some in H; destruct H as (sp & _ & H).
    apply bind_Some in H; destruct H as (nb & _ & H).
    apply completeTurn_inv in H; destruct H as (ub & w & v1 & v2 & _ & _ & ->).
    split; [placing_coherent|].
    unfold movesCounted, turnState; destruct w; cbn; rewrite length_app; cbn; lia.
  - (* selectCore *)
    inversion H; subst s'; clear H; split; [|exact Hcnt].
    unfold selectionCoherent; cbn.
    repeat split; intros; try discriminate; try reflexivity; try congruence;
      try assumption.
    apply Hcp; assumption.
  - (* selectFocusPosition *)
    unfold selectFocusPosition in H.
    destruct (selectedCore s) as [core|]; [|inversion H; subst; auto].
    destruct (corePlayer s) as [owner|]; [|inversion H; subst; auto].
    apply bind_Some in H; destruct H as (cell & _ & H).
    apply bind_Some in H; destruct H as ([nb paths] & _ & H).
    apply bind_Some in H; destruct H as (conv & _ & H).
    apply completeTurn_inv in H; destruct H as (ub & w & v1 & v2 & _ & _ & ->).
    split; [destruct conv; placing_coherent|].
    unfold movesCounted, turnState; destruct w, conv; cbn; rewrite length_app;
      cbn; lia.
  - (* activateResonance *)
    unfold activateResonanceAction in H.
    apply bind_Some in H; destruct H as ([nb paths] & _ & H).
    apply completeTurn_inv in H; destruct H as (ub & w & v1 & v2 & _ & _ & ->).
    split; [placing_coherent|].
    unfold movesCounted, turnState; destruct w; cbn; rewrite length_app; cbn; lia.
  - inversion H; subst s'; clear H; auto.
  - inversion H; subst s'; clear H; auto.
  - (* undo *)
    unfold undo in H.
    destruct (isHistoryMode s);
      [destruct (historyIndex s >? 0)
      |destruct (Z.of_nat (length (moveHistory s)) >? 0)];
      try (inversion H; subst; auto; fail);
      apply bind_Some in H; destruct H as (t & _ & H); inversion H; subst s'; clear H;
      (split; [placing_coherent; assumption|exact Hcnt]).
  - (* redo *)
    unfold redo in H.
    destruct (isHistoryMode s && _); [|inversion H; subst; auto].
    apply bind_Some in H; destruct H as (t & _ & H); inversion H; subst s'; clear H.
    split; [placing_coherent; assumption|exact Hcnt].
  - (* confirmUndo *)
    unfold confirmUndo in H.
    destruct (isHistoryMode s) eqn:Hm; [|inversion H; subst; auto].
    specialize (Hcur Hm).
    apply bind_Some in H; destruct H as (t & _ & H).
    apply bind_Some in H; destruct H as (s2 & E2 & H).
    apply bind_Some in H; destruct H as (s3 & E3 & H).
    apply updateAvailableMoves_inv in E2; destruct E2 as (v2 & ->).
    apply updateConvertibleStones_inv in E3; destruct E3 as (v3 & ->).
    inversion H; subst s'; clear H; split; [placing_coherent; assumption|].
    unfold movesCounted; cbn [moveHistory currentMoveIndex addEvent
                               setConvertibleStones setAvailableMoves].
    destruct (length_slice0 (moveHistory s) (historyIndex s + 1)) as [_ ->]; lia.
  - (* resetGame *)
    inversion H; subst s'; clear H; split; [placing_coherent|unfold movesCounted; cbn; lia].
  - apply updateAvailableMoves_inv in H; destruct H as (v & ->); auto.
  - apply updateConvertibleStones_inv in H; destruct H as (v & ->); auto.
  - inversion H; subst s'; clear H; auto.
  - inversion H; subst s'; clear H; auto.
Qed.

(** Every state the store can reach, by any sequence of actions from the
    initial state, holds 17 x 17 boards only (the current one and the
    snapshots of the recorded moves), has the cursor of history mode on a
    recorded move, and has a selection that agrees with its phase: the phase
    is never [converting] and the status never [draw]; no L-shape is ever
    selected; in the phase [placing] nothing is selected; in the phase
    [resonating] the cores to choose from are there, each one valid on the
    board for the player to move, who owns them; a core is selected exactly
    in the phase [selectingFocus]; and the turn counter is the number of
    recorded moves or one less. *)
Theorem store_invariants (s : GameState) :
  reachable s ->
  boardsOk s /\ cursorInHistory s /\ selectionCoherent s /\ movesCounted s.
Proof.
  induction 1 as [|a s s' _ (Hok & Hcur & Hsel) H].
  - split; [split; cbn; [vm_compute; reflexivity|constructor]|].
    split; [intros Hm; cbn in Hm; discriminate|].
    split; [placing_coherent|unfold movesCounted; cbn; lia].
  - split; [exact (boardsOk_perform a s s' Hok H)|].
    split; [exact (cursorInHistory_perform a s s' Hcur H)|].
    exact (selectionCoherent_perform a s s' Hok Hcur Hsel H).
Qed.

Lemma store_invariants_witness :
  boardsOk resonatingState /\ cursorInHistory resonatingState
  /\ selectionCoherent resonatingState /\ movesCounted resonatingState.
Proof.
  apply (store_invariants resonatingState).
  apply (reachable_run squareActions initialState);
    [constructor|vm_compute; reflexivity].
Defined.

Lemma perform_appends (a : Action) (s s' : GameState) :
  perform a s = Some s' ->
  a <> DoConfirmUndo -> a <> DoResetGame ->
  exists ms,
    moveHistory s' = moveHistory s ++ ms
    /\ (length ms <= 1)%nat
    /\ Forall (fun m => previousBoard m = board s
                        /\ moveNumber m = currentMoveIndex s + 1) ms
    /\ currentMoveIndex s' = currentMoveIndex s + Z.of_nat (length ms).
Proof.
  intros H Ha Hr.
  assert (Hkeep : forall t : GameState,
            moveHistory t = moveHistory s -> currentMoveIndex t = currentMoveIndex s ->
            exists ms,
              moveHistory t = moveHistory s ++ ms
              /\ (length ms <= 1)%nat
              /\ Forall (fun m => previousBoard m = board s
                                  /\ moveNumber m = currentMoveIndex s + 1) ms
              /\ currentMoveIndex t = currentMoveIndex s + Z.of_nat (length ms)).
  { intros t E1 E2; exists []; rewrite app_nil_r; cbn.
    repeat split; try constructor; try assumption; lia. }
  destruct a; cbn [perform] in H.
  all: try (exfalso; apply Ha; reflexivity).
  all: try (exfalso; apply Hr; reflexivity).
  all: try (inversion H; subst s'; clear H; apply Hkeep; reflexivity).
  - (* placeStone, moves *)
    unfold placeStone in H; status_gate H G;
      [inversion H; subst; apply Hkeep; reflexivity|].
    apply bind_Some in H; destruct H as (nb & _ & H).
    apply bind_Some in H; destruct H as (cores & _ & H).
    destruct cores as [|core0 rest].
    + apply completeTurn_inv in H; destruct H as (ub & w & v1 & v2 & _ & _ & ->).
      unfold turnState; destruct w; cbn; eexists; (split; [reflexivity|]);
        cbn; repeat split; try (repeat constructor; fail); lia.
    + apply bind_Some in H; destruct H as (ub & _ & H); inversion H; subst s'; clear H.
      cbn; eexists; (split; [reflexivity|]);
        cbn; repeat split; try (repeat constructor; fail); lia.
  - (* convertLShape, moves *)
    unfold convertLShape in H; status_gate H G;
      [inversion H; subst; apply Hkeep; reflexivity|].
    apply bind_Some in H; destruct H as (sp & _ & H).
    apply bind_Some in H; destruct H as (nb & _ & H).
    apply completeTurn_inv in H; destruct H as (ub & w & v1 & v2 & _ & _ & ->).
    unfold turnState; destruct w; cbn; eexists; (split; [reflexivity|]);
      cbn; repeat split; try (repeat constructor; fail); lia.
  - (* selectFocusPosition, moves *)
    unfold selectFocusPosition in H.
    destruct (selectedCore s) as [core|];
      [|inversion H; subst; apply Hkeep; reflexivity].
    destruct (corePlayer s) as [owner|];
      [|inversion H; subst; apply Hkeep; reflexivity].
    apply bind_Some in H; destruct H as (cell & _ & H).
    apply bind_Some in H; destruct H as ([nb paths] & _ & H).
    apply bind_Some in H; destruct H as (conv & _ & H).
    apply completeTurn_inv in H; destruct H as (ub & w & v1 & v2 & _ & _ & ->).
    unfold turnState; destruct w, conv; cbn; eexists; (split; [reflexivity|]);
      cbn; repeat split; try (repeat constructor; fail); lia.
  - (* activateResonance, moves *)
    unfold activateResonanceAction in H.
    apply bind_Some in H; destruct H as ([nb paths] & _ & H).
    apply completeTurn_inv in H; destruct H as (ub & w & v1 & v2 & _ & _ & ->).
    unfold turnState; destruct w; cbn; eexists; (split; [reflexivity|]);
      cbn; repeat split; try (repeat constructor; fail); lia.
  - (* undo, moves *)
    unfold undo in H.
    destruct (isHistoryMode s);
      [destruct (historyIndex s >? 0)
      |destruct (Z.of_nat (length (moveHistory s)) >? 0)];
      try (inversion H; subst; apply Hkeep; reflexivity);
      apply bind_Some in H; destruct H as (t & _ & H); inversion H; subst s';
      apply Hkeep; reflexivity.
  - (* redo, moves *)
    unfold redo in H.
    destruct (isHistoryMode s && _); [|inversion H; subst; apply Hkeep; reflexivity].
    apply bind_Some in H; destruct H as (t & _ & H); inversion H; subst s'.
    apply Hkeep; reflexivity.
  - apply updateAvailableMoves_inv in H; destruct H as (v & ->).
    apply Hkeep; reflexivity.
  - apply updateConvertibleStones_inv in H; destruct H as (v & ->).
    apply Hkeep; reflexivity.
Qed.

(** The record of a game grows at the end only.  Every action but
    [confirmUndo] and [resetGame] keeps the recorded moves and appends at
    most one, whose board before is the board of the state and whose number
    is the turn counter plus one, and it advances the turn counter by the
    number of moves it has appended; [confirmUndo] and [resetGame] leave a
    prefix of the recorded moves.  Every action but [clearEventLog] and
    [resetGame] keeps the events of the log and appends its own. *)
Theorem record_grows_at_the_end (a : Action) (s s' : GameState) :
  perform a s = Some s' ->
  (a <> DoConfirmUndo -> a <> DoResetGame ->
     exists ms,
       moveHistory s' = moveHistory s ++ ms
       /\ (length ms <= 1)%nat
       /\ Forall (fun m => previousBoard m = board s
                           /\ moveNumber m = currentMoveIndex s + 1) ms
       /\ currentMoveIndex s' = currentMoveIndex s + Z.of_nat (length ms))
  /\ (a = DoConfirmUndo \/ a = DoResetGame ->
        exists n, moveHistory s' = firstn n (moveHistory s))
  /\ (a <> DoClearEventLog -> a <> DoResetGame ->
        exists evs, eventLog s' = eventLog s ++ evs).
Proof.
  intros H; split; [exact (perform_appends a s s' H)|].
  assert (Hlog : forall t : GameState,
            eventLog t = eventLog s -> exists evs, eventLog t = eventLog s ++ evs).
  { intros t E; exists []; rewrite app_nil_r; exact E. }
  destruct a; cbn [perform] in H; split.
  all: try (intros [E|E]; discriminate E).
  all: try (intros E; exfalso; apply E; reflexivity).
  all: try (intros _ E; exfalso; apply E; reflexivity).
  all: intros.
  all: try (inversion H; subst s'; clear H;
            first [apply Hlog; reflexivity | cbn; eexists; reflexivity]).
  - (* placeStone, events *)
    unfold placeStone in H; status_gate H G;
      [inversion H; subst; apply Hlog; reflexivity|].
    apply bind_Some in H; destruct H as (nb & _ & H).
    apply bind_Some in H; destruct H as (cores & _ & H).
    destruct cores as [|core0 rest].
    + apply completeTurn_inv in H; destruct H as (ub & w & v1 & v2 & _ & _ & ->).
      unfold turnState; destruct w; cbn; rewrite <- ?app_assoc; eexists; reflexivity.
    + apply bind_Some in H; destruct H as (ub & _ & H); inversion H; subst s'; clear H.
      cbn; rewrite <- ?app_assoc; eexists; reflexivity.
  - (* convertLShape, events *)
    unfold convertLShape in H; status_gate H G;
      [inversion H; subst; apply Hlog; reflexivity|].
    apply bind_Some in H; destruct H as (sp & _ & H).
    apply bind_Some in H; destruct H as (nb & _ & H).
    apply completeTurn_inv in H; destruct H as (ub & w & v1 & v2 & _ & _ & ->).
    unfold turnState; destruct w; cbn; rewrite <- ?app_assoc;
      first [eexists; reflexivity | apply Hlog; reflexivity].
  - (* selectFocusPosition, events *)
    unfold selectFocusPosition in H.
    destruct (selectedCore s) as [core|];
      [|inversion H; subst; apply Hlog; reflexivity].
    destruct (corePlayer s) as [owner|];
      [|inversion H; subst; apply Hlog; reflexivity].
    apply bind_Some in H; destruct H as (cell & _ & H).
    apply bind_Some in H; destruct H as ([nb paths] & _ & H).
    apply bind_Some in H; destruct H as (conv & _ & H).
    apply completeTurn_inv in H; destruct H as (ub & w & v1 & v2 & _ & _ & ->).
    unfold turnState; destruct w, conv; cbn; rewrite <- ?app_assoc;
      eexists; reflexivity.
  - (* activateResonance, events *)
    unfold activateResonanceAction in H.
    apply bind_Some in H; destruct H as ([nb paths] & _ & H).
    apply completeTurn_inv in H; destruct H as (ub & w & v1 & v2 & _ & _ & ->).
    unfold turnState; destruct w; cbn; rewrite <- ?app_assoc;
      first [eexists; reflexivity | apply Hlog; reflexivity].
  - (* undo, events *)
    unfold undo in H.
    destruct (isHistoryMode s);
      [destruct (historyIndex s >? 0)
      |destruct (Z.of_nat (length (moveHistory s)) >? 0)];
      try (inversion H; subst; apply Hlog; reflexivity);
      apply bind_Some in H; destruct H as (t & _ & H); inversion H; subst s';
      apply Hlog; reflexivity.
  - (* redo, events *)
    unfold redo in H.
    destruct (isHistoryMode s && _); [|inversion H; subst; apply Hlog; reflexivity].
    apply bind_Some in H; destruct H as (t & _ & H); inversion H; subst s'.
    apply Hlog; reflexivity.
  - (* confirmUndo, prefix *)
    unfold confirmUndo in H.
    destruct (isHistoryMode s);
      [|inversion H; subst; exists (length (moveHistory s')); symmetry;
        apply firstn_all].
    apply bind_Some in H; destruct H as (t & _ & H).
    apply bind_Some in H; destruct H as (s2 & E2 & H).
    apply bind_Some in H; destruct H as (s3 & E3 & H).
    apply updateAvailableMoves_inv in E2; destruct E2 as (v2 & ->).
    apply updateConvertibleStones_inv in E3; destruct E3 as (v3 & ->).
    inversion H; subst s'; clear H; cbn; unfold slice0.
    destruct (_ <? 0); eexists; reflexivity.
  - (* confirmUndo, events *)
    unfold confirmUndo in H.
    destruct (isHistoryMode s); [|inversion H; subst; apply Hlog; reflexivity].
    apply bind_Some in H; destruct H as (t & _ & H).
    apply bind_Some in H; destruct H as (s2 & E2 & H).
    apply bind_Some in H; destruct H as (s3 & E3 & H).
    apply updateAvailableMoves_inv in E2; destruct E2 as (v2 & ->).
    apply updateConvertibleStones_inv in E3; destruct E3 as (v3 & ->).
    inversion H; subst s'; clear H; cbn; eexists; reflexivity.
  - (* resetGame, prefix *)
    inversion H; subst s'; exists 0%nat; reflexivity.
  - apply updateAvailableMoves_inv in H; destruct H as (v & ->).
    apply Hlog; reflexivity.
  - apply updateConvertibleStones_inv in H; destruct H as (v & ->).
    apply Hlog; reflexivity.
Qed.

Lemma record_grows_at_the_end_witness :
  (DoPlaceStone (mkPos 8 8) <> DoConfirmUndo ->
   DoPlaceStone (mkPos 8 8) <> DoResetGame ->
     exists ms,
       moveHistory firstStoneState = moveHistory initialState ++ ms
       /\ (length ms <= 1)%nat
       /\ Forall (fun m => previousBoard m = board initialState
                           /\ moveNumber m = currentMoveIndex initialState + 1) ms
       /\ currentMoveIndex firstStoneState
          = currentMoveIndex initialState + Z.of_nat (length ms))
  /\ (DoPlaceStone (mkPos 8 8) = DoConfirmUndo
      \/ DoPlaceStone (mkPos 8 8) = DoResetGame ->
        exists n, moveHistory firstStoneState = firstn n (moveHistory initialState))
  /\ (DoPlaceStone (mkPos 8 8) <> DoClearEventLog ->
      DoPlaceStone (mkPos 8 8) <> DoResetGame ->
        exists evs, eventLog firstStoneState = eventLog initialState ++ evs).
Proof.
  apply (record_grows_at_the_end (DoPlaceStone (mkPos 8 8)) initialState
           firstStoneState).
  vm_compute; reflexivity.
Defined.

(** ** Browsing the history *)

Lemma arrGet_last {A : Type} (l : list A) (x : A) :
  arrGet (l ++ [x]) (Z.of_nat (length (l ++ [x])) - 1) = Some x.
Proof.
  unfold arrGet; rewrite length_app; cbn [length].
  destruct (Z.ltb_spec (Z.of_nat (length l + 1) - 1) 0); [lia|].
  replace (Z.to_nat (Z.of_nat (length l + 1) - 1)) with (length l) by lia.
  rewrite nth_error_app2 by lia; rewrite Nat.sub_diag; reflexivity.
Qed.



(** [undo] followed by [confirmUndo], outside history mode with the last
    recorded move [m]: the game goes on from the board before [m] with the
    opponent of the player of [m] to move and the status [playing], and [m]
    is still the last of the recorded moves: none is dropped, while the turn
    counter is one less than their number. *)
Theorem undo_then_confirm (s : GameState) (ms : list GameMove) (m : GameMove) :
  isHistoryMode s = false ->
  moveHistory s = ms ++ [m] ->
  wfBoard (previousBoard m) ->
  exists s1 s2,
    undo s = Some s1
    /\ confirmUndo s1 = Some s2
    /\ board s2 = previousBoard m
    /\ moveHistory s2 = moveHistory s
    /\ currentMoveIndex s2 = Z.of_nat (length (moveHistory s)) - 1
    /\ currentPlayer s2 = otherPlayer (player m)
    /\ gamePhase s2 = placing
    /\ gameStatus s2 = playing
    /\ isHistoryMode s2 = false.
Proof.
  intros Hm Hh Hwf; unfold undo; rewrite Hm, Hh.
  destruct (Z.gtb_spec (Z.of_nat (length (ms ++ [m]))) 0) as [_|Hl];
    [|rewrite length_app in Hl; cbn in Hl; lia].
  rewrite arrGet_last; cbn [bind].
  match goal with |- context [Some ?x = Some _] => exists x end.
  cut (exists s2,
         confirmUndo (showHistory true (Z.of_nat (length (ms ++ [m])) - 1)
                        (previousBoard m) (player m) s) = Some s2
         /\ board s2 = previousBoard m
         /\ moveHistory s2 = ms ++ [m]
         /\ currentMoveIndex s2 = Z.of_nat (length (ms ++ [m])) - 1
         /\ currentPlayer s2 = otherPlayer (player m)
         /\ gamePhase s2 = placing
         /\ gameStatus s2 = playing
         /\ isHistoryMode s2 = false).
  { intros (s2 & H); exists s2; split; [reflexivity|exact H]. }
  unfold confirmUndo;
    cbn [isHistoryMode showHistory historyIndex moveHistory board].
  rewrite Hh, arrGet_last; cbn [bind].
  match goal with |- context [updateAvailableMoves ?x] =>
    destruct (updateAvailableMoves_total x) as (v1 & ->); [exact Hwf|]
  end; cbn [bind].
  match goal with |- context [updateConvertibleStones ?x] =>
    destruct (updateConvertibleStones_total x) as (v2 & ->); [exact Hwf|]
  end; cbn [bind].
  eexists; split; [reflexivity|]; cbn.
  destruct (length_slice0 (ms ++ [m]) (Z.of_nat (length (ms ++ [m])) - 1 + 1))
    as [E _]; [lia|].
  rewrite E.
  replace (Z.to_nat (Z.of_nat (length (ms ++ [m])) - 1 + 1))
    with (length (ms ++ [m])) by lia.
  rewrite firstn_all; repeat split; reflexivity.
Qed.

Lemma undo_then_confirm_witness :
  exists s1 s2,
    undo firstStoneState = Some s1
    /\ confirmUndo s1 = Some s2
    /\ board s2 = previousBoard firstMove
    /\ moveHistory s2 = moveHistory firstStoneState
    /\ currentMoveIndex s2 = Z.of_nat (length (moveHistory firstStoneState)) - 1
    /\ currentPlayer s2 = otherPlayer (player firstMove)
    /\ gamePhase s2 = placing
    /\ gameStatus s2 = playing
    /\ isHistoryMode s2 = false.
Proof.
  apply (undo_then_confirm firstStoneState [] firstMove); vm_compute; reflexivity.
Defined.

(** In history mode the cursor survives [undo] followed by [redo], and
    [redo] followed by [undo], but the board shown at the cursor depends on
    the way the cursor was reached: with the cursor on the move [m], [undo]
    then [redo] (there is an earlier move) shows the board after [m], and
    [redo] then [undo] (there is a later move) shows the board before [m];
    both give the move to the opponent of the player of [m]. *)
Theorem undo_redo_cursor (s : GameState) (m : GameMove) :
  isHistoryMode s = true ->
  arrGet (moveHistory s) (historyIndex s) = Some m ->
  (0 < historyIndex s ->
     exists s1 s2,
       undo s = Some s1 /\ redo s1 = Some s2
       /\ historyIndex s2 = historyIndex s
       /\ board s2 = currentBoard m
       /\ currentPlayer s2 = otherPlayer (player m)
       /\ moveHistory s2 = moveHistory s)
  /\ (historyIndex s < Z.of_nat (length (moveHistory s)) - 1 ->
        exists s1 s2,
          redo s = Some s1 /\ undo s1 = Some s2
          /\ historyIndex s2 = historyIndex s
          /\ board s2 = previousBoard m
          /\ currentPlayer s2 = otherPlayer (player m)
          /\ moveHistory s2 = moveHistory s).
Proof.
  intros Hm Hget; pose proof (arrGet_range _ _ _ Hget) as Hr; split; intros Hi.
  - unfold undo; rewrite Hm.
    destruct (Z.gtb_spec (historyIndex s) 0); [|lia].
    destruct (arrGet_Some (moveHistory s) (historyIndex s - 1)) as (t & ->); [lia|].
    cbn [bind]; eexists; eexists; split; [reflexivity|].
    unfold redo; cbn [isHistoryMode showHistory historyIndex moveHistory andb].
    destruct (Z.ltb_spec (historyIndex s - 1) (Z.of_nat (length (moveHistory s)) - 1));
      [|lia].
    replace (historyIndex s - 1 + 1) with (historyIndex s) by lia.
    rewrite Hget; cbn [bind]; split; [reflexivity|]; cbn; auto.
  - unfold redo; rewrite Hm; cbn [andb].
    destruct (Z.ltb_spec (historyIndex s) (Z.of_nat (length (moveHistory s)) - 1));
      [|lia].
    destruct (arrGet_Some (moveHistory s) (historyIndex s + 1)) as (t & ->); [lia|].
    cbn [bind]; eexists; eexists; split; [reflexivity|].
    unfold undo; cbn [isHistoryMode showHistory historyIndex moveHistory].
    destruct (Z.gtb_spec (historyIndex s + 1) 0); [|lia].
    replace (historyIndex s + 1 - 1) with (historyIndex s) by lia.
    rewrite Hget; cbn [bind]; split; [reflexivity|]; cbn; auto.
Qed.

Lemma undo_redo_cursor_witness :
  (0 < historyIndex browsingState ->
     exists s1 s2,
       undo browsingState = Some s1 /\ redo s1 = Some s2
       /\ historyIndex s2 = historyIndex browsingState
       /\ board s2 = currentBoard browsedMove
       /\ currentPlayer s2 = otherPlayer (player browsedMove)
       /\ moveHistory s2 = moveHistory browsingState)
  /\ (historyIndex browsingState
      < Z.of_nat (length (moveHistory browsingState)) - 1 ->
        exists s1 s2,
          redo browsingState = Some s1 /\ undo s1 = Some s2
          /\ historyIndex s2 = historyIndex browsingState
          /\ board s2 = previousBoard browsedMove
          /\ currentPlayer s2 = otherPlayer (player browsedMove)
          /\ moveHistory s2 = moveHistory browsingState).
Proof.
  apply (undo_redo_cursor browsingState browsedMove); vm_compute; reflexivity.
Defined.

(** ** No action throws *)

Lemma corePlayerOf_total (core : Core) :
  core_stones core <> [] -> exists owner, corePlayerOf core = Some owner.
Proof.
  unfold corePlayerOf; destruct (core_stones core) as [|c0 cs]; [contradiction|].
  intros _; cbn; eauto.
Qed.

Lemma activateResonance_total (b : Board) (core : Core) (focal : Position) :
  wfBoard b -> core_stones core <> [] ->
  exists nb paths,
    activateResonance b core focal = Some (nb, paths)
    /\ wfBoard nb
    /\ Forall (Forall (fun q => isValidPosition q = true)) paths.
Proof.
  intros Hwf Hne; destruct (corePlayerOf_total core Hne) as (owner & Eo).
  unfold activateResonance; rewrite Eo; cbn [bind].
  destruct (resonance_fold core focal owner [up; down; left; right] b [] Hwf)
    as (b' & ps & E & Hwf' & _ & Hval & _).
  exists b', ps; auto.
Qed.

Lemma arrGet_In {A : Type} (l : list A) (i : Z) (x : A) :
  arrGet l i = Some x -> In x l.
Proof.
  unfold arrGet; destruct (i <? 0); [discriminate|]; apply nth_error_In.
Qed.

Lemma selectFocusPosition_total (pos : Position) (s : GameState) :
  wfBoard (board s) ->
  isValidPosition pos = true ->
  (forall core, selectedCore s = Some core -> core_stones core <> []) ->
  exists s', selectFocusPosition pos s = Some s'.
Proof.
  intros Hwf Hv Hcore; unfold selectFocusPosition.
  destruct (selectedCore s) as [core|]; [|eauto].
  destruct (corePlayer s) as [owner|]; [|eauto].
  destruct (cellAt_valid (board s) pos Hwf Hv) as (cell & ->); cbn [bind].
  set (b1 := if StoneType_eqb (stoneType cell) (conduitOf owner)
             then updCell (board s) pos (withStone (keystoneOf owner))
             else board s).
  assert (Hwf1 : wfBoard b1).
  { unfold b1; destruct (StoneType_eqb _ _); [apply wfBoard_updCell|]; exact Hwf. }
  destruct (activateResonance_total b1 core pos Hwf1 (Hcore core eq_refl))
    as (nb & paths & -> & Hwfn & Hval); cbn [bind].
  match goal with |- context [convertedOnPaths (board s) nb paths ?acc] =>
    destruct (convertedOnPaths_total (board s) nb paths acc Hwf Hwfn Hval)
      as (conv & ->)
  end; cbn [bind].
  match goal with |- context [completeTurn ?m ?s2] =>
    destruct (completeTurn_total m s2) as (ub & w & s' & _ & _ & _ & _ & E & _)
  end.
  { split; [exact Hwfn|]; unfold affectedPositions; cbn.
    apply Forall_affected_paths; [repeat constructor; exact Hv|exact Hval]. }
  exists s'; exact E.
Qed.

(** No action throws in a state the store can reach, when its arguments are
    usable: every action returns a state. *)
Theorem actions_return (s : GameState) (a : Action) :
  reachable s -> validAction s a -> exists s', perform a s = Some s'.
Proof.
  intros Hr Hva.
  pose proof (reachable_boardsOk s Hr) as Hok.
  pose proof (reachable_cursorInHistory s Hr) as Hcur.
  pose proof Hok as [Hwf Hh].
  destruct a; cbn [perform validAction] in *; eauto.
  - (* placeStone *)
    destruct (gameStatus s) eqn:Gs;
      try (unfold placeStone; rewrite Gs; cbn; eauto; fail).
    destruct (isHistoryMode s) eqn:Gm;
      [unfold placeStone; rewrite Gs, Gm; cbn; eauto|].
    destruct (placeStone_places s pos Gs Gm Hwf Hva) as (s' & E & _); eauto.
  - (* convertLShape *)
    destruct Hva as [(p & Ep) Hst]; unfold convertLShape.
    destruct (negb _ || _); [eauto|].
    rewrite Ep; cbn [bind].
    assert (Hp : isValidPosition p = true).
    { rewrite Forall_forall in Hst; apply Hst, (arrGet_In _ stoneIndex); exact Ep. }
    unfold writeStone.
    destruct (cellAt_valid (board s) p Hwf Hp) as (cell & ->); cbn [bind].
    match goal with |- context [completeTurn ?m ?s2] =>
      destruct (completeTurn_total m s2) as (ub & w & s' & _ & _ & _ & _ & E & _)
    end.
    { split; [apply wfBoard_updCell; exact Hwf|]; unfold affectedPositions; cbn.
      constructor; assumption. }
    exists s'; exact E.
  - (* selectCore *)
    unfold selectCore; eauto.
  - (* selectFocusPosition *)
    destruct Hva as [Hv Hcore]; apply selectFocusPosition_total; assumption.
  - (* activateResonance *)
    destruct Hva as [Hv Hne]; unfold activateResonanceAction.
    destruct (activateResonance_total (board s) core focusPos Hwf Hne)
      as (nb & paths & -> & Hwfn & Hval); cbn [bind].
    match goal with |- context [completeTurn ?m ?s2] =>
      destruct (completeTurn_total m s2) as (ub & w & s' & _ & _ & _ & _ & E & _)
    end.
    { split; [exact Hwfn|]; unfold affectedPositions; cbn.
      apply Forall_affected_paths; [repeat constructor; exact Hv|exact Hval]. }
    exists s'; exact E.
  - unfold setHoveredPosition; eauto.
  - unfold toggleNotationMode; eauto.
  - (* undo *)
    unfold undo; unfold cursorInHistory in Hcur.
    destruct (isHistoryMode s).
    + specialize (Hcur eq_refl).
      destruct (Z.gtb_spec (historyIndex s) 0); [|eauto].
      destruct (arrGet_Some (moveHistory s) (historyIndex s - 1)) as (t & ->);
        [lia|cbn; eauto].
    + destruct (Z.gtb_spec (Z.of_nat (length (moveHistory s))) 0); [|eauto].
      destruct (arrGet_Some (moveHistory s) (Z.of_nat (length (moveHistory s)) - 1))
        as (t & ->); [lia|cbn; eauto].
  - (* redo *)
    unfold redo; unfold cursorInHistory in Hcur.
    destruct (isHistoryMode s); cbn [andb]; [|eauto].
    specialize (Hcur eq_refl).
    destruct (Z.ltb_spec (historyIndex s) (Z.of_nat (length (moveHistory s)) - 1));
      [|eauto].
    destruct (arrGet_Some (moveHistory s) (historyIndex s + 1)) as (t & ->);
      [lia|cbn; eauto].
  - (* confirmUndo *)
    unfold confirmUndo; unfold cursorInHistory in Hcur.
    destruct (isHistoryMode s); [|eauto].
    specialize (Hcur eq_refl).
    destruct (arrGet_Some (moveHistory s) (historyIndex s)) as (t & ->); [lia|].
    cbn [bind].
    match goal with |- context [updateAvailableMoves ?x] =>
      destruct (updateAvailableMoves_total x) as (v1 & ->); [exact Hwf|]
    end; cbn [bind].
    match goal with |- context [updateConvertibleStones ?x] =>
      destruct (updateConvertibleStones_total x) as (v2 & ->); [exact Hwf|]
    end; cbn [bind]; eauto.
  - unfold resetGame; eauto.
  - destruct (updateAvailableMoves_total s Hwf) as (v & ->); eauto.
  - destruct (updateConvertibleStones_total s Hwf) as (v & ->); eauto.
  - unfold clearEventLog; eauto.
Qed.

Lemma actions_return_witness :
  exists s', perform (DoPlaceStone (mkPos 5 5)) resonatingState = Some s'.
Proof.
  apply (actions_return resonatingState (DoPlaceStone (mkPos 5 5))).
  - apply (reachable_run squareActions initialState);
      [constructor|vm_compute; reflexivity].
  - vm_compute; reflexivity.
Defined.

(** ** What the moves do to the stones *)

Lemma placeStone_run (s : GameState) (pos : Position) :
  gameStatus s = playing ->
  isHistoryMode s = false ->
  wfBoard (board s) ->
  isValidPosition pos = true ->
  exists cores s',
    detectCoresWithNewStone
      (updCell (board s) pos (withStone (conduitOf (currentPlayer s))))
      (currentPlayer s) pos = Some cores
    /\ placeStone pos s = Some s'
    /\ wfBoard (board s')
    /\ (forall q, stoneAt (board s') q
                  = if isSamePosition q pos then Some (conduitOf (currentPlayer s))
                    else stoneAt (board s) q)
    /\ length (moveHistory s') = S (length (moveHistory s))
    /\ match cores with
       | [] => currentPlayer s' = otherPlayer (currentPlayer s)
               /\ gamePhase s' = placing
       | _ :: _ => currentPlayer s' = currentPlayer s
                   /\ gamePhase s' = resonating
                   /\ gameStatus s' = playing
                   /\ selectedCores s' = cores
                   /\ selectedCore s' = None
                   /\ corePlayer s' = Some (currentPlayer s)
       end.
Proof.
  intros Hst Hmode Hwf Hp; unfold placeStone; rewrite Hst, Hmode; cbn [negb orb].
  unfold writeStone.
  destruct (cellAt_valid (board s) pos Hwf Hp) as (cell & ->); cbn [bind].
  assert (Hstones : forall q,
            stoneAt (updCell (board s) pos (withStone (conduitOf (currentPlayer s)))) q
            = if isSamePosition q pos then Some (conduitOf (currentPlayer s))
              else stoneAt (board s) q).
  { intros q; apply stoneAt_updCell_withStone; assumption. }
  set (newBoard := updCell (board s) pos (withStone (conduitOf (currentPlayer s))))
    in *.
  assert (Hwf' : wfBoard newBoard) by (apply wfBoard_updCell; exact Hwf).
  destruct (detectCoresWithNewStone_total newBoard (currentPlayer s) pos Hwf')
    as (cores & Ec & _).
  cbn [currentPlayer addEvent]; rewrite Ec; cbn [bind].
  match goal with |- context [updateNotation ?m] => set (move := m) end.
  assert (Hm : wfMove move).
  { split; [exact Hwf'|]. repeat constructor; exact Hp. }
  exists cores; destruct cores as [|core0 rest].
  - match goal with |- context [completeTurn move ?s1] =>
      destruct (completeTurn_total move s1 Hm)
        as (ub & w & s' & _ & Hwfu & Hs & _ & E & Hb & Hcp & Hph & _ & Hh & _) end.
    exists s'; split; [reflexivity|]; split; [exact E|].
    split; [rewrite Hb; exact Hwfu|].
    split; [intros q; rewrite Hb, (Hs q); apply Hstones|].
    split; [rewrite Hh, length_app; cbn; lia|].
    split; [exact Hcp|exact Hph].
  - destruct (updateNotation_total move Hm) as (ub & -> & Hwfu & Hs); cbn [bind].
    eexists; split; [reflexivity|]; split; [reflexivity|].
    cbn [board moveHistory currentPlayer gamePhase gameStatus selectedCores
         selectedCore corePlayer addEvent].
    split; [exact Hwfu|].
    split; [intros q; rewrite (Hs q); apply Hstones|].
    split; [rewrite length_app; cbn; lia|].
    repeat split; exact Hst.
Qed.

(** [placeStone] with the game running and history mode off, on a position
    of the board: the board of the state returned carries the stones of the
    board before with the conductor of the player to move on the position,
    and one move more is recorded.  When the new stone closes no square of
    stones of the player, the turn passes to the opponent in the phase
    [placing]; when it closes one, the player keeps the turn: the phase is
    [resonating], the cores that contain the new stone are offered for
    selection, the player owns them, and the game is still running (there
    is no win check before the resonance). *)
Theorem placeStone_outcome (s : GameState) (pos : Position) :
  gameStatus s = playing ->
  isHistoryMode s = false ->
  wfBoard (board s) ->
  isValidPosition pos = true ->
  exists cores s',
    detectCoresWithNewStone
      (updCell (board s) pos (withStone (conduitOf (currentPlayer s))))
      (currentPlayer s) pos = Some cores
    /\ placeStone pos s = Some s'
    /\ (forall q, stoneAt (board s') q
                  = if isSamePosition q pos then Some (conduitOf (currentPlayer s))
                    else stoneAt (board s) q)
    /\ length (moveHistory s') = S (length (moveHistory s))
    /\ (cores = [] ->
          currentPlayer s' = otherPlayer (currentPlayer s)
          /\ gamePhase s' = placing)
    /\ (cores <> [] ->
          currentPlayer s' = currentPlayer s
          /\ gamePhase s' = resonating
          /\ gameStatus s' = playing
          /\ selectedCores s' = cores
          /\ selectedCore s' = None
          /\ corePlayer s' = Some (currentPlayer s)).
Proof.
  intros Hst Hmode Hwf Hp.
  destruct (placeStone_run s pos Hst Hmode Hwf Hp)
    as (cores & s' & Ec & E & _ & Hstones & Hlen & Hcase).
  exists cores, s'; split; [exact Ec|]; split; [exact E|].
  split; [exact Hstones|]; split; [exact Hlen|].
  destruct cores as [|core0 rest]; split; intros Hc;
    try discriminate; try contradiction; exact Hcase.
Qed.

Lemma placeStone_outcome_witness :
  exists cores s',
    detectCoresWithNewStone
      (updCell (board beforeSquareState) (mkPos 4 4)
               (withStone (conduitOf (currentPlayer beforeSquareState))))
      (currentPlayer beforeSquareState) (mkPos 4 4) = Some cores
    /\ placeStone (mkPos 4 4) beforeSquareState = Some s'
    /\ (forall q, stoneAt (board s') q
                  = if isSamePosition q (mkPos 4 4)
                    then Some (conduitOf (currentPlayer beforeSquareState))
                    else stoneAt (board beforeSquareState) q)
    /\ length (moveHistory s') = S (length (moveHistory beforeSquareState))
    /\ (cores = [] ->
          currentPlayer s' = otherPlayer (currentPlayer beforeSquareState)
          /\ gamePhase s' = placing)
    /\ (cores <> [] ->
          currentPlayer s' = currentPlayer beforeSquareState
          /\ gamePhase s' = resonating
          /\ gameStatus s' = playing
          /\ selectedCores s' = cores
          /\ selectedCore s' = None
          /\ corePlayer s' = Some (currentPlayer beforeSquareState)).
Proof.
  apply (placeStone_outcome beforeSquareState (mkPos 4 4)); vm_compute; reflexivity.
Defined.

Lemma stoneAt_mk (b : Board) (q : Position) :
  option_map stoneType (cellAt b (row q) (col q)) = stoneAt b q.
Proof. reflexivity. Qed.

Lemma board_turnState (move : GameMove) (ub : Board) (w : bool)
  (v1 v2 : list Position) (s : GameState) :
  board (turnState move ub w v1 v2 s) = ub.
Proof. unfold turnState; destruct w; reflexivity. Qed.

Lemma selectFocusPosition_stones (pos : Position) (s s' : GameState) :
  wfBoard (board s) ->
  selectFocusPosition pos s = Some s' ->
  wfBoard (board s')
  /\ forall q,
       stoneAt (board s') q = stoneAt (board s) q
       \/ exists p,
            stoneAt (board s) q = Some (conduitOf p)
            /\ stoneAt (board s') q = Some (keystoneOf p)
            /\ (q = pos \/ exists d, onRay pos d q).
Proof.
  intros Hwf H; unfold selectFocusPosition in H.
  destruct (selectedCore s) as [core|];
    [|inversion H; subst; split; [exact Hwf|intros; left; reflexivity]].
  destruct (corePlayer s) as [owner|];
    [|inversion H; subst; split; [exact Hwf|intros; left; reflexivity]].
  apply bind_Some in H; destruct H as (cell & Ecell & H).
  apply bind_Some in H; destruct H as ([nb paths] & Eact & H).
  apply bind_Some in H; destruct H as (conv & _ & H).
  assert (Hv : isValidPosition pos = true).
  { apply isValidPosition_iff, (cellAt_range (board s) _ _ cell Hwf Ecell). }
  set (b1 := if StoneType_eqb (stoneType cell) (conduitOf owner)
             then updCell (board s) pos (withStone (keystoneOf owner))
             else board s) in *.
  assert (Hwf1 : wfBoard b1).
  { unfold b1; destruct (StoneType_eqb _ _); [apply wfBoard_updCell|]; exact Hwf. }
  assert (Hb1 : forall q,
            stoneAt b1 q = stoneAt (board s) q
            \/ (q = pos /\ stoneAt (board s) q = Some (conduitOf owner)
                /\ stoneAt b1 q = Some (keystoneOf owner))).
  { intros q; unfold b1.
    destruct (StoneType_eqb (stoneType cell) (conduitOf owner)) eqn:Ec;
      [|left; reflexivity].
    apply StoneType_eqb_eq in Ec.
    rewrite stoneAt_updCell_withStone by assumption.
    destruct (isSamePosition q pos) eqn:Eq; [|left; reflexivity].
    apply isSamePosition_eq in Eq; subst q; right.
    split; [reflexivity|]; split; [|reflexivity].
    unfold stoneAt; rewrite Ecell; cbn; congruence. }
  clearbody b1.
  unfold activateResonance in Eact.
  apply bind_Some in Eact; destruct Eact as (owner' & _ & Eact).
  destruct (resonance_fold core pos owner' [up; down; left; right] b1 [] Hwf1)
    as (b' & ps & E & Hwfn & _ & Hval & _).
  destruct (resonance_fold_effect core pos owner' [up; down; left; right] b1 [] Hwf1)
    as (b'' & ps' & E' & Heff).
  rewrite E in E'; inversion E'; subst b'' ps'; clear E'.
  rewrite E in Eact; inversion Eact; subst b' ps; clear Eact E.
  apply completeTurn_inv in H; destruct H as (ub & w & v1 & v2 & Eub & _ & ->).
  apply updateNotation_inv in Eub.
  2:{ split; [exact Hwfn|]; unfold affectedPositions; cbn.
      apply Forall_affected_paths; [repeat constructor; exact Hv|exact Hval]. }
  destruct Eub as [Hwfu Hsame]; cbn [currentBoard] in Hsame.
  rewrite board_turnState; split; [exact Hwfu|].
  intros q; rewrite (Hsame q).
  destruct (Heff (row q) (col q)) as [Hk|[(c0 & Ec0 & Hc0 & Ec1) (i & d & path & _ & _ & _ & Hray)]].
  - apply (f_equal (option_map stoneType)) in Hk; rewrite !stoneAt_mk in Hk.
    rewrite Hk; destruct (Hb1 q) as [Hq|(-> & Hq1 & Hq2)]; [left; exact Hq|].
    right; exists owner; auto.
  - replace (mkPos (row q) (col q)) with q in Hray by (destruct q; reflexivity).
    right; exists owner'.
    assert (Hne : q <> pos).
    { intros ->; apply onRay_not_start in Hray.
      rewrite !Z.eqb_refl in Hray; discriminate. }
    destruct (Hb1 q) as [Hq|(-> & _)]; [|contradiction].
    split; [rewrite <- Hq; unfold stoneAt; rewrite Ec0; cbn; congruence|].
    split; [unfold stoneAt; rewrite Ec1; reflexivity|right; exists d; exact Hray].
Qed.

(** A resonance only promotes: [selectFocusPosition], with a core selected
    whose owner is known, on a position of the board, returns a state, and
    on its board every position holds the stone it held, but for conductors
    that have become keystones of their own colour, each of them the focal
    stone or a cell of one of the four rays from it.  No stone is removed,
    added or given to the other colour, and no keystone goes back to a
    conductor. *)
Theorem resonance_only_promotes (s : GameState) (pos : Position) (core : Core)
  (owner : Player) :
  wfBoard (board s) ->
  isValidPosition pos = true ->
  selectedCore s = Some core ->
  corePlayer s = Some owner ->
  core_stones core <> [] ->
  exists s',
    selectFocusPosition pos s = Some s'
    /\ forall q,
         stoneAt (board s') q = stoneAt (board s) q
         \/ exists p,
              stoneAt (board s) q = Some (conduitOf p)
              /\ stoneAt (board s') q = Some (keystoneOf p)
              /\ (q = pos \/ exists d, onRay pos d q).
Proof.
  intros Hwf Hv Hsel Hown Hne.
  destruct (selectFocusPosition_total pos s Hwf Hv) as (s' & E).
  { intros core' Hc; rewrite Hsel in Hc; inversion Hc; subst; exact Hne. }
  exists s'; split; [exact E|].
  apply (selectFocusPosition_stones pos s s' Hwf E).
Qed.

Lemma resonance_only_promotes_witness :
  exists s',
    selectFocusPosition (mkPos 3 3) focusState = Some s'
    /\ forall q,
         stoneAt (board s') q = stoneAt (board focusState) q
         \/ exists p,
              stoneAt (board focusState) q = Some (conduitOf p)
              /\ stoneAt (board s') q = Some (keystoneOf p)
              /\ (q = mkPos 3 3 \/ exists d, onRay (mkPos 3 3) d q).
Proof.
  apply (resonance_only_promotes focusState (mkPos 3 3) focusCore black);
    try (vm_compute; reflexivity).
  vm_compute; discriminate.
Defined.

Lemma GamePhase_eqb_eq (a b : GamePhase) : GamePhase_eqb a b = true <-> a = b.
Proof. destruct a, b; cbn; split; intros H; congruence. Qed.

(** A click on a cell of the board never removes or replaces a stone.
    [handleClick], on the cell at a position of the board, returns a state,
    and on its board every position holds the stone it held, but for the
    clicked position when the phase is [placing] and the position was empty
    (it holds the conductor of the player to move), and, when the phase is
    [selectingFocus], for conductors that have become keystones of their own
    colour. *)
Theorem handleClick_respects_stones (cell : BoardCell) (pos : Position)
  (s : GameState) :
  wfBoard (board s) ->
  cellAt (board s) (row pos) (col pos) = Some cell ->
  (forall core, selectedCore s = Some core -> core_stones core <> []) ->
  exists s',
    handleClick cell pos s = Some s'
    /\ forall q,
         stoneAt (board s') q = stoneAt (board s) q
         \/ (q = pos /\ gamePhase s = placing
             /\ stoneAt (board s) q = Some empty
             /\ stoneAt (board s') q = Some (conduitOf (currentPlayer s)))
         \/ (gamePhase s = selectingFocus
             /\ exists p,
                  stoneAt (board s) q = Some (conduitOf p)
                  /\ stoneAt (board s') q = Some (keystoneOf p)).
Proof.
  intros Hwf Ecell Hcores.
  assert (Hv : isValidPosition pos = true).
  { apply isValidPosition_iff, (cellAt_range (board s) _ _ cell Hwf Ecell). }
  assert (Hsame : exists s', Some s = Some s'
            /\ forall q,
                 stoneAt (board s') q = stoneAt (board s) q
                 \/ (q = pos /\ gamePhase s = placing
                     /\ stoneAt (board s) q = Some empty
                     /\ stoneAt (board s') q = Some (conduitOf (currentPlayer s)))
                 \/ (gamePhase s = selectingFocus
                     /\ exists p,
                          stoneAt (board s) q = Some (conduitOf p)
                          /\ stoneAt (board s') q = Some (keystoneOf p))).
  { exists s; split; [reflexivity|]; intros q; left; reflexivity. }
  unfold handleClick.
  destruct (GamePhase_eqb (gamePhase s) placing
            && StoneType_eqb (stoneType cell) empty && isAvailable pos s) eqn:C1.
  - apply andb_true_iff in C1; destruct C1 as [C1 _].
    apply andb_true_iff in C1; destruct C1 as [Cp Ce].
    apply GamePhase_eqb_eq in Cp; apply StoneType_eqb_eq in Ce.
    destruct (gameStatus s) eqn:Gs;
      try (unfold placeStone; rewrite Gs; cbn [negb orb]; exact Hsame).
    destruct (isHistoryMode s) eqn:Gm;
      [unfold placeStone; rewrite Gs, Gm; cbn [negb orb]; exact Hsame|].
    destruct (placeStone_run s pos Gs Gm Hwf Hv)
      as (cores & s' & _ & E & _ & Hst & _).
    exists s'; split; [exact E|]; intros q; rewrite (Hst q).
    destruct (isSamePosition q pos) eqn:Eq; [|left; reflexivity].
    apply isSamePosition_eq in Eq; subst q; right; left.
    repeat split; try assumption.
    unfold stoneAt; rewrite Ecell; cbn; congruence.
  - destruct (GamePhase_eqb (gamePhase s) resonating
              && negb (StoneType_eqb (stoneType cell) empty)).
    + destruct (find _ (selectedCores s)); [|exact Hsame].
      unfold selectCore; eexists; split; [reflexivity|].
      intros q; left; reflexivity.
    + destruct (GamePhase_eqb (gamePhase s) selectingFocus
                && negb (StoneType_eqb (stoneType cell) empty)) eqn:C3;
        [|exact Hsame].
      apply andb_true_iff in C3; destruct C3 as [Cp _].
      apply GamePhase_eqb_eq in Cp.
      destruct (selectedCore s) as [core|] eqn:Esel; [|exact Hsame].
      destruct (somePosition pos (positions core)); [|exact Hsame].
      destruct (selectFocusPosition_total pos s Hwf Hv) as (s' & E).
      { intros core' Hc; rewrite Esel in Hc; apply Hcores; exact Hc. }
      exists s'; split; [exact E|].
      destruct (selectFocusPosition_stones pos s s' Hwf E) as [_ Hst].
      intros q; destruct (Hst q) as [Hk|(p & H1 & H2 & _)]; [left; exact Hk|].
      right; right; split; [exact Cp|exists p; auto].
Qed.

Lemma handleClick_respects_stones_witness :
  exists s',
    handleClick (emptyCell 8 8) (mkPos 8 8) readyState = Some s'
    /\ forall q,
         stoneAt (board s') q = stoneAt (board readyState) q
         \/ (q = mkPos 8 8 /\ gamePhase readyState = placing
             /\ stoneAt (board readyState) q = Some empty
             /\ stoneAt (board s') q = Some (conduitOf (currentPlayer readyState)))
         \/ (gamePhase readyState = selectingFocus
             /\ exists p,
                  stoneAt (board readyState) q = Some (conduitOf p)
                  /\ stoneAt (board s') q = Some (keystoneOf p)).
Proof.
  apply (handleClick_respects_stones (emptyCell 8 8) (mkPos 8 8) readyState).
  - vm_compute; reflexivity.
  - vm_compute; reflexivity.
  - intros core H; vm_compute in H; discriminate.
Defined.

(** [convertLShape] checks nothing about the L-shape it is given.  With the
    game running and history mode off, for any triple of positions of the
    board and an index into it, it returns a state whose board carries the
    stones of the board before with the keystone of the player to move on
    the indexed position, whatever that position held (nothing, a stone of
    the opponent, a keystone) and whatever the shape of the triple; the move
    is recorded and the turn passes to the opponent. *)
Theorem convertLShape_unchecked (s : GameState) (l : LShape) (i : Z) (p : Position) :
  gameStatus s = playing ->
  isHistoryMode s = false ->
  wfBoard (board s) ->
  arrGet (stones l) i = Some p ->
  Forall (fun q => isValidPosition q = true) (stones l) ->
  exists s',
    convertLShape l i s = Some s'
    /\ (forall q, stoneAt (board s') q
                  = if isSamePosition q p then Some (keystoneOf (currentPlayer s))
                    else stoneAt (board s) q)
    /\ length (moveHistory s') = S (length (moveHistory s))
    /\ currentPlayer s' = otherPlayer (currentPlayer s)
    /\ gamePhase s' = placing.
Proof.
  intros Hst Hmode Hwf Ep Hall; unfold convertLShape.
  rewrite Hst, Hmode, Ep; cbn [negb orb bind].
  assert (Hp : isValidPosition p = true).
  { rewrite Forall_forall in Hall; apply Hall, (arrGet_In _ i); exact Ep. }
  unfold writeStone.
  destruct (cellAt_valid (board s) p Hwf Hp) as (cell & ->); cbn [bind].
  match goal with |- context [completeTurn ?m ?s2] =>
    destruct (completeTurn_total m s2)
      as (ub & w & s' & _ & _ & Hs & _ & E & Hb & Hcp & Hph & _ & Hh & _)
  end.
  { split; [apply wfBoard_updCell; exact Hwf|]; unfold affectedPositions; cbn.
    constructor; assumption. }
  exists s'; split; [exact E|].
  split; [|split; [rewrite Hh, length_app; cbn; lia|split; assumption]].
  intros q; rewrite Hb, (Hs q); cbn [currentBoard].
  apply stoneAt_updCell_withStone; assumption.
Qed.

Lemma convertLShape_unchecked_witness :
  exists s',
    convertLShape strayTriple 0 conversionState = Some s'
    /\ (forall q, stoneAt (board s') q
                  = if isSamePosition q (mkPos 10 10)
                    then Some (keystoneOf (currentPlayer conversionState))
                    else stoneAt (board conversionState) q)
    /\ length (moveHistory s') = S (length (moveHistory conversionState))
    /\ currentPlayer s' = otherPlayer (currentPlayer conversionState)
    /\ gamePhase s' = placing.
Proof.
  apply (convertLShape_unchecked conversionState strayTriple 0 (mkPos 10 10));
    try (vm_compute; reflexivity).
  repeat constructor.
Defined.

Lemma pushIfAbsent_In (acc : list Position) (x p : Position) :
  In p (pushIfAbsent acc x) <-> In p acc \/ p = x.
Proof.
  unfold pushIfAbsent.
  destruct (existsb _ acc) eqn:E.
  - apply existsb_position in E; split; [auto|intros [H| ->]; assumption].
  - rewrite in_app_iff; cbn; intuition congruence.
Qed.

Lemma pushIfAbsent_NoDup (acc : list Position) (x : Position) :
  NoDup acc -> NoDup (pushIfAbsent acc x).
Proof.
  intros Hnd; unfold pushIfAbsent.
  destruct (existsb _ acc) eqn:E; [exact Hnd|].
  assert (Hx : ~ In x acc).
  { intros Hin; apply existsb_position in Hin; congruence. }
  clear E; induction acc as [|a acc IH]; cbn.
  - constructor; [intros []|constructor].
  - inversion Hnd; subst; constructor.
    + rewrite in_app_iff; cbn; intros [H|[H|[]]]; [contradiction|].
      apply Hx; left; symmetry; exact H.
    + apply IH; [assumption|intros H; apply Hx; right; exact H].
Qed.

Lemma fold_pushIfAbsent (ls : list (list Position)) :
  forall acc,
  NoDup acc ->
  NoDup (fold_left (fun acc l => fold_left pushIfAbsent l acc) ls acc)
  /\ forall p,
       In p (fold_left (fun acc l => fold_left pushIfAbsent l acc) ls acc)
       <-> In p acc \/ exists l, In l ls /\ In p l.
Proof.
  assert (Hone : forall l acc,
            NoDup acc ->
            NoDup (fold_left pushIfAbsent l acc)
            /\ forall p, In p (fold_left pushIfAbsent l acc) <-> In p acc \/ In p l).
  { induction l as [|x l IH]; intros acc Hnd; cbn [fold_left].
    - split; [exact Hnd|]; intros p; cbn; tauto.
    - destruct (IH (pushIfAbsent acc x) (pushIfAbsent_NoDup acc x Hnd)) as [H1 H2].
      split; [exact H1|]; intros p; rewrite H2, pushIfAbsent_In; cbn.
      intuition congruence. }
  induction ls as [|l ls IH]; intros acc Hnd; cbn [fold_left].
  - split; [exact Hnd|]; intros p; split; [auto|].
    intros [H|(l & [] & _)]; exact H.
  - destruct (Hone l acc Hnd) as [H1 H2].
    destruct (IH _ H1) as [H3 H4]; split; [exact H3|].
    intros p; rewrite H4, H2; split.
    + intros [[H|H]|(l' & Hl' & Hp)]; [left; exact H| |].
      * right; exists l; split; [left; reflexivity|exact H].
      * right; exists l'; split; [right; exact Hl'|exact Hp].
    + intros [H|(l' & [<-|Hl'] & Hp)]; [left; left; exact H| |].
      * left; right; exact Hp.
      * right; exists l'; split; assumption.
Qed.

(** [updateConvertibleStones] lists the stones of the L-shapes that
    [detectLShapes] finds for the player to move, each stone once, and
    changes nothing else in the state. *)
Theorem updateConvertibleStones_exact (s : GameState) :
  wfBoard (board s) ->
  exists ls v,
    detectLShapes (board s) (currentPlayer s) = Some ls
    /\ updateConvertibleStones s = Some (setConvertibleStones v s)
    /\ NoDup v
    /\ forall p, In p v <-> exists l, In l ls /\ In p (stones l).
Proof.
  intros Hwf; unfold updateConvertibleStones, detectLShapes, getConduitStones.
  rewrite scanBoard_total by exact Hwf; cbn [bind].
  eexists; eexists; split; [reflexivity|]; split; [reflexivity|].
  match goal with |- context [fold_left _ ?ls []] => set (shapes := ls) end.
  clearbody shapes.
  assert (E : fold_left (fun acc l => fold_left pushIfAbsent (stones l) acc) shapes []
              = fold_left (fun acc l => fold_left pushIfAbsent l acc)
                          (map stones shapes) []).
  { generalize (@nil Position); induction shapes as [|l ls IH]; intros acc;
      [reflexivity|cbn [fold_left map]; apply IH]. }
  rewrite E; destruct (fold_pushIfAbsent (map stones shapes) [] (NoDup_nil _))
    as [H1 H2].
  split; [exact H1|]; intros p; rewrite H2; split.
  - intros [[]|(l & Hl & Hp)]; apply in_map_iff in Hl.
    destruct Hl as (l0 & <- & Hl0); exists l0; auto.
  - intros (l & Hl & Hp); right; exists (stones l); split; [|exact Hp].
    apply in_map; exact Hl.
Qed.

Lemma updateConvertibleStones_exact_witness :
  exists ls v,
    detectLShapes (board conversionState) (currentPlayer conversionState) = Some ls
    /\ updateConvertibleStones conversionState
       = Some (setConvertibleStones v conversionState)
    /\ NoDup v
    /\ forall p, In p v <-> exists l, In l ls /\ In p (stones l).
Proof.
  apply (updateConvertibleStones_exact conversionState); vm_compute; reflexivity.
Defined.

Lemma annotateCell_cases (move : GameMove) (b : Board) (pos : Position)
  (cell : BoardCell) :
  cellAt b (row pos) (col pos) = Some cell ->
  annotateCell move b pos = Some b
  \/ (stoneType cell <> empty
      /\ exists n, annotateCell move b pos
                   = Some (updCell b pos (withNotation (Some n)))).
Proof.
  intros E; unfold annotateCell; rewrite E; cbn [bind].
  destruct (StoneType_eqb (stoneType cell) empty) eqn:Ee; cbn [negb]; [left; reflexivity|].
  assert (Hne : stoneType cell <> empty).
  { intros H; apply StoneType_eqb_eq in H; congruence. }
  destruct (createNotation move pos b) as [n|]; [|left; reflexivity].
  right; split; [exact Hne|].
  destruct (notation cell) as [old|], (moveType move); eauto.
Qed.

(** [updateNotation] changes notations only, and only on stones the move
    names: for a move whose board is a 17 x 17 grid and whose positions are
    on the board it returns a 17 x 17 board on which every cell is the cell
    of the board of the move, but for cells at positions the move affects
    that hold a stone: such a cell may differ in its notation, and in
    nothing else. *)
Theorem updateNotation_changes_notations_only (move : GameMove) :
  wfMove move ->
  exists ub,
    updateNotation move = Some ub
    /\ wfBoard ub
    /\ forall r c,
         cellAt ub r c = cellAt (currentBoard move) r c
         \/ (In (mkPos r c) (affectedPositions move)
             /\ exists cell n,
                  cellAt (currentBoard move) r c = Some cell
                  /\ stoneType cell <> empty
                  /\ cellAt ub r c = Some (withNotation (Some n) cell)).
Proof.
  intros [Hwf Hpos]; unfold updateNotation.
  apply (foldM_invariant
           (fun b => wfBoard b /\ forall r c,
              cellAt b r c = cellAt (currentBoard move) r c
              \/ (In (mkPos r c) (affectedPositions move)
                  /\ exists cell n,
                       cellAt (currentBoard move) r c = Some cell
                       /\ stoneType cell <> empty
                       /\ cellAt b r c = Some (withNotation (Some n) cell)))
           (fun p => isValidPosition p = true /\ In p (affectedPositions move))).
  - intros b p [Hwfb Hinv] [Hp Hin].
    destruct (cellAt_valid b p Hwfb Hp) as (cell1 & E1).
    destruct (annotateCell_cases move b p cell1 E1) as [->|(Hne & n & ->)];
      [eauto|].
    eexists; split; [reflexivity|]; split; [apply wfBoard_updCell; exact Hwfb|].
    intros r c; pose proof Hp as Hp'; apply isValidPosition_iff in Hp'.
    rewrite cellAt_updCell by lia.
    destruct ((r =? row p) && (c =? col p)) eqn:E; [|apply Hinv].
    apply andb_true_iff in E; destruct E as [Er Ec].
    apply Z.eqb_eq in Er, Ec; subst r c; rewrite E1; cbn [option_map].
    right; split; [destruct p; exact Hin|].
    destruct (Hinv (row p) (col p)) as [Hsame|(_ & cell & n0 & Ecur & Hc & Eb)].
    + exists cell1, n; rewrite <- Hsame; auto.
    + exists cell, n; rewrite E1 in Eb; inversion Eb; subst cell1; auto.
  - rewrite Forall_forall in *; intros p Hp; split; [apply Hpos; exact Hp|exact Hp].
  - split; [exact Hwf|]; intros r c; left; reflexivity.
Qed.

Lemma updateNotation_changes_notations_only_witness :
  exists ub,
    updateNotation winningMove = Some ub
    /\ wfBoard ub
    /\ forall r c,
         cellAt ub r c = cellAt (currentBoard winningMove) r c
         \/ (In (mkPos r c) (affectedPositions winningMove)
             /\ exists cell n,
                  cellAt (currentBoard winningMove) r c = Some cell
                  /\ stoneType cell <> empty
                  /\ cellAt ub r c = Some (withNotation (Some n) cell)).
Proof.
  apply (updateNotation_changes_notations_only winningMove).
  split; [vm_compute; reflexivity|].
  cbv [affectedPositions winningMove lShapeInfo resonanceInfo m_position lShape
       stones bentTriple app].
  repeat constructor.
Defined.

(** ** The buttons of the history *)

Lemma counter_exact_run (acts : list Action) :
  forall s s',
  ~ In DoConfirmUndo acts ->
  currentMoveIndex s = Z.of_nat (length (moveHistory s)) ->
  foldM (fun s a => perform a s) acts s = Some s' ->
  currentMoveIndex s' = Z.of_nat (length (moveHistory s')).
Proof.
  induction acts as [|a acts IH]; intros s s' Hno Hs H; cbn [foldM] in H.
  - inversion H; subst; exact Hs.
  - apply bind_Some in H; destruct H as (s1 & E1 & H).
    apply (IH s1 s'); [intros Hin; apply Hno; right; exact Hin| |exact H].
    assert (Ha : a <> DoConfirmUndo) by (intros ->; apply Hno; left; reflexivity).
    pose proof (perform_appends a s s1 E1) as Hgrow.
    assert (Hr : a = DoResetGame \/ a <> DoResetGame)
      by (destruct a; (left; reflexivity) || (right; discriminate)).
    destruct Hr as [->|Hr]; [inversion E1; reflexivity|].
    destruct (Hgrow Ha Hr) as (ms & -> & _ & _ & ->).
    rewrite Hs, length_app; lia.
Qed.

(** As long as [confirmUndo] has not been used, the turn counter is the
    number of recorded moves, so the redo button of the panel is disabled
    in every state, history mode included (where the shortcut of [redo] may
    well move the cursor), and the undo button is enabled exactly when a
    move is recorded. *)
Theorem redo_button_disabled (acts : list Action) (s : GameState) :
  ~ In DoConfirmUndo acts ->
  foldM (fun s a => perform a s) acts initialState = Some s ->
  currentMoveIndex s = Z.of_nat (length (moveHistory s))
  /\ canRedo s = false
  /\ (canUndo s = true <-> moveHistory s <> []).
Proof.
  intros Hno H.
  pose proof (counter_exact_run acts initialState s Hno eq_refl H) as Hc.
  split; [exact Hc|]; unfold canRedo, canUndo; rewrite Hc; split.
  - rewrite Z.ltb_irrefl; apply andb_false_r.
  - destruct (moveHistory s) as [|m ms]; cbn [length]; split; intros Hx.
    + cbn in Hx; discriminate.
    + exfalso; apply Hx; reflexivity.
    + discriminate.
    + apply andb_true_iff; split; apply Z.gtb_lt; lia.
Qed.

Lemma redo_button_disabled_witness :
  currentMoveIndex browsingState = Z.of_nat (length (moveHistory browsingState))
  /\ canRedo browsingState = false
  /\ (canUndo browsingState = true <-> moveHistory browsingState <> []).
Proof.
  apply (redo_button_disabled browsingActions browsingState).
  - intros H; repeat (destruct H as [H|H]; [discriminate H|]); exact H.
  - vm_compute; reflexivity.
Defined.

(** ** The resonance reaches the first conductor *)

Lemma propagateLoop_reaches (b : Board) (v : Position) (core : Core) (owner : Player) :
  wfBoard b ->
  forall (n : nat) (k : Z) (current : Position) (path : list Position),
  1 <= k <= Z.of_nat n ->
  (forall j, 1 <= j < k ->
     let q := mkPos (row current + j * row v) (col current + j * col v) in
     isValidPosition q = true
     /\ (In q (positions core) \/ stoneAt b q = Some empty)) ->
  (let q := mkPos (row current + k * row v) (col current + k * col v) in
   isValidPosition q = true /\ ~ In q (positions core)
   /\ stoneAt b q = Some (conduitOf owner)) ->
  exists before,
    propagateLoop n b v core owner current path
    = Some (before ++ [mkPos (row current + k * row v) (col current + k * col v)]).
Proof.
  intros Hwf; induction n as [|n IH]; intros k current path Hk Hfree Hlast; [lia|].
  cbn [propagateLoop]; cbv zeta in *.
  set (next := stepFrom current v).
  assert (Enext : next = mkPos (row current + 1 * row v) (col current + 1 * col v)).
  { unfold next, stepFrom; f_equal; lia. }
  assert (Hshift : forall j,
            mkPos (row next + (j - 1) * row v) (col next + (j - 1) * col v)
            = mkPos (row current + j * row v) (col current + j * col v)).
  { intros j; rewrite Enext; cbn [row col]; f_equal; lia. }
  destruct (Z.eq_dec k 1) as [->|Hk1].
  - rewrite <- Enext in Hlast; destruct Hlast as (Hv & Hout & Hst).
    rewrite Hv; cbn [negb].
    destruct (cellAt_valid b next Hwf Hv) as (cell & E); rewrite E; cbn [bind].
    destruct (isPositionInArray next (positions core)) eqn:Ein;
      [apply isPositionInArray_In in Ein; contradiction|]; cbn [negb].
    unfold stoneAt in Hst; rewrite E in Hst; inversion Hst as [Hc]; rewrite Hc.
    rewrite (proj2 (StoneType_eqb_eq _ _) eq_refl).
    exists path; rewrite <- Enext; reflexivity.
  - destruct (Hfree 1) as (Hv & Hq); [lia|]; rewrite <- Enext in Hv, Hq.
    rewrite Hv; cbn [negb].
    destruct (cellAt_valid b next Hwf Hv) as (cell & E); rewrite E; cbn [bind].
    assert (Hrec : forall path',
              exists before,
                propagateLoop n b v core owner next path'
                = Some (before ++ [mkPos (row current + k * row v)
                                         (col current + k * col v)])).
    { intros path'; rewrite <- (Hshift k); apply IH; [lia| |].
      - intros j Hj; cbv zeta; replace j with ((j + 1) - 1) by lia.
        rewrite Hshift; apply Hfree; lia.
      - cbv zeta; rewrite Hshift; exact Hlast. }
    destruct (isPositionInArray next (positions core)) eqn:Ein; cbn [negb];
      [apply Hrec|].
    destruct Hq as [Hq|Hq]; [apply isPositionInArray_In in Hq; congruence|].
    unfold stoneAt in Hq; rewrite E in Hq; inversion Hq as [Hc]; rewrite Hc.
    replace (StoneType_eqb empty (conduitOf owner)) with false
      by (destruct owner; reflexivity).
    cbn [StoneType_eqb negb]; apply Hrec.
Qed.

Lemma keystone_survives_conversion (owner : Player) (path : list Position)
  (b b' : Board) (q : Position) :
  wfBoard b ->
  Forall (fun x => isValidPosition x = true) path ->
  foldM (convertOnPath owner) path b = Some b' ->
  stoneAt b q = Some (keystoneOf owner) ->
  stoneAt b' q = Some (keystoneOf owner).
Proof.
  intros Hwf Hpath E Hq.
  destruct (convertOnPath_effect owner path b Hwf Hpath) as (b1 & E1 & _ & Heff).
  rewrite E in E1; inversion E1; subst b1.
  destruct (Heff (row q) (col q)) as [Hs|[(cell & Eb & Hc & _) _]].
  - unfold stoneAt in *; rewrite Hs; exact Hq.
  - unfold stoneAt in Hq; rewrite Eb in Hq; cbn in Hq.
    exfalso; apply (keystone_not_conduit owner); congruence.
Qed.

Lemma convertOnPath_converts (owner : Player) (q : Position) (path : list Position) :
  forall b,
  wfBoard b ->
  Forall (fun x => isValidPosition x = true) path ->
  In q path ->
  stoneAt b q = Some (conduitOf owner) \/ stoneAt b q = Some (keystoneOf owner) ->
  exists b',
    foldM (convertOnPath owner) path b = Some b'
    /\ wfBoard b'
    /\ stoneAt b' q = Some (keystoneOf owner).
Proof.
  induction path as [|x path IH]; intros b Hwf Hpath Hin Hq; [destruct Hin|].
  inversion Hpath as [|? ? Hx Hrest]; subst.
  cbn [foldM]; unfold convertOnPath at 1.
  destruct (cellAt_valid b x Hwf Hx) as (cell & Ecell); rewrite Ecell; cbn [bind].
  assert (Hdone : forall b1,
            wfBoard b1 -> stoneAt b1 q = Some (keystoneOf owner) ->
            exists b',
              foldM (convertOnPath owner) path b1 = Some b'
              /\ wfBoard b' /\ stoneAt b' q = Some (keystoneOf owner)).
  { intros b1 Hwf1 Hk.
    destruct (convertOnPath_effect owner path b1 Hwf1 Hrest) as (b' & E & Hwf' & _).
    exists b'; split; [exact E|]; split; [exact Hwf'|].
    apply (keystone_survives_conversion owner path b1 b' q); assumption. }
  destruct (StoneType_eqb (stoneType cell) (conduitOf owner)) eqn:Ec.
  - assert (Hst : stoneAt (updCell b x (withStone (keystoneOf owner))) q
                  = if isSamePosition q x then Some (keystoneOf owner)
                    else stoneAt b q)
      by (apply stoneAt_updCell_withStone; assumption).
    assert (Hwf1 : wfBoard (updCell b x (withStone (keystoneOf owner))))
      by (apply wfBoard_updCell; exact Hwf).
    destruct (isSamePosition q x) eqn:Eq; [apply Hdone; assumption|].
    destruct Hin as [->|Hin]; [rewrite isSamePosition_refl in Eq; discriminate|].
    apply IH; try assumption; rewrite Hst; exact Hq.
  - destruct Hin as [->|Hin]; [|apply IH; assumption].
    destruct Hq as [Hq|Hq]; [|apply Hdone; assumption].
    unfold stoneAt in Hq; rewrite Ecell in Hq; inversion Hq as [Hc].
    rewrite Hc, (proj2 (StoneType_eqb_eq _ _) eq_refl) in Ec; discriminate.
Qed.

Lemma resonateDirection_frame (core : Core) (focal : Position) (owner : Player)
  (d0 : Direction) (b : Board) (paths : list (list Position)) :
  wfBoard b ->
  exists b1 path,
    resonateDirection core focal owner (b, paths) d0 = Some (b1, paths ++ [path])
    /\ wfBoard b1
    /\ forall q, ~ onRay focal d0 q -> stoneAt b1 q = stoneAt b q.
Proof.
  intros Hwf.
  destruct (resonance_fold core focal owner [d0] b paths Hwf)
    as (b1 & ps & E & Hwf1 & Hlen & _ & _ & Hframe).
  destruct ps as [|path [|? ?]]; try discriminate Hlen.
  cbn [foldM] in E.
  destruct (resonateDirection core focal owner (b, paths) d0) as [[b2 ps2]|];
    [|discriminate].
  cbn [bind] in E; inversion E; subst b2 ps2.
  exists b1, path; split; [reflexivity|]; split; [exact Hwf1|].
  intros q Hq; unfold stoneAt; rewrite (Hframe q); [reflexivity|].
  intros d' [<-|[]]; exact Hq.
Qed.

Lemma rayOpen_frame (b b1 : Board) (core : Core) (owner : Player)
  (focal : Position) (d d0 : Direction) (k : Z) :
  d0 <> d ->
  (forall q, ~ onRay focal d0 q -> stoneAt b1 q = stoneAt b q) ->
  rayOpen b core owner focal d k -> rayOpen b1 core owner focal d k.
Proof.
  intros Hd Hframe (Hk & Hfree & Hv & Hout & Hst).
  assert (Hoff : forall j, 1 <= j -> ~ onRay focal d0 (rayCell focal d j)).
  { intros j Hj (j' & Hj' & E).
    apply (ray_disjoint focal d d0 j j'); [congruence|lia|lia|exact E]. }
  split; [exact Hk|]; split; [|split; [exact Hv|split; [exact Hout|]]].
  - intros j Hj; destruct (Hfree j Hj) as [H1 H2]; split; [exact H1|].
    destruct H2 as [H2|H2]; [left; exact H2|right].
    rewrite Hframe; [exact H2|apply Hoff; lia].
  - rewrite Hframe; [exact Hst|apply Hoff; lia].
Qed.

Lemma Direction_eq_dec (a b : Direction) : {a = b} + {a <> b}.
Proof. decide equality. Qed.

Lemma resonance_fold_reaches (core : Core) (focal : Position) (owner : Player)
  (d : Direction) (k : Z) (ds : list Direction) :
  NoDup ds -> In d ds ->
  forall (b : Board) (paths : list (list Position)),
  wfBoard b ->
  rayOpen b core owner focal d k ->
  exists b' ps,
    foldM (resonateDirection core focal owner) ds (b, paths) = Some (b', paths ++ ps)
    /\ stoneAt b' (rayCell focal d k) = Some (keystoneOf owner).
Proof.
  induction ds as [|d0 ds IH]; intros Hnd Hin b paths Hwf Hopen; [destruct Hin|].
  inversion Hnd as [|? ? Hnotin Hnd']; subst.
  destruct (Direction_eq_dec d0 d) as [->|Hne].
  - cbn [foldM]; unfold resonateDirection at 1.
    pose proof Hopen as (Hk & Hfree & Hv & Hout & Hst).
    destruct (propagateResonance_spec b focal d core owner Hwf) as (path & Ep & Hpath).
    destruct (propagateLoop_reaches b (directionVectors d) core owner Hwf 5%nat k
                focal []) as (before & Eb).
    { lia. }
    { intros j Hj; cbv zeta; apply (Hfree j Hj). }
    { cbv zeta; auto. }
    change (mkPos (row focal + k * row (directionVectors d))
                  (col focal + k * col (directionVectors d)))
      with (rayCell focal d k) in Eb.
    unfold propagateResonance in Ep; rewrite Ep in Eb; inversion Eb; subst path.
    unfold propagateResonance; rewrite Ep; cbn [bind].
    destruct (convertOnPath_converts owner (rayCell focal d k)
                (before ++ [rayCell focal d k]) b Hwf)
      as (b1 & E1 & Hwf1 & Hkey).
    { eapply Forall_impl; [|exact Hpath]; intros q (H1 & _); exact H1. }
    { apply in_or_app; right; left; reflexivity. }
    { left; exact Hst. }
    rewrite E1; cbn [bind].
    destruct (resonance_fold core focal owner ds b1
                (paths ++ [before ++ [rayCell focal d k]]) Hwf1)
      as (b' & ps & E & _ & _ & _ & _ & Hframe).
    rewrite E.
    exists b', ((before ++ [rayCell focal d k]) :: ps).
    rewrite <- app_assoc; split; [reflexivity|].
    unfold stoneAt in *; rewrite (Hframe (rayCell focal d k)); [exact Hkey|].
    intros d' Hd' (j' & Hj' & E').
    apply (ray_disjoint focal d d' k j'); [|lia|lia|exact E'].
    intros ->; contradiction.
  - destruct Hin as [Hin|Hin]; [contradiction|].
    destruct (resonateDirection_frame core focal owner d0 b paths Hwf)
      as (b1 & path & E1 & Hwf1 & Hframe).
    cbn [foldM]; rewrite E1; cbn [bind].
    destruct (IH Hnd' Hin b1 (paths ++ [path]) Hwf1) as (b' & ps & E & Hkey).
    { apply (rayOpen_frame b b1 core owner focal d d0 k Hne Hframe Hopen). }
    rewrite <- app_assoc in E.
    exists b', (path :: ps); split; [exact E|exact Hkey].
Qed.

(** The resonance reaches the first conductor of each ray.  On a well-formed
    board, for a core whose first stone gives the owner: when the cells of
    the ray from the focal position in some direction are, up to the [k]-th
    ([k] at most 5), on the board and empty or cells of the core, and the
    [k]-th holds a conductor of the owner outside the core, then
    [activateResonance] returns a board on which that cell holds the keystone
    of the owner. *)
Theorem resonance_reaches_first_conductor (b : Board) (core : Core) (focal : Position)
  (owner : Player) (d : Direction) (k : Z) :
  wfBoard b ->
  corePlayerOf core = Some owner ->
  rayOpen b core owner focal d k ->
  exists newBoard paths,
    activateResonance b core focal = Some (newBoard, paths)
    /\ stoneAt newBoard (rayCell focal d k) = Some (keystoneOf owner).
Proof.
  intros Hwf Howner Hopen; unfold activateResonance; rewrite Howner; cbn [bind].
  destruct (resonance_fold_reaches core focal owner d k [up; down; left; right])
    with (b := b) (paths := @nil (list Position)) as (b' & ps & E & Hkey).
  - repeat constructor; cbn; intuition discriminate.
  - destruct d; cbn; auto.
  - exact Hwf.
  - exact Hopen.
  - exists b', ps; split; [exact E|exact Hkey].
Qed.

Lemma resonance_reaches_first_conductor_witness :
  exists newBoard paths,
    activateResonance squareBoard squareCore (mkPos 4 3) = Some (newBoard, paths)
    /\ stoneAt newBoard (rayCell (mkPos 4 3) right 3) = Some (keystoneOf black).
Proof.
  apply (resonance_reaches_first_conductor squareBoard squareCore (mkPos 4 3)
           black right 3); try (vm_compute; reflexivity).
  split; [lia|]; split; [|split; [vm_compute; reflexivity|split]].
  - intros j Hj; assert (Hcase : j = 1 \/ j = 2) by lia.
    destruct Hcase as [-> | ->]; (split; [vm_compute; reflexivity|]).
    + left; cbn; auto.
    + right; vm_compute; reflexivity.
  - cbn; intros H; repeat (destruct H as [H|H]; [discriminate H|]); exact H.
  - vm_compute; reflexivity.
Defined.

(** ** The notation of a conversion *)

Lemma annotate_conversion (move : GameMove) (q : Position) (cell0 : BoardCell)
  (old : NotationInfo) :
  moveType move = convert ->
  stoneType cell0 <> empty ->
  notation cell0 = Some old ->
  isValidPosition q = true ->
  forall (l : list Position) (b : Board) (cellb : BoardCell),
  wfBoard b ->
  Forall (fun x => isValidPosition x = true) l ->
  cellAt b (row q) (col q) = Some cellb ->
  cellb = cell0
  \/ cellb = withNotation (Some (conversionMark old (moveNumber move))) cell0 ->
  exists b' cellb',
    foldM (annotateCell move) l b = Some b'
    /\ wfBoard b'
    /\ cellAt b' (row q) (col q) = Some cellb'
    /\ (cellb' = cell0
        \/ cellb' = withNotation (Some (conversionMark old (moveNumber move))) cell0)
    /\ (cellb = withNotation (Some (conversionMark old (moveNumber move))) cell0
        \/ In q l ->
        cellb' = withNotation (Some (conversionMark old (moveNumber move))) cell0).
Proof.
  intros Hty Hne Hold Hq; induction l as [|x l IH]; intros b cellb Hwf Hl Eb Hb.
  - exists b, cellb; cbn [foldM]; repeat split; try assumption.
    intros [H|[]]; exact H.
  - inversion Hl as [|? ? Hx Hrest]; subst; cbn [foldM].
    pose proof Hx as Hx'; apply isValidPosition_iff in Hx'.
    destruct (cellAt_valid b x Hwf Hx) as (cellx & Ex).
    destruct (isSamePosition q x) eqn:Eqx.
    + apply isSamePosition_eq in Eqx; subst x.
      rewrite Eb in Ex; inversion Ex; subst cellx; clear Ex.
      assert (Estep : annotateCell move b q
                = Some (updCell b q
                          (withNotation
                             (Some (conversionMark old (moveNumber move)))))).
      { unfold annotateCell; rewrite Eb; cbn [bind].
        assert (Hst : stoneType cellb = stoneType cell0)
          by (destruct Hb as [->| ->]; reflexivity).
        rewrite Hst.
        destruct (StoneType_eqb (stoneType cell0) empty) eqn:Ee;
          [apply StoneType_eqb_eq in Ee; contradiction|]; cbn [negb].
        unfold createNotation; rewrite Hty.
        destruct Hb as [->| ->]; [rewrite Hold|cbn [notation withNotation]];
          reflexivity. }
      rewrite Estep; cbn [bind].
      destruct (IH (updCell b q (withNotation
                                   (Some (conversionMark old (moveNumber move)))))
                   (withNotation (Some (conversionMark old (moveNumber move))) cell0))
        as (b' & cellb' & E' & Hwf' & Eb' & Hb' & Hmark).
      * apply wfBoard_updCell; exact Hwf.
      * exact Hrest.
      * rewrite cellAt_updCell by lia; rewrite !Z.eqb_refl; cbn [andb].
        rewrite Eb; cbn [option_map].
        destruct Hb as [->| ->]; reflexivity.
      * right; reflexivity.
      * exists b', cellb'; split; [exact E'|]; split; [exact Hwf'|].
        split; [exact Eb'|]; split; [exact Hb'|]; intros _.
        apply Hmark; left; reflexivity.
    + assert (Hnext : forall b1,
                wfBoard b1 -> cellAt b1 (row q) (col q) = Some cellb ->
                exists b' cellb',
                  foldM (annotateCell move) l b1 = Some b'
                  /\ wfBoard b'
                  /\ cellAt b' (row q) (col q) = Some cellb'
                  /\ (cellb' = cell0
                      \/ cellb' = withNotation
                                    (Some (conversionMark old (moveNumber move))) cell0)
                  /\ (cellb = withNotation
                                (Some (conversionMark old (moveNumber move))) cell0
                      \/ In q (x :: l) ->
                      cellb' = withNotation
                                 (Some (conversionMark old (moveNumber move))) cell0)).
      { intros b1 Hwf1 E1.
        destruct (IH b1 cellb Hwf1 Hrest E1 Hb)
          as (b' & cellb' & E' & Hwf' & Eb' & Hb' & Hmark).
        exists b', cellb'; repeat split; try assumption.
        intros [H|[->|H]]; [apply Hmark; left; exact H| |apply Hmark; right; exact H].
        rewrite isSamePosition_refl in Eqx; discriminate. }
      destruct (annotateCell_cases move b x cellx Ex) as [->|(_ & n & ->)];
        cbn [bind]; [apply Hnext; assumption|].
      apply Hnext; [apply wfBoard_updCell; exact Hwf|].
      rewrite cellAt_updCell by lia.
      unfold isSamePosition in Eqx; rewrite Eqx; exact Eb.
Qed.

(** A conversion marks every stone of its L-shape.  For a move of type
    [convert] whose board is a 17 x 17 grid and whose positions are on the
    board, [updateNotation] returns a board on which every stone at an
    affected position (the position of the move and each stone of the
    L-shape, converted or not) that carried a notation keeps the number, the
    type and the direction of that notation and carries the conversion, with
    the number of the move, as its secondary notation. *)
Theorem conversion_marks_whole_triple (move : GameMove) :
  wfMove move ->
  moveType move = convert ->
  exists ub,
    updateNotation move = Some ub
    /\ (forall info, lShapeInfo move = Some info ->
          forall q, In q (stones (lShape info)) -> In q (affectedPositions move))
    /\ forall q cell old,
         In q (affectedPositions move) ->
         cellAt (currentBoard move) (row q) (col q) = Some cell ->
         stoneType cell <> empty ->
         notation cell = Some old ->
         cellAt ub (row q) (col q)
         = Some (withNotation (Some (conversionMark old (moveNumber move))) cell).
Proof.
  intros [Hwf Hpos] Hty.
  destruct (updateNotation_total move (conj Hwf Hpos)) as (ub & Eub & _).
  exists ub; split; [exact Eub|]; split.
  - intros info Hinfo q Hin; unfold affectedPositions; rewrite Hinfo.
    assert (Hbase : In q ([m_position move] ++ stones (lShape info)))
      by (apply in_or_app; right; exact Hin).
    destruct (resonanceInfo move) as [rinfo|]; [|exact Hbase].
    revert Hbase.
    generalize ([m_position move] ++ stones (lShape info)); intros acc Hacc.
    assert (Hacc' : In q (acc ++ [focusPosition rinfo]))
      by (apply in_or_app; left; exact Hacc).
    revert Hacc'; generalize (acc ++ [focusPosition rinfo]); clear.
    assert (Hone : forall path acc, In q acc -> In q (fold_left pushIfAbsent path acc)).
    { induction path as [|x path IH]; intros acc Hacc; cbn [fold_left];
        [exact Hacc|].
      apply IH; apply pushIfAbsent_In; left; exact Hacc. }
    induction (resonancePaths rinfo) as [|path paths IH]; intros acc Hacc;
      cbn [fold_left]; [exact Hacc|].
    apply IH, Hone; exact Hacc.
  - intros q cell old Hin Ecell Hne Hold.
    assert (Hq : isValidPosition q = true)
      by (rewrite Forall_forall in Hpos; apply Hpos; exact Hin).
    destruct (annotate_conversion move q cell old Hty Hne Hold Hq
                (affectedPositions move) (currentBoard move) cell Hwf Hpos Ecell)
      as (b' & cellb' & E' & _ & Eb' & _ & Hmark); [left; reflexivity|].
    unfold updateNotation in Eub; rewrite Eub in E'; inversion E'; subst b'.
    rewrite Eb', (Hmark (or_intror Hin)); reflexivity.
Qed.

Lemma conversion_marks_whole_triple_witness :
  exists ub,
    updateNotation tripleConversion = Some ub
    /\ (forall info, lShapeInfo tripleConversion = Some info ->
          forall q, In q (stones (lShape info)) ->
          In q (affectedPositions tripleConversion))
    /\ forall q cell old,
         In q (affectedPositions tripleConversion) ->
         cellAt (currentBoard tripleConversion) (row q) (col q) = Some cell ->
         stoneType cell <> empty ->
         notation cell = Some old ->
         cellAt ub (row q) (col q)
         = Some (withNotation
                   (Some (conversionMark old (moveNumber tripleConversion))) cell).
Proof.
  apply (conversion_marks_whole_triple tripleConversion); [|reflexivity].
  split; [vm_compute; reflexivity|].
  cbv [affectedPositions tripleConversion lShapeInfo resonanceInfo m_position lShape
       stones bentTriple app].
  repeat constructor.
Defined.

(** ** The lists of the board component *)

Lemma updateAvailableMoves_scan (s s' : GameState) :
  updateAvailableMoves s = Some s' ->
  exists v, getEmptyPositions (board s) = Some v /\ s' = setAvailableMoves v s.
Proof.
  unfold updateAvailableMoves, getEmptyPositions; intros H.
  apply bind_Some in H; destruct H as (v & E & H); inversion H; eauto.
Qed.

Lemma updateConvertibleStones_scan (s s' : GameState) :
  updateConvertibleStones s = Some s' ->
  exists ls,
    detectLShapes (board s) (currentPlayer s) = Some ls
    /\ s' = setConvertibleStones (convertibleOf ls) s.
Proof.
  unfold updateConvertibleStones; intros H.
  apply bind_Some in H; destruct H as (ls & E & H); inversion H; eauto.
Qed.

Lemma completeTurn_lists (move : GameMove) (s s' : GameState) :
  completeTurn move s = Some s' -> listsOfBoard s'.
Proof.
  unfold completeTurn; intros H.
  apply bind_Some in H; destruct H as (ub & _ & H).
  apply bind_Some in H; destruct H as (w & _ & H).
  apply bind_Some in H; destruct H as (s2 & E2 & H).
  apply bind_Some in H; destruct H as (s3 & E3 & H).
  apply updateAvailableMoves_scan in E2; destruct E2 as (v & Ev & ->).
  apply updateConvertibleStones_scan in E3; destruct E3 as (ls & Els & ->).
  cbn [board currentPlayer setAvailableMoves] in Ev, Els.
  destruct w; inversion H; subst s'; clear H; (split; [exact Ev|exists ls; auto]).
Qed.

Lemma listsInSync_perform (a : Action) (s s' : GameState) :
  listsInSync s -> perform a s = Some s' -> listsInSync s'.
Proof.
  intros Hs H.
  assert (Hall : listsOfBoard s' -> listsInSync s').
  { intros [H1 H2] _ _; split; right; assumption. }
  destruct a; cbn [perform] in H.
  - (* placeStone *)
    unfold placeStone in H; status_gate H G; [inversion H; subst; exact Hs|].
    apply bind_Some in H; destruct H as (nb & _ & H).
    apply bind_Some in H; destruct H as (cores & _ & H).
    destruct cores as [|core0 rest].
    + apply Hall, (completeTurn_lists _ _ _ H).
    + apply bind_Some in H; destruct H as (ub & _ & H); inversion H; subst s'; clear H.
      intros _ Hp; cbn in Hp; discriminate.
  - (* convertLShape *)
    unfold convertLShape in H; status_gate H G; [inversion H; subst; exact Hs|].
    apply bind_Some in H; destruct H as (sp & _ & H).
    apply bind_Some in H; destruct H as (nb & _ & H).
    apply Hall, (completeTurn_lists _ _ _ H).
  - (* selectCore *)
    inversion H; subst s'; clear H; intros _ Hp; cbn in Hp; discriminate.
  - (* selectFocusPosition *)
    unfold selectFocusPosition in H.
    destruct (selectedCore s) as [core|]; [|inversion H; subst; exact Hs].
    destruct (corePlayer s) as [owner|]; [|inversion H; subst; exact Hs].
    apply bind_Some in H; destruct H as (cell & _ & H).
    apply bind_Some in H; destruct H as ([nb paths] & _ & H).
    apply bind_Some in H; destruct H as (conv & _ & H).
    apply Hall, (completeTurn_lists _ _ _ H).
  - (* activateResonance *)
    unfold activateResonanceAction in H.
    apply bind_Some in H; destruct H as ([nb paths] & _ & H).
    apply Hall, (completeTurn_lists _ _ _ H).
  - inversion H; subst s'; exact Hs.
  - inversion H; subst s'; exact Hs.
  - (* undo *)
    unfold undo in H.
    destruct (isHistoryMode s) eqn:Hm;
      [destruct (historyIndex s >? 0)
      |destruct (Z.of_nat (length (moveHistory s)) >? 0)];
      try (inversion H; subst; exact Hs);
      apply bind_Some in H; destruct H as (t & _ & H); inversion H; subst s';
      clear H; intros Hm' _; cbn in Hm'; congruence.
  - (* redo *)
    unfold redo in H.
    destruct (isHistoryMode s) eqn:Hm; cbn [andb] in H;
      [|inversion H; subst; exact Hs].
    destruct (_ <? _); [|inversion H; subst; exact Hs].
    apply bind_Some in H; destruct H as (t & _ & H); inversion H; subst s'.
    clear H; intros Hm' _; cbn in Hm'; congruence.
  - (* confirmUndo *)
    unfold confirmUndo in H.
    destruct (isHistoryMode s); [|inversion H; subst; exact Hs].
    apply bind_Some in H; destruct H as (t & _ & H).
    apply bind_Some in H; destruct H as (s2 & E2 & H).
    apply bind_Some in H; destruct H as (s3 & E3 & H).
    apply updateAvailableMoves_scan in E2; destruct E2 as (v & Ev & ->).
    apply updateConvertibleStones_scan in E3; destruct E3 as (ls & Els & ->).
    cbn [board currentPlayer setAvailableMoves] in Ev, Els.
    inversion H; subst s'; clear H; apply Hall.
    split; [exact Ev|exists ls; auto].
  - (* resetGame *)
    inversion H; subst s'; intros _ _; split; left; reflexivity.
  - (* updateAvailableMoves *)
    apply updateAvailableMoves_scan in H; destruct H as (v & Ev & ->).
    intros Hm Hp; destruct (Hs Hm Hp) as [_ H2]; split; [right; exact Ev|exact H2].
  - (* updateConvertibleStones *)
    apply updateConvertibleStones_scan in H; destruct H as (ls & Els & ->).
    intros Hm Hp; destruct (Hs Hm Hp) as [H1 _]; split; [exact H1|].
    right; exists ls; auto.
  - inversion H; subst s'; exact Hs.
  - inversion H; subst s'; exact Hs.
Qed.

(** The lists the board component reads stay in sync with the board.  In
    every state the store can reach, outside history mode and in the phase
    [placing], the available moves are the empty cells of the board (in the
    order of the scan) or an empty list (not computed yet, as in a new game
    before the first update), and the convertible stones are the stones of
    the L-shapes of the player to move or an empty list. *)
Theorem lists_in_sync (s : GameState) : reachable s -> listsInSync s.
Proof.
  induction 1 as [|a s s' _ IH H].
  - intros _ _; split; left; reflexivity.
  - exact (listsInSync_perform a s s' IH H).
Qed.

Lemma lists_in_sync_witness : listsInSync tripleState.
Proof.
  apply (lists_in_sync tripleState).
  apply (reachable_run
           [DoPlaceStone (mkPos 0 4); DoPlaceStone (mkPos 10 10);
            DoPlaceStone (mkPos 1 4); DoPlaceStone (mkPos 10 12);
            DoPlaceStone (mkPos 1 5); DoPlaceStone (mkPos 12 10)] initialState);
    [constructor|vm_compute; reflexivity].
Defined.
